(** * objtools: the ObjectMask engine and the value primitives it uses

    A shallow embedding of [object-mask.ts] and of the helpers of [index.ts]
    it calls ([isScalar], [deepEquals], [deepCopy], [collapseToDotted],
    [setPath]), followed by the properties of the mask algebra, of path
    resolution and of filtering.

    Conventions of the embedding.
    - A JavaScript value is a tree ([value]): the scalars, dense arrays and
      plain objects.  Objects are finite maps from property names to values;
      the enumeration order of [for .. in] is the one of [map_to_list] and no
      statement below depends on it.  Cyclic or shared structures are
      outside this model, as they are outside the library's contract.
    - What a call updates in place is stated on a second model, [Heap],
      in which objects live in a store and values refer to them.
    - Only own properties are modelled: a path segment naming a member of
      [Object.prototype] (toString, constructor, ...) is outside the model.
    - Numbers are integers (no NaN, no fractions); functions are left out.
    - Functions that recurse on something else than a sub-term of one
      argument take a [fuel] bound on the nesting depth; the entry points
      supply [height] of their operands, which is always enough. *)

From stdpp Require Import gmap strings list fin_maps.
From Stdlib Require Import ZArith Ascii DecimalString DecimalNat Sorted.

Local Open Scope string_scope.

(** ** Values *)

#[warnings="-register-all"]
Inductive value :=
| VUndef
| VNull
| VBool (b : bool)
| VNum (z : Z)
| VStr (s : string)
| VDate (t : Z)
| VArr (l : list value)
| VObj (m : gmap string value).

Abbreviation VTrue := (VBool true).
Abbreviation VFalse := (VBool false).

(** The wildcard slot of a mask node. *)
Definition wildcard : string := "_".

Fixpoint height (v : value) : nat :=
  match v with
  | VArr l => S (foldr (fun x acc => Nat.max (height x) acc) 0 l)
  | VObj m => S (map_fold (fun _ x acc => Nat.max (height x) acc) 0 m)
  | _ => 0
  end.

(** [typeof value !== 'object' || value instanceof Date || !value] *)
Definition isScalar (v : value) : bool :=
  match v with
  | VArr _ | VObj _ => false
  | _ => true
  end.

(** JavaScript truthiness, as used by [!v], [v || false] and [if (v)]. *)
Definition truthy (v : value) : bool :=
  match v with
  | VUndef | VNull => false
  | VBool b => b
  | VNum z => negb (z =? 0)%Z
  | VStr s => negb (String.eqb s "")
  | VDate _ | VArr _ | VObj _ => true
  end.

(** [v || false] *)
Definition or_false (v : value) : value := if truthy v then v else VFalse.

(** [typeof v === 'object'] (true of [null] as well). *)
Definition typeof_object (v : value) : bool :=
  match v with
  | VNull | VDate _ | VArr _ | VObj _ => true
  | _ => false
  end.

(** ** Decimal property names of array elements *)

Definition idx (i : nat) : string := NilEmpty.string_of_uint (Nat.to_uint i).

Definition indexed (l : list value) : gmap string value :=
  list_to_map (zip (idx <$> seq 0 (length l)) l).

Fixpoint chars (s : string) : list value :=
  match s with
  | EmptyString => []
  | String c s' => VStr (String c EmptyString) :: chars s'
  end.

(** ** Property access *)

(** The properties [for (key in v)] enumerates. *)
Definition enum_props (v : value) : gmap string value :=
  match v with
  | VObj m => m
  | VArr l => indexed l
  | VStr s => indexed (chars s)
  | _ => ∅
  end.

(** [v[k]]: [undefined] when there is no such property. *)
Definition get (k : string) (v : value) : value :=
  match enum_props v !! k with
  | Some x => x
  | None =>
      if String.eqb k "length" then
        match v with
        | VArr l => VNum (Z.of_nat (length l))
        | VStr s => VNum (Z.of_nat (String.length s))
        | _ => VUndef
        end
      else VUndef
  end.

(** [k in v], for a non-scalar [v]. *)
Definition has_key (k : string) (v : value) : bool :=
  match enum_props v !! k with
  | Some _ => true
  | None => match v with VArr _ => String.eqb k "length" | _ => false end
  end.

(** ** Dotted paths *)

Definition dot : ascii := "."%char.

(** [path.split('.')]: never empty, [""] splits into one empty segment. *)
Fixpoint split_dots (s : string) : list string :=
  match s with
  | EmptyString => [EmptyString]
  | String c s' =>
      if Ascii.eqb c dot then EmptyString :: split_dots s'
      else match split_dots s' with
           | h :: t => String c h :: t
           | [] => [String c EmptyString]
           end
  end.

(** A concrete path has no wildcard segment. *)
Definition concrete_segs (ks : list string) : bool :=
  forallb (fun k => negb (String.eqb k wildcard)) ks.

Definition concrete (p : string) : bool := concrete_segs (split_dots p).

(** ** Mask trees *)

Definition map_all (f : value -> bool) (m : gmap string value) : bool :=
  map_fold (fun _ v acc => f v && acc) true m.

(** A mask tree in strict form: booleans at the leaves, maps inside.  This is
    what [validate] accepts once the constructor has rewritten arrays. *)
Fixpoint mask_tree (v : value) : bool :=
  match v with
  | VBool _ => true
  | VObj m => map_fold (fun _ x acc => mask_tree x && acc) true m
  | _ => false
  end.

(** [valWhitelist]: every scalar is a boolean; arrays count as objects. *)
Fixpoint valWhitelist (whitelist : value) : bool :=
  match whitelist with
  | VBool _ => true
  | VObj m => map_fold (fun _ x acc => valWhitelist x && acc) true m
  | VArr l => forallb valWhitelist l
  | _ => false
  end.

(** ** Construction *)

(** [objtools.deepCopy] *)
Fixpoint deepCopy (obj : value) : value :=
  match obj with
  | VArr l => VArr (deepCopy <$> l)
  | VObj m => VObj (deepCopy <$> m)
  | _ => obj
  end.

(** [underscorizeArrays]: every array found under a key becomes
    [{ _: underscorizeArrays(array[0]) }]; the root itself is kept. *)
Fixpoint underscorizeArrays (mask : value) : value :=
  let entry (submask : value) : value :=
    match submask with
    | VArr l => VObj {[ wildcard := match l with
                                    | x :: _ => underscorizeArrays x
                                    | [] => VUndef
                                    end ]}
    | _ => underscorizeArrays submask
    end in
  match mask with
  | VObj m => VObj (entry <$> m)
  | VArr l => VArr (entry <$> l)
  | _ => mask
  end.

(** [new ObjectMask(mask)]: the tree the instance holds. *)
Definition ObjectMask (mask : value) : value := underscorizeArrays (deepCopy mask).

(** ** Path resolution *)

(** The loop of [getSubMask] over the remaining segments. *)
Fixpoint walk (mask : value) (subpaths : list string) : value :=
  match subpaths with
  | [] => mask
  | key :: rest =>
      if isScalar mask then mask
      else walk (if has_key key mask then get key mask else get wildcard mask) rest
  end.

Definition getSubMask (mask : value) (path : string) : value :=
  ObjectMask (or_false (walk mask (split_dots path))).

Definition is_true (v : value) : bool :=
  match v with VBool true => true | _ => false end.

(** [checkPath]: [this.getSubMask(path).mask === true] *)
Definition checkPath (mask : value) (path : string) : bool :=
  is_true (getSubMask mask path).

(** ** Inversion *)

(** The wildcard fix-up at the end of [invert]. *)
Definition invert_wildcard (result : gmap string value) : gmap string value :=
  match result !! wildcard with
  | None => <[wildcard := VTrue]> result
  | Some w => if truthy w then result else delete wildcard result
  end.

Fixpoint invert (mask : value) : value :=
  match mask with
  | VObj m => VObj (invert_wildcard (invert <$> m))
  | VArr l => VObj (invert_wildcard (list_to_map (zip (idx <$> seq 0 (length l)) (invert <$> l))))
  | _ => VBool (negb (truthy mask))
  end.

(** [ObjectMask.invertMask] *)
Definition invertMask (mask : value) : value := ObjectMask (invert mask).

(** ** Iterating over the properties of an object *)

(** [for (key in m) acc = body(key, acc)] *)
Definition for_in {A : Type} (m : gmap string value)
    (body : string -> A -> A) (acc : A) : A :=
  map_fold (fun key _ acc => body key acc) acc m.

(** A loop over the keys of [m] that returns [false] at the first failure. *)
Definition keys_all (f : string -> bool) (m : gmap string value) : bool :=
  for_in m (fun key acc => f key && acc) true.

Definition is_wild (key : string) : bool := String.eqb key wildcard.

Definition is_false (v : value) : bool :=
  match v with VBool false => true | _ => false end.

Definition nullish (v : value) : bool :=
  match v with VUndef | VNull => true | _ => false end.

(** ** Deep equality ([objtools.deepEquals]) *)

(** [scalarEquals]: dates by instant, everything else by [===]. *)
Definition scalarEquals (a1 a2 : value) : bool :=
  match a1, a2 with
  | VUndef, VUndef | VNull, VNull => true
  | VBool x, VBool y => Bool.eqb x y
  | VNum x, VNum y => (x =? y)%Z
  | VStr x, VStr y => String.eqb x y
  | VDate x, VDate y => (x =? y)%Z
  | _, _ => false
  end.

(** The second test of the source, [a === b] when one side is [null] or
    [undefined], is [false] here: the other side is then an object.  In the
    last branch nothing checks that both sides are objects: a scalar side
    simply has no property. *)
Fixpoint deepEquals_f (fuel : nat) (a b : value) : bool :=
  match fuel with
  | 0 => false
  | S fuel' =>
      if isScalar a && isScalar b then scalarEquals a b
      else if nullish a || nullish b then false
      else match a, b with
           | VArr la, VArr lb =>
               Nat.eqb (length la) (length lb)
               && forallb (fun xy => deepEquals_f fuel' xy.1 xy.2) (zip la lb)
           | VArr _, _ | _, VArr _ => false
           | _, _ =>
               keys_all (fun key => deepEquals_f fuel' (get key a) (get key b)) (enum_props a)
               && keys_all (fun key => deepEquals_f fuel' (get key a) (get key b)) (enum_props b)
           end
  end.

Definition deepEquals (a b : value) : bool :=
  deepEquals_f (S (height a + height b)) a b.

(** [for (key in m) if (!skip(key)) acc[key] = h(key, acc[key])], where
    [h] sees whether [acc] has the key and may leave it absent. *)
Definition for_keys (m : gmap string value) (skip : string -> bool)
    (h : string -> option value -> option value)
    (acc : gmap string value) : gmap string value :=
  for_in m (fun key r => if skip key then r else partial_alter (h key) key r) acc.

(** ** Union of masks ([addMask], [ObjectMask.addMasks]) *)

(** The last pass of [addMask]: with a wildcard, the keys whose mask
    [deepEquals] the wildcard's are deleted. *)
Definition drop_redundant (r : gmap string value) : gmap string value :=
  match r !! wildcard with
  | Some w => filter (fun kv => negb (is_wild kv.1) && deepEquals kv.2 w = false) r
  | None => r
  end.

(** The two loops of [addMask] over the concrete keys of two nodes; [rec] is
    the recursive call.  A node is read through its enumerable properties and
    written back as an object. *)
Definition add_keys (rec : value -> value -> value)
    (resultMask newMask : value) : gmap string value :=
  let r0 := enum_props resultMask in
  (* keys of the result that the new mask only covers by its wildcard *)
  let r1 :=
    if has_key wildcard newMask then
      map_imap (fun key cur =>
        Some (if negb (is_wild key) && negb (has_key key newMask)
              then rec cur (get wildcard newMask)
              else cur)) r0
    else r0 in
  (* keys of the new mask: merge, or copy over (this loop never assigns the
     wildcard of the result, which is read once) *)
  for_keys (enum_props newMask) is_wild (fun key cur =>
    Some match cur with
         | Some x => rec x (get key newMask)
         | None =>
             match r1 !! wildcard with
             | Some w => rec (deepCopy (get key newMask)) w
             | None => deepCopy (get key newMask)
             end
         end) r1.

(** The wildcard of the new mask is merged into the result's, or copied. *)
Definition add_wildcard (rec : value -> value -> value)
    (newMask : value) (r : gmap string value) : gmap string value :=
  if has_key wildcard newMask then
    <[wildcard := match r !! wildcard with
                  | Some w => rec w (get wildcard newMask)
                  | None => deepCopy (get wildcard newMask)
                  end]> r
  else r.

(** The passes of [addMask] over two nodes. *)
Definition add_node (rec : value -> value -> value)
    (resultMask newMask : value) : gmap string value :=
  drop_redundant (add_wildcard rec newMask (add_keys rec resultMask newMask)).

Fixpoint addMask_f (fuel : nat) (resultMask newMask : value) : value :=
  match fuel with
  | 0 => VUndef
  | S fuel' =>
      if is_true resultMask || is_true newMask then VTrue
      else if isScalar newMask then resultMask
      else if isScalar resultMask then deepCopy newMask
      else VObj (add_node (addMask_f fuel') resultMask newMask)
  end.

Definition addMask (resultMask newMask : value) : value :=
  addMask_f (S (height resultMask + height newMask)) resultMask newMask.

Fixpoint addMasks_from (resultMask : value) (masks : list value) : value :=
  match masks with
  | [] => ObjectMask (or_false resultMask)
  | curArg :: rest =>
      let resultMask := addMask resultMask curArg in
      if is_true resultMask then ObjectMask VTrue
      else addMasks_from resultMask rest
  end.

(** [ObjectMask.addMasks(...masks)]; an operand given as an [ObjectMask]
    stands for its tree. *)
Definition addMasks (masks : list value) : value := addMasks_from VFalse masks.

(** ** Intersection of masks ([andMask], [ObjectMask.andMasks]) *)

(** Without a truthy wildcard, the wildcard and the keys set to [false] go. *)
Definition sanitizeFalsies (obj : gmap string value) : gmap string value :=
  if truthy (default VUndef (obj !! wildcard)) then obj
  else filter (fun kv => is_false kv.2 = false) (delete wildcard obj).

(** The three loops of [andMask] over the concrete keys of two nodes. *)
Definition and_keys (rec : value -> value -> value)
    (resultMask newMask : value) : gmap string value :=
  let r0 := enum_props resultMask in
  (* keys in both masks *)
  let r1 :=
    for_keys (enum_props newMask) is_wild (fun key cur =>
      match cur with
      | Some x => Some (rec x (get key newMask))
      | None => None
      end) r0 in
  (* keys of the result that the new mask lacks *)
  let r2 :=
    map_imap (fun key cur =>
      Some (if negb (is_wild key) && negb (has_key key newMask)
            then if has_key wildcard newMask
                 then rec cur (get wildcard newMask)
                 else VFalse
            else cur)) r1 in
  (* keys of the new mask that the result lacks *)
  for_keys (enum_props newMask) is_wild (fun key cur =>
    match cur with
    | Some x => Some x
    | None =>
        Some match r2 !! wildcard with
             | Some w => rec (deepCopy (get key newMask)) w
             | None => VFalse
             end
    end) r2.

(** The wildcard of the result: kept, and intersected, only when both nodes
    have one. *)
Definition and_wildcard (rec : value -> value -> value)
    (newMask : value) (r : gmap string value) : gmap string value :=
  match r !! wildcard with
  | Some w =>
      if has_key wildcard newMask
      then <[wildcard := rec w (get wildcard newMask)]> r
      else delete wildcard r
  | None => delete wildcard r
  end.

(** The passes of [andMask] over two nodes, before the final collapse. *)
Definition and_node (rec : value -> value -> value)
    (resultMask newMask : value) : gmap string value :=
  sanitizeFalsies (and_wildcard rec newMask (and_keys rec resultMask newMask)).

Fixpoint andMask_f (fuel : nat) (resultMask newMask : value) : value :=
  match fuel with
  | 0 => VUndef
  | S fuel' =>
      if is_true resultMask then deepCopy newMask
      else if is_true newMask then resultMask
      else if isScalar resultMask || isScalar newMask then VFalse
      else
        let r := and_node (andMask_f fuel') resultMask newMask in
        if Nat.eqb (size r) 0 then VFalse else VObj r
  end.

Definition andMask (resultMask newMask : value) : value :=
  andMask_f (S (height resultMask + height newMask)) resultMask newMask.

Fixpoint andMasks_from (resultMask : value) (masks : list value) : value :=
  match masks with
  | [] => ObjectMask (or_false resultMask)
  | curArg :: rest =>
      let resultMask := andMask resultMask curArg in
      if is_false resultMask then ObjectMask VFalse
      else andMasks_from resultMask rest
  end.

(** [ObjectMask.andMasks(...masks)] *)
Definition andMasks (masks : list value) : value := andMasks_from VTrue masks.

(** ** Exceptions *)

(** What a call can throw: [new Error(msg)] raised by the library itself, or
    the [TypeError] of the language when a property is assigned on a
    primitive (the sources are ES modules, hence strict code). *)
Inductive exn :=
| Error (msg : string)
| TypeError.

Inductive outcome (A : Type) :=
| Ok (a : A)
| Throw (e : exn).
Arguments Ok {A} a.
Arguments Throw {A} e.

#[global] Instance outcome_ret : MRet outcome := fun A a => Ok a.

#[global] Instance outcome_bind : MBind outcome := fun A B k x =>
  match x with
  | Ok a => k a
  | Throw e => Throw e
  end.

(** [node[key] = v]: fine on objects, a [TypeError] on a primitive.  A date
    takes the property without any effect the model records; an array is
    written back as the object of its properties. *)
Definition assign (node : value) (key : string) (v : value) : outcome value :=
  match node with
  | VObj m => Ok (VObj (<[key := v]> m))
  | VArr _ => Ok (VObj (<[key := v]> (enum_props node)))
  | VDate _ => Ok node
  | _ => Throw TypeError
  end.

(** ** Subtraction ([subtract], [subtractMask], [ObjectMask.subtractMasks]) *)

(** [_.isEqual] on trees. *)
Fixpoint isEqual_f (fuel : nat) (a b : value) : bool :=
  match fuel with
  | 0 => false
  | S fuel' =>
      match a, b with
      | VArr la, VArr lb =>
          Nat.eqb (length la) (length lb)
          && forallb (fun xy => isEqual_f fuel' xy.1 xy.2) (zip la lb)
      | VObj ma, VObj mb =>
          Nat.eqb (size ma) (size mb)
          && keys_all (fun key => match mb !! key with
                                  | Some y => isEqual_f fuel' (get key a) y
                                  | None => false
                                  end) ma
      | _, _ => isScalar a && isScalar b && scalarEquals a b
      end
  end.

Definition isEqual (a b : value) : bool := isEqual_f (S (height a)) a b.

Definition subtract_msg : string := "Cannot subtract non-boolean scalars".

(** The loops of [subtract(a, b)], which update [a] in place; the model
    returns the updated properties of [a].  In the loop over the keys of [b]
    taken when both sides have a wildcard, the result is stored under the
    wildcard of [a], and the node [a[key]], if it is an object, has been
    updated in place by the call. *)
Definition subtract_node (rec : value -> value -> outcome value)
    (a b : value) : outcome (gmap string value) :=
  let a0 := enum_props a in
  a1 ← (if has_key wildcard b then
          for_in a0 (fun key acc =>
            cur ← acc;
            if negb (has_key key b) || is_wild key then
              v ← rec (default VUndef (cur !! key)) (get wildcard b);
              Ok (<[key := v]> cur)
            else Ok cur) (Ok a0)
        else Ok a0);
  if bool_decide (is_Some (a1 !! wildcard)) && has_key wildcard b then
    for_in (enum_props b) (fun key acc =>
      cur ← acc;
      if is_wild key then Ok cur
      else
        let x := default VUndef (cur !! key) in
        v ← rec x (get key b);
        w ← assign (default VUndef (cur !! wildcard)) key v;
        let cur := if isScalar x || isScalar v then cur else <[key := v]> cur in
        Ok (<[wildcard := w]> cur)) (Ok a1)
  else
    for_in (enum_props b) (fun key acc =>
      cur ← acc;
      v ← rec (default VUndef (cur !! key)) (get key b);
      Ok (<[key := v]> cur)) (Ok a1).

Fixpoint subtract_f (fuel : nat) (a b : value) : outcome value :=
  match fuel with
  | 0 => Ok VUndef
  | S fuel' =>
      if is_true a then Ok (invert b)
      else if is_false a then Ok VFalse
      else if negb (truthy a) then Ok (invert b)
      else if negb (truthy b) then Ok a
      else if is_true b || isEqual a b then Ok VFalse
      else if isScalar a || isScalar b then Throw (Error subtract_msg)
      else
        a' ← subtract_node (subtract_f fuel') a b;
        Ok (VObj (sanitizeFalsies a'))
  end.

Definition subtract (a b : value) : outcome value :=
  subtract_f (S (height a + height b)) a b.

(** [this.subtractMask(mask)]: the new tree of the receiver. *)
Definition subtractMask (this mask : value) : outcome value := subtract this mask.

(** [ObjectMask.subtractMasks(min, sub)] *)
Definition subtractMasks (min sub : value) : outcome value :=
  subtractMask (ObjectMask (deepCopy min)) sub.

(** ** Filtering ([filterDeep], [filterObject], [getMaskedOutFields]) *)

(** [path ? (path + '.' + key) : key] *)
Definition sub_path (path key : string) : string :=
  if String.eqb path "" then key else path ++ "." ++ key.

(** [key in mask ? mask[key] : mask._], then [|| false]. *)
Definition mask_at (mask : value) (key : string) : value :=
  or_false (if has_key key mask then get key mask else get wildcard mask).

(** [if (resultVal !== undefined) resultObj[key] = resultVal], with the hook
    calls of the recursive call [rv] recorded. *)
Definition keep_prop (key : string) (rv : value * list string)
    (acc : gmap string value * list string) : gmap string value * list string :=
  (match rv.1 with
   | VUndef => acc.1
   | resultVal => <[key := resultVal]> acc.1
   end, (rv.2 ++ acc.2)%list).

(** [if (resultVal !== undefined) resultObj.push(resultVal)], on the way
    through an array whose next index is the first component. *)
Definition push_elem (rv : value * list string)
    (acc : nat * list value * list string) : nat * list value * list string :=
  (S acc.1.1,
   match rv.1 with
   | VUndef => acc.1.2
   | resultVal => (acc.1.2 ++ [resultVal])%list
   end, (acc.2 ++ rv.2)%list).

(** [filterDeep] returns the filtered value ([undefined] for a value that is
    masked out) together with the paths handed to [maskedOutHook].  The
    elements kept from an array are pushed, hence re-indexed. *)
Fixpoint filterDeep (obj mask : value) (path : string) : value * list string :=
  if is_true mask then (obj, [])
  else if truthy mask && negb (isScalar mask) then
    match obj with
    | VObj m =>
        let r := map_fold (fun key child acc =>
                   keep_prop key
                     (filterDeep child (mask_at mask key) (sub_path path key)) acc)
                   (∅, []) m in
        (VObj r.1, r.2)
    | VArr l =>
        let r := foldl (fun acc child =>
                   push_elem
                     (filterDeep child (mask_at mask (idx acc.1.1))
                        (sub_path path (idx acc.1.1))) acc)
                   (0, [], []) l in
        (VArr r.1.2, r.2)
    | _ => (VUndef, [path])
    end
  else (VUndef, [path]).

(** [this.filterObject(obj)] *)
Definition filterObject (mask obj : value) : value := (filterDeep obj mask "").1.

(** [this.getMaskedOutFields(obj)] *)
Definition getMaskedOutFields (mask obj : value) : list string :=
  (filterDeep obj mask "").2.

(** [this.checkFields(obj)] *)
Definition checkFields (mask obj : value) : bool :=
  Nat.eqb (length (getMaskedOutFields mask obj)) 0.

(** ** Dotted form ([collapseToDotted], [filterDottedObject]) *)

(** The inner [addObj] of [collapseToDotted], threading [result]. *)
Fixpoint addObj (includeRedundantLevels stopAtArrays : bool)
    (obj : value) (path : string) (result : gmap string value) : gmap string value :=
  match obj with
  | VObj m =>
      let result := if includeRedundantLevels then <[path := obj]> result else result in
      map_fold (fun key child acc =>
        addObj includeRedundantLevels stopAtArrays child (sub_path path key) acc) result m
  | VArr l =>
      if stopAtArrays then <[path := obj]> result
      else
        let result := if includeRedundantLevels then <[path := obj]> result else result in
        (foldl (fun (acc : nat * gmap string value) child =>
           (S acc.1, addObj includeRedundantLevels stopAtArrays child
                       (sub_path path (idx acc.1)) acc.2)) (0, result) l).2
  | _ => <[path := obj]> result
  end.

Definition collapseToDotted_opts (obj : value)
    (includeRedundantLevels stopAtArrays : bool) : gmap string value :=
  if isScalar obj then ∅
  else delete "" (addObj includeRedundantLevels stopAtArrays obj "" ∅).

(** [collapseToDotted(obj)] with both options at their default. *)
Definition collapseToDotted (obj : value) : gmap string value :=
  collapseToDotted_opts obj false false.

(** [filterDottedObject]: the kept entries and the paths handed to the hook. *)
Definition filterDottedObject_hook (mask : value) (dottedObj : gmap string value)
    : gmap string value * list string :=
  for_in dottedObj (fun key (acc : gmap string value * list string) =>
    if negb (checkPath mask key) then (acc.1, key :: acc.2)
    else (<[key := get key (VObj dottedObj)]> acc.1, acc.2)) (∅, []).

Definition filterDottedObject (mask : value) (dottedObj : gmap string value)
    : gmap string value := (filterDottedObject_hook mask dottedObj).1.

Definition getDottedMaskedOutFields (mask : value) (dottedObj : gmap string value)
    : list string := (filterDottedObject_hook mask dottedObj).2.

(** ** Building a mask from a field list *)

(** [objtools.setPath] along the segments that are left. *)
Fixpoint setPath_segs (cur : value) (parts : list string) (v : value) : value :=
  match parts with
  | [] => cur
  | [part] => VObj (<[part := v]> (enum_props cur))
  | part :: rest =>
      let next := if isScalar (get part cur) then VObj ∅ else get part cur in
      VObj (<[part := setPath_segs next rest v]> (enum_props cur))
  end.

Definition setPath (obj : value) (path : string) (v : value) : value :=
  setPath_segs obj (split_dots path) v.

(** [fields.slice(0).sort((a, b) => b.length - a.length)]: a stable sort,
    longest first.  Lengths are counted in characters of the ASCII range. *)
Fixpoint insert_longest_first (a : string) (sorted : list string) : list string :=
  match sorted with
  | [] => [a]
  | b :: rest =>
      if Nat.ltb (String.length a) (String.length b) then b :: insert_longest_first a rest
      else a :: sorted
  end.

Definition sort_longest_first (fields : list string) : list string :=
  foldr insert_longest_first [] fields.

(** [ObjectMask.createMaskFromFieldList(fields)] *)
Definition createMaskFromFieldList (fields : list string) : value :=
  ObjectMask (foldl (fun ret field => setPath ret field VTrue) (VObj ∅)
                (sort_longest_first fields)).

(** ** Removing a field ([removeField]) *)

(** [path.slice(-2)] *)
Fixpoint slice_last2 (path : string) : string :=
  match path with
  | String _ (String _ (String _ _ as rest)) =>
      match path with String _ tail => slice_last2 tail | _ => rest end
  | _ => path
  end.

Definition remove_msg : string := "Attempt to remove wildcard".

(** What the innermost loop assigns under the current key: a chain of
    [{ _: true }] nodes, one per segment left, ending in [false]. *)
Fixpoint wildcard_chain (subpaths : list string) : value :=
  match subpaths with
  | [] => VFalse
  | nextSubpath :: rest =>
      VObj (<[nextSubpath := wildcard_chain rest]> {[ wildcard := VTrue ]})
  end.

(** The [while (submask)] loop, returning the updated node.  [shift()] on an
    exhausted path yields [undefined], which as a property name reads
    ["undefined"]. *)
Fixpoint remove_loop (fuel : nat) (submask : value) (subpaths : list string)
    : outcome value :=
  match fuel with
  | 0 => Ok submask
  | S fuel' =>
      if negb (truthy submask) then Ok submask
      else
        let nextSubpath := default "undefined" (head subpaths) in
        let rest := tail subpaths in
        let nextSubmask := get nextSubpath submask in
        if typeof_object nextSubmask then
          child ← remove_loop fuel' nextSubmask rest;
          assign submask nextSubpath child
        else if truthy (get wildcard submask) && negb (truthy nextSubmask) then
          let copy := deepCopy (get wildcard submask) in
          node ← assign submask nextSubpath copy;
          child ← remove_loop fuel' copy rest;
          assign node nextSubpath child
        else
          assign submask nextSubpath (wildcard_chain rest)
  end.

(** [this.removeField(path)]: the tree of the receiver afterwards. *)
Definition removeField (mask : value) (path : string) : outcome value :=
  if String.eqb path "_" || String.eqb (slice_last2 path) "._" then
    Throw (Error remove_msg)
  else if checkFields mask (setPath (VObj ∅) path VTrue) then
    remove_loop (S (height mask)) mask (split_dots path)
  else Ok mask.

(** ** Notions used in the statements *)

(** The sub-mask a node gives to a key: the key's own, else the wildcard's. *)
Definition resolve (m : gmap string value) (k : string) : value :=
  match m !! k with
  | Some x => x
  | None => match m !! wildcard with Some w => w | None => VUndef end
  end.

(** [checkPath] on the segments of a path. *)
Definition allows (mask : value) (ks : list string) : bool := is_true (walk mask ks).

(** A mask in strict form none of whose maps is empty. *)
Fixpoint proper_mask (v : value) : bool :=
  match v with
  | VBool _ => true
  | VObj m =>
      negb (Nat.eqb (size m) 0)
      && map_fold (fun _ x acc => proper_mask x && acc) true m
  | _ => false
  end.

(** [k] is the decimal name of an array index. *)
Definition is_index (k : string) : bool :=
  match NilEmpty.uint_of_string k with
  | Some d => String.eqb (idx (Nat.of_uint d)) k
  | None => false
  end.

(** A mask none of whose nodes addresses an array position by its index:
    positions are only covered by the wildcard, as in the [[x]] notation. *)
Fixpoint index_free (mask : value) : bool :=
  match mask with
  | VObj m => map_fold (fun key x acc => negb (is_index key) && index_free x && acc) true m
  | VArr _ => false
  | _ => true
  end.

(** A result that is not [undefined]. *)
Definition defined (v : value) : option value :=
  match v with
  | VUndef => None
  | _ => Some v
  end.

(** A tree whose scalars are booleans or [undefined]: what the recursion of
    [subtract] meets on masks in strict form, where a key that the minuend
    lacks reads [undefined]. *)
Fixpoint loose_tree (v : value) : bool :=
  match v with
  | VBool _ | VUndef => true
  | VObj m => map_fold (fun _ x acc => loose_tree x && acc) true m
  | _ => false
  end.

Definition non_boolean_scalar (v : value) : bool :=
  isScalar v && match v with VBool _ => false | _ => true end.

(** In the words of the specification: the two trees have a shared node (the
    roots, or the nodes under the same key of two shared maps) at which one
    side is a non-boolean scalar. *)
Fixpoint shared_non_boolean_scalar (a b : value) : bool :=
  non_boolean_scalar a || non_boolean_scalar b
  || match a with
     | VObj ma =>
         map_fold (fun key x acc =>
           (has_key key b && shared_non_boolean_scalar x (get key b)) || acc) false ma
     | _ => false
     end.

(** An outcome that is a result satisfying [Inv], or the [TypeError]. *)
Definition no_error {A : Type} (Inv : A -> Prop) (o : outcome A) : Prop :=
  match o with
  | Ok a => Inv a
  | Throw e => e = TypeError
  end.

(** The node found by following the segments through explicit keys only. *)
Fixpoint lookup_path (t : value) (ks : list string) : option value :=
  match ks with
  | [] => Some t
  | k :: rest =>
      match t with
      | VObj m => m !! k ≫= fun c => lookup_path c rest
      | _ => None
      end
  end.

(** The path [ks] passes through, or ends on, a leaf [true] of the tree. *)
Definition covered (t : value) (ks : list string) : Prop :=
  exists pre, pre `prefix_of` ks /\ lookup_path t pre = Some VTrue.

(** The length of the dotted path made of the segments [ks]. *)
Fixpoint seglen (ks : list string) : nat :=
  match ks with
  | [] => 0
  | [k] => String.length k
  | k :: rest => String.length k + 1 + seglen rest
  end.

(** The order of the sort of [createMaskFromFieldList]. *)
Definition longer_first (a b : string) : Prop := String.length b <= String.length a.

(** Keys that make dotted paths unambiguous: not empty, without a dot. *)
Fixpoint dot_free (s : string) : bool :=
  match s with
  | EmptyString => true
  | String c s' => negb (Ascii.eqb c dot) && dot_free s'
  end.

Definition plain_key (k : string) : bool := negb (String.eqb k "") && dot_free k.

Fixpoint plain_keys (v : value) : bool :=
  match v with
  | VObj m => map_fold (fun key x acc => plain_key key && plain_keys x && acc) true m
  | VArr l => forallb plain_keys l
  | _ => true
  end.

(** [ks] leads from the root of the value to one of its scalar leaves. *)
Inductive leaf_at : value -> list string -> Prop :=
| leaf_here (v : value) :
    isScalar v = true -> leaf_at v []
| leaf_prop (m : gmap string value) (k : string) (c : value) (ks : list string) :
    m !! k = Some c -> leaf_at c ks -> leaf_at (VObj m) (k :: ks)
| leaf_elem (l : list value) (i : nat) (c : value) (ks : list string) :
    l !! i = Some c -> leaf_at c ks -> leaf_at (VArr l) (idx i :: ks).

(** [ks] leads to a node at which [filterDeep] calls the hook: the highest
    node the mask excludes on the way. *)
Inductive masked_at : value -> value -> list string -> Prop :=
| masked_here (v mask : value) :
    is_true mask = false ->
    truthy mask && negb (isScalar mask) = false \/ isScalar v = true ->
    masked_at v mask []
| masked_prop (m : gmap string value) (mask : value) (k : string) (c : value)
    (ks : list string) :
    is_true mask = false ->
    truthy mask && negb (isScalar mask) = true ->
    m !! k = Some c ->
    masked_at c (mask_at mask k) ks ->
    masked_at (VObj m) mask (k :: ks)
| masked_elem (l : list value) (mask : value) (i : nat) (c : value)
    (ks : list string) :
    is_true mask = false ->
    truthy mask && negb (isScalar mask) = true ->
    l !! i = Some c ->
    masked_at c (mask_at mask (idx i)) ks ->
    masked_at (VArr l) mask (idx i :: ks).

(** The dotted path [p] is [q] or lies below it; the empty path is the root. *)
Definition path_within (q p : string) : Prop :=
  q = "" \/ split_dots q `prefix_of` split_dots p.

(** ** Further methods of [ObjectMask] *)

(** [this.validate()] *)
Definition validate (mask : value) : bool := valWhitelist mask.

(** [this.checkDottedFields(dottedObj)] *)
Definition checkDottedFields (mask : value) (dottedObj : gmap string value) : bool :=
  keys_all (checkPath mask) dottedObj.

(** [this.addField(path)]: the tree of the receiver afterwards.  When the
    path is not allowed yet, [setPath] assigns into the tree: into a
    primitive this is a [TypeError], into a date it has no effect the model
    records. *)
Definition addField (mask : value) (path : string) : outcome value :=
  if checkFields mask (setPath (VObj ∅) path VTrue) then Ok mask
  else match mask with
       | VObj _ | VArr _ => Ok (setPath mask path VTrue)
       | VDate _ => Ok mask
       | _ => Throw TypeError
       end.

(** ** Paths into a value ([getPath], [deletePath]) *)

(** [/^[0-9]+$/.test(s)] *)
Definition all_digits (s : string) : bool :=
  negb (String.eqb s "")
  && forallb (fun c => Nat.leb 48 (nat_of_ascii c) && Nat.leb (nat_of_ascii c) 57)
       (String.list_ascii_of_string s).

(** What the loop of [getPath] reaches from [cur] by [cur = cur[0]] while
    [cur] is an array with exactly one element. *)
Fixpoint skip_arrays (cur : value) : value :=
  match cur with
  | VArr [x] => skip_arrays x
  | _ => cur
  end.

(** The loop of [getPath] over the segments that are left; with
    [allowSkipArrays], a segment that is not a number is looked up past the
    arrays of one element. *)
Fixpoint getPath_segs (allowSkipArrays : bool) (cur : value) (parts : list string)
    : value :=
  match parts with
  | [] => cur
  | part :: rest =>
      let cur := if allowSkipArrays && negb (all_digits part)
                 then skip_arrays cur else cur in
      if isScalar cur then VUndef
      else getPath_segs allowSkipArrays (get part cur) rest
  end.

(** [objtools.getPath(obj, path, allowSkipArrays)], for a path that is a
    string. *)
Definition getPath (obj : value) (path : string) (allowSkipArrays : bool) : value :=
  getPath_segs allowSkipArrays obj (split_dots path).

(** [delete cur[part]].  An array that loses an element is written back as
    the object of the properties it keeps; its [length] cannot be deleted,
    nor can the characters or the [length] of a string. *)
Definition delete_prop (cur : value) (part : string) : outcome value :=
  match cur with
  | VObj m => Ok (VObj (delete part m))
  | VArr _ =>
      if String.eqb part "length" then Throw TypeError
      else if has_key part cur then Ok (VObj (delete part (enum_props cur)))
      else Ok cur
  | VStr _ => if has_key part cur || String.eqb part "length" then Throw TypeError
              else Ok cur
  | VUndef | VNull => Throw TypeError
  | _ => Ok cur
  end.

(** [cur[part] = child], where [cur] has the property already. *)
Definition replace_prop (cur : value) (part : string) (child : value) : value :=
  match cur with
  | VObj m => VObj (<[part := child]> m)
  | VArr l => VArr (imap (fun i x => if String.eqb (idx i) part then child else x) l)
  | _ => cur
  end.

(** The loop of [deletePath] over the segments that are left. *)
Fixpoint deletePath_segs (cur : value) (parts : list string) : outcome value :=
  match parts with
  | [] => Ok cur
  | [part] => delete_prop cur part
  | part :: rest =>
      if nullish cur then Throw TypeError
      else if isScalar (get part cur) then Ok cur
      else
        child ← deletePath_segs (get part cur) rest;
        Ok (replace_prop cur part child)
  end.

(** [objtools.deletePath(obj, path)] *)
Definition deletePath (obj : value) (path : string) : outcome value :=
  deletePath_segs obj (split_dots path).

(** ** Notions used in the further statements *)

(** A value without arrays. *)
Fixpoint array_free (v : value) : bool :=
  match v with
  | VArr _ => false
  | VObj m => map_fold (fun _ x acc => array_free x && acc) true m
  | _ => true
  end.

(** A value that is not [undefined] and holds no [undefined]. *)
Fixpoint no_undefined (v : value) : bool :=
  match v with
  | VUndef => false
  | VArr l => forallb no_undefined l
  | VObj m => map_fold (fun _ x acc => no_undefined x && acc) true m
  | _ => true
  end.

(** Two paths that part: at some position, inside both, their segments
    differ. *)
Fixpoint diverge (ps qs : list string) : bool :=
  match ps, qs with
  | p :: ps', q :: qs' => if String.eqb p q then diverge ps' qs' else true
  | _, _ => false
  end.

(** A tree none of whose maps has the wildcard as a key. *)
Fixpoint wild_free (v : value) : bool :=
  match v with
  | VObj m => map_fold (fun key x acc => negb (is_wild key) && wild_free x && acc) true m
  | VArr l => forallb wild_free l
  | _ => true
  end.

(** ** Matching ([matchDottedObject]) *)

(** [objtools.matchDottedObject(doc, query)] *)
Definition matchDottedObject (doc query : value) : bool :=
  if is_true query then is_true doc
  else if isScalar query || isScalar doc then deepEquals query doc
  else keys_all (fun queryKey => deepEquals (get queryKey doc) (get queryKey query))
         (enum_props query).

(** Data on which [deepEquals] is exact: nothing is [undefined], no object is
    empty, and no object has a key that a string has too (an index, or
    [length]). *)
Fixpoint solid (v : value) : bool :=
  match v with
  | VUndef => false
  | VArr l => forallb solid l
  | VObj m =>
      negb (Nat.eqb (size m) 0)
      && map_fold (fun key x acc =>
           negb (is_index key) && negb (String.eqb key "length") && solid x && acc)
           true m
  | _ => true
  end.

(** ** Duplicates ([getDuplicates]) *)

(** One step of the [reduce] of [getDuplicates], on an array of strings:
    [memo[val]] is [true] once [val] has been met.  The [case true] of the
    [switch] has no [break]: after the duplicate is recorded and [memo[val]]
    set to [false], control falls into the [case undefined], which sets it
    to [true] again.  (An element that names a member of [Object.prototype]
    is outside the model.) *)
Definition getDuplicates_step (memo : gmap string bool * list string) (val : string)
    : gmap string bool * list string :=
  match memo.1 !! val with
  | Some true => (<[val := true]> (<[val := false]> memo.1), (memo.2 ++ [val])%list)
  | None => (<[val := true]> memo.1, memo.2)
  | Some false => memo
  end.

(** [objtools.getDuplicates(arr)] *)
Definition getDuplicates (arr : list string) : list string :=
  (foldl getDuplicates_step (∅, []) arr).2.

(** ** Differences ([dottedDiff]) *)

(** [addDottedDiffFieldsToSet(fieldSet, fieldPath, value1, value2)]; the set
    is an object whose keys are the paths. *)
Fixpoint addDottedDiffFieldsToSet (fieldSet : gmap string value) (fieldPath : string)
    (value1 value2 : value) : gmap string value :=
  let missing (fs : gmap string value) : gmap string value :=
    for_in (enum_props value2) (fun key fs =>
      if has_key key value1 then fs
      else <[sub_path fieldPath key := VTrue]> fs) fs in
  match value1 with
  | VObj m =>
      if isScalar value2 then <[fieldPath := VTrue]> fieldSet
      else missing (map_fold (fun key child fs =>
             if has_key key value2
             then addDottedDiffFieldsToSet fs (sub_path fieldPath key) child
                    (get key value2)
             else <[sub_path fieldPath key := VTrue]> fs) fieldSet m)
  | VArr l =>
      if isScalar value2 then <[fieldPath := VTrue]> fieldSet
      else missing (foldl (fun (acc : nat * gmap string value) child =>
             (S acc.1,
              if has_key (idx acc.1) value2
              then addDottedDiffFieldsToSet acc.2 (sub_path fieldPath (idx acc.1))
                     child (get (idx acc.1) value2)
              else <[sub_path fieldPath (idx acc.1) := VTrue]> acc.2))
             (0, fieldSet) l).2
  | _ => if scalarEquals value1 value2 then fieldSet
         else <[fieldPath := VTrue]> fieldSet
  end.

(** [objtools.dottedDiff(val1, val2)].  Two scalars are compared with [===],
    which holds between two dates only if they are one object: for two dates
    the model takes the dates that show the same instant. *)
Definition dottedDiff (val1 val2 : value) : list string :=
  if isScalar val1 && isScalar val2 then
    if scalarEquals val1 val2 then [] else [""]
  else (map_to_list (addDottedDiffFieldsToSet ∅ "" val1 val2)).*1.

(** ** Synchronising one object to another ([syncObject]) *)

(** The first loop of the object branch of [syncSubObject], over the keys of
    [fromVal]: a key new to [toVal] takes the value of [fromVal]; a key
    [toVal] has is synchronised, and written when the call returns a value.
    [rec] gives the state in which the call leaves the old value and the
    value it returns, [None] standing for [unchangedSymbol]. *)
Definition sync_keys (rec : value -> value -> value * option value)
    (fromProps toProps : gmap string value) : gmap string value :=
  map_fold (fun key fromVal cur =>
    match cur !! key with
    | None => <[key := fromVal]> cur
    | Some toVal =>
        let r := rec toVal fromVal in
        <[key := default r.1 r.2]> cur
    end) toProps fromProps.

(** The second loop, over the keys of [toVal]: those [fromVal] lacks are
    deleted. *)
Definition sync_delete (fromProps toProps : gmap string value) : gmap string value :=
  for_in toProps (fun key cur =>
    match fromProps !! key with
    | Some _ => cur
    | None => delete key cur
    end) toProps.

(** [syncSubObject(toVal, fromVal, parentObj, path)] without the callbacks of
    [options]: the state in which the call leaves [toVal], which it updates in
    place, and the value returned.  Two arrays of the same length are
    synchronised element by element; for two arrays of different lengths the
    elements of the old array are still synchronised in place, and the new
    array returned holds the elements of [fromVal].  An array met with a
    plain object goes through the loops over keys: the model gives the result
    as the map of its enumerable properties. *)
Fixpoint syncSubObject (fuel : nat) (toVal fromVal : value) : value * option value :=
  match fuel with
  | 0 => (toVal, None)
  | S fuel' =>
      if isScalar toVal && isScalar fromVal then
        (toVal, if scalarEquals fromVal toVal then None else Some fromVal)
      else if isScalar toVal || isScalar fromVal then (toVal, Some fromVal)
      else
        match toVal, fromVal with
        | VArr lt, VArr lf =>
            if Nat.eqb (length lt) (length lf) then
              (VArr (zip_with (fun t f => let r := syncSubObject fuel' t f in
                                          default r.1 r.2) lt lf), None)
            else
              (VArr (zip_with (fun t f => (syncSubObject fuel' t f).1) lt lf
                     ++ drop (length lf) lt)%list,
               Some (VArr lf))
        | _, _ =>
            (VObj (sync_delete (enum_props fromVal)
                     (sync_keys (syncSubObject fuel') (enum_props fromVal)
                        (enum_props toVal))), None)
        end
  end.

(** [syncObject(toObj, fromObj)]: the value returned for the root is dropped,
    and [toObj] is returned as the call has left it. *)
Definition syncObject (toObj fromObj : value) : value :=
  (syncSubObject (S (height fromObj)) toObj fromObj).1.

(** Wherever the two trees both have an array or an object, they have the
    same of the two. *)
Fixpoint same_kinds (a b : value) : bool :=
  match a, b with
  | VObj ma, VObj mb =>
      map_fold (fun key x acc =>
        match mb !! key with Some y => same_kinds x y | None => true end && acc) true ma
  | VArr la, VArr lb =>
      (fix go (la lb : list value) : bool :=
         match la, lb with
         | x :: la', y :: lb' => same_kinds x y && go la' lb'
         | _, _ => true
         end) la lb
  | VObj _, VArr _ | VArr _, VObj _ => false
  | _, _ => true
  end.

(** ** Merging ([mergeLight]) *)

(** [isTerminal]: scalars and objects that are neither plain nor arrays; of
    the values of the model, all but arrays and plain objects. *)
Definition isTerminal (v : value) : bool :=
  match v with
  | VArr _ | VObj _ => false
  | _ => true
  end.

(** The array index a property name denotes. *)
Definition key_index (key : string) : option nat :=
  if is_index key then Nat.of_uint <$> NilEmpty.uint_of_string key else None.

(** [arr[i] = v]: past the end the array grows, and the positions skipped
    read [undefined]. *)
Definition set_index (l : list value) (i : nat) (v : value) : list value :=
  if Nat.ltb i (length l) then <[i := v]> l
  else (l ++ replicate (i - length l) VUndef ++ [v])%list.

(** [target[key] = v] on an array or a plain object.  An array given a
    property that is not an index is shown as the map of its enumerable
    properties. *)
Definition assign_prop (target : value) (key : string) (v : value) : value :=
  match target with
  | VObj m => VObj (<[key := v]> m)
  | VArr l =>
      match key_index key with
      | Some i => VArr (set_index l i v)
      | None => VObj (<[key := v]> (enum_props target))
      end
  | _ => target
  end.

(** One round of the loop of [mergeLight], for one source.  [Array(n)] is an
    array of [n] positions that read [undefined]. *)
Fixpoint mergeLight_source (target source : value) {struct source} : value :=
  match source with
  | VObj ms =>
      map_fold (fun key value acc =>
        match value with
        | VUndef => acc
        | _ => assign_prop acc key (mergeLight_source (get key acc) value)
        end) (if isTerminal target then VObj ∅ else target) ms
  | VArr ls =>
      (fix loop (i : nat) (ls : list value) (acc : value) : value :=
         match ls with
         | [] => acc
         | value :: rest =>
             loop (S i) rest
               match value with
               | VUndef => acc
               | _ => assign_prop acc (idx i) (mergeLight_source (get (idx i) acc) value)
               end
         end) 0 ls (if isTerminal target then VArr (replicate (length ls) VUndef) else target)
  | _ => source
  end.

(** [mergeLight(target, ...sources)] *)
Definition mergeLight (target : value) (sources : list value) : value :=
  foldl mergeLight_source target sources.

(** ** The same operations on a store of mutable objects

    The mask algebra updates its accumulator in place.  To state what a call
    leaves untouched, the operations are modelled a second time over a store:
    a value is a primitive or a reference to an object, an object maps
    property names to such values, and every read, write, allocation and
    deletion of the source is a step on the store.  Stores are arbitrary:
    objects may be shared between operands or lie on a cycle.

    - A date is a primitive here: the algebra copies dates with
      [_.cloneDeep] before the one statement that could touch one, the
      assignment under the wildcard in [subtract].
    - [for (key in obj)] visits the keys [obj] has when the loop starts: as
      the static operations run them, the loops of the algebra add no key to
      the object they walk, and delete none but the one being visited.
    - The recursion depth is bounded by [fuel]; a call that exceeds it
      raises, as a call stack that overflows does.
    - A raw tree with a property [_isObjectMask] of its own, which
      [isObjectMask] would take for an instance, is left out. *)

Module Heap.

Local Open Scope list_scope.

Abbreviation loc := nat.

Inductive prim :=
| PUndef
| PNull
| PBool (b : bool)
| PNum (z : Z)
| PStr (s : string)
| PDate (t : Z).

Definition to_value (p : prim) : value :=
  match p with
  | PUndef => VUndef
  | PNull => VNull
  | PBool b => VBool b
  | PNum z => VNum z
  | PStr s => VStr s
  | PDate t => VDate t
  end.

Inductive hval :=
| HPrim (p : prim)
| HRef (l : loc).

(** An object or an array: arrays have a [length] of their own. *)
Record object := Object {
  is_array : bool;
  array_length : nat;
  fields : gmap string hval
}.

Abbreviation heap := (list object).

(** A computation: the store goes in, an outcome and the new store come out. *)
Definition M (A : Type) : Type := heap -> outcome A * heap.

#[global] Instance M_ret : MRet M := fun A a h => (Ok a, h).

#[global] Instance M_bind : MBind M := fun A B k c h =>
  match c h with
  | (Ok a, h') => k a h'
  | (Throw e, h') => (Throw e, h')
  end.

Definition throw {A : Type} (e : exn) : M A := fun h => (Throw e, h).

Definition stack_overflow : exn := Error "Maximum call stack size exceeded".

Definition alloc (o : object) : M loc := fun h => (Ok (length h), h ++ [o]).

Definition read (l : loc) : M object :=
  fun h => (Ok (default (Object false 0 ∅) (h !! l)), h).

(** The array index a property name denotes. *)
Definition index_of (key : string) : option nat :=
  if is_index key then Nat.of_uint <$> NilEmpty.uint_of_string key else None.

Definition set_field (key : string) (v : hval) (o : object) : object :=
  Object (is_array o)
    (match index_of key with
     | Some i => if is_array o then Nat.max (array_length o) (S i) else array_length o
     | None => array_length o
     end)
    (<[key := v]> (fields o)).

Definition delete_field (key : string) (o : object) : object :=
  Object (is_array o) (array_length o) (delete key (fields o)).

(** [obj[key] = v] *)
Definition write (l : loc) (key : string) (v : hval) : M unit :=
  fun h => (Ok tt, alter (set_field key v) l h).

(** [delete obj[key]] *)
Definition remove (l : loc) (key : string) : M unit :=
  fun h => (Ok tt, alter (delete_field key) l h).

(** [obj[key]] *)
Definition getp (l : loc) (key : string) : M hval :=
  o ← read l; mret (default (HPrim PUndef) (fields o !! key)).

(** [key in obj] *)
Definition hasp (l : loc) (key : string) : M bool :=
  o ← read l; mret (bool_decide (is_Some (fields o !! key))).

(** The keys [for (key in obj)] visits, taken when the loop starts. *)
Definition keys (l : loc) : M (list string) :=
  o ← read l; mret (map_to_list (fields o)).*1.

Fixpoint for_each (ks : list string) (body : string -> M unit) : M unit :=
  match ks with
  | [] => mret tt
  | key :: rest => body key;; for_each rest body
  end.

(** A loop that returns [false] at the first test that fails. *)
Fixpoint all_m (ks : list string) (test : string -> M bool) : M bool :=
  match ks with
  | [] => mret true
  | key :: rest => t ← test key; if (t : bool) then all_m rest test else mret false
  end.

Definition when (b : bool) (c : M unit) : M unit := if b then c else mret tt.

Definition is_true_h (v : hval) : bool :=
  match v with HPrim (PBool true) => true | _ => false end.

Definition is_false_h (v : hval) : bool :=
  match v with HPrim (PBool false) => true | _ => false end.

Definition isScalar_h (v : hval) : bool :=
  match v with HPrim _ => true | HRef _ => false end.

Definition truthy_h (v : hval) : bool :=
  match v with HPrim p => truthy (to_value p) | HRef _ => true end.

Definition nullish_h (v : hval) : bool :=
  match v with HPrim p => nullish (to_value p) | HRef _ => false end.

(** [Array.isArray(v)] *)
Definition isArray (v : hval) : M bool :=
  match v with
  | HRef l => o ← read l; mret (is_array o)
  | HPrim _ => mret false
  end.

(** The indices below [n], as property names. *)
Definition indices (n : nat) : list string := idx <$> seq 0 n.

(** [objtools.deepCopy] *)
Fixpoint deepCopy (fuel : nat) (obj : hval) : M hval :=
  match fuel with
  | 0 => throw stack_overflow
  | S fuel' =>
      match obj with
      | HPrim _ => mret obj
      | HRef l =>
          o ← read l;
          if is_array o then
            res ← alloc (Object true (array_length o) ∅);
            for_each (indices (array_length o)) (fun i =>
              x ← getp l i;
              c ← deepCopy fuel' x;
              write res i c);;
            mret (HRef res)
          else
            res ← alloc (Object false 0 ∅);
            ks ← keys l;
            for_each ks (fun key =>
              x ← getp l key;
              c ← deepCopy fuel' x;
              write res key c);;
            mret (HRef res)
      end
  end.

(** [underscorizeArrays(mask)] *)
Fixpoint underscorizeArrays (fuel : nat) (mask : hval) : M hval :=
  match fuel with
  | 0 => throw stack_overflow
  | S fuel' =>
      match mask with
      | HPrim _ => mret mask
      | HRef l =>
          ks ← keys l;
          for_each ks (fun subpath =>
            submask ← getp l subpath;
            arr ← isArray submask;
            if (arr : bool) return M unit then
              match submask with
              | HRef ls =>
                  x ← getp ls (idx 0);
                  u ← underscorizeArrays fuel' x;
                  n ← alloc (Object false 0 {[wildcard := u]});
                  write l subpath (HRef n)
              | HPrim _ => mret tt
              end
            else
              match submask with
              | HRef _ =>
                  u ← underscorizeArrays fuel' submask;
                  write l subpath u
              | HPrim _ => mret tt
              end);;
          mret mask
      end
  end.

(** A mask instance is an object whose property [mask] holds the tree. *)
Definition mask_field : string := "mask".

(** [new ObjectMask(mask)]: the instance holds a deep clone of its argument,
    with the arrays in it rewritten ([_.cloneDeep] is modelled by
    [deepCopy]). *)
Definition new_ObjectMask (fuel : nat) (mask : hval) : M loc :=
  c ← deepCopy fuel mask;
  u ← underscorizeArrays fuel c;
  alloc (Object false 0 {[mask_field := u]}).

(** An operand of a static operation: a raw tree or a mask instance. *)
Inductive arg :=
| Raw (v : hval)
| Instance (this : loc).

(** [isObjectMask(x) ? x.mask : x], also [x.toObject()] on an instance. *)
Definition tree_of (x : arg) : M hval :=
  match x with
  | Raw v => mret v
  | Instance this => getp this mask_field
  end.

(** [this.clone()] *)
Definition clone (fuel : nat) (this : loc) : M loc :=
  m ← getp this mask_field;
  c ← deepCopy fuel m;
  new_ObjectMask fuel c.

(** The property [key] of a value that may be a primitive: a string has its
    characters, the other primitives have nothing. *)
Definition prop (v : hval) (key : string) : M hval :=
  match v with
  | HRef l => getp l key
  | HPrim p => mret (match get key (to_value p) with
                     | VStr c => HPrim (PStr c)
                     | _ => HPrim PUndef
                     end)
  end.

Definition props (v : hval) : M (list string) :=
  match v with
  | HRef l => keys l
  | HPrim p => mret (map_to_list (enum_props (to_value p))).*1
  end.

(** [v.length] of an array. *)
Definition length_of (v : hval) : M nat :=
  match v with
  | HRef l => o ← read l; mret (array_length o)
  | HPrim _ => mret 0
  end.

(** [objtools.deepEquals] *)
Fixpoint deepEquals (fuel : nat) (a b : hval) : M bool :=
  match fuel with
  | 0 => throw stack_overflow
  | S fuel' =>
      match a, b with
      | HPrim x, HPrim y => mret (scalarEquals (to_value x) (to_value y))
      | _, _ =>
          if nullish_h a || nullish_h b then mret false
          else
            aa ← isArray a;
            ba ← isArray b;
            if aa && ba then
              la ← length_of a;
              lb ← length_of b;
              if Nat.eqb la lb then
                all_m (indices la) (fun i =>
                  x ← prop a i; y ← prop b i; deepEquals fuel' x y)
              else mret false
            else if negb aa && negb ba then
              ka ← props a;
              r ← all_m ka (fun key =>
                     x ← prop a key; y ← prop b key; deepEquals fuel' x y);
              if (r : bool) then
                kb ← props b;
                all_m kb (fun key =>
                  x ← prop a key; y ← prop b key; deepEquals fuel' x y)
              else mret false
            else mret false
      end
  end.

(** [addMask(resultMask, newMask)] *)
Fixpoint addMask (fuel : nat) (resultMask newMask : hval) : M hval :=
  match fuel with
  | 0 => throw stack_overflow
  | S fuel' =>
      if is_true_h resultMask || is_true_h newMask then mret (HPrim (PBool true))
      else match newMask, resultMask with
           | HPrim _, _ => mret resultMask
           | HRef _, HPrim _ => deepCopy fuel' newMask
           | HRef ln, HRef lr =>
               nw ← hasp ln wildcard;
               when nw (
                 ks ← keys lr;
                 for_each ks (fun key =>
                   inn ← hasp ln key;
                   when (negb (is_wild key) && negb inn) (
                     x ← getp lr key;
                     w ← getp ln wildcard;
                     v ← addMask fuel' x w;
                     write lr key v)));;
               ks ← keys ln;
               for_each ks (fun key =>
                 when (negb (is_wild key)) (
                   inr ← hasp lr key;
                   if (inr : bool) return M unit then
                     x ← getp lr key;
                     y ← getp ln key;
                     v ← addMask fuel' x y;
                     write lr key v
                   else
                     rw ← hasp lr wildcard;
                     if (rw : bool) return M unit then
                       y ← getp ln key;
                       c ← deepCopy fuel' y;
                       w ← getp lr wildcard;
                       v ← addMask fuel' c w;
                       write lr key v
                     else
                       y ← getp ln key;
                       c ← deepCopy fuel' y;
                       write lr key c));;
               nw ← hasp ln wildcard;
               when nw (
                 rw ← hasp lr wildcard;
                 if (rw : bool) return M unit then
                   x ← getp lr wildcard;
                   y ← getp ln wildcard;
                   v ← addMask fuel' x y;
                   write lr wildcard v
                 else
                   y ← getp ln wildcard;
                   c ← deepCopy fuel' y;
                   write lr wildcard c);;
               rw ← hasp lr wildcard;
               when rw (
                 ks ← keys lr;
                 for_each ks (fun key =>
                   when (negb (is_wild key)) (
                     x ← getp lr key;
                     w ← getp lr wildcard;
                     eq ← deepEquals fuel' x w;
                     when eq (remove lr key))));;
               mret resultMask
           end
  end.

(** [new ObjectMask(resultMask || false)] *)
Definition wrap (fuel : nat) (resultMask : hval) : M loc :=
  new_ObjectMask fuel (if truthy_h resultMask then resultMask else HPrim (PBool false)).

Fixpoint addMasks_from (fuel : nat) (resultMask : hval) (masks : list arg) : M loc :=
  match masks with
  | [] => wrap fuel resultMask
  | curArg :: rest =>
      curArg ← tree_of curArg;
      r ← addMask fuel resultMask curArg;
      if is_true_h r then new_ObjectMask fuel (HPrim (PBool true))
      else addMasks_from fuel r rest
  end.

(** [ObjectMask.addMasks(...masks)] *)
Definition addMasks (fuel : nat) (masks : list arg) : M loc :=
  addMasks_from fuel (HPrim (PBool false)) masks.

(** [sanitizeFalsies(obj)] *)
Definition sanitizeFalsies (l : loc) : M unit :=
  w ← getp l wildcard;
  when (negb (truthy_h w)) (
    remove l wildcard;;
    ks ← keys l;
    for_each ks (fun key =>
      x ← getp l key;
      when (is_false_h x) (remove l key))).

(** [andMask(resultMask, newMask)] *)
Fixpoint andMask (fuel : nat) (resultMask newMask : hval) : M hval :=
  match fuel with
  | 0 => throw stack_overflow
  | S fuel' =>
      if is_true_h resultMask then deepCopy fuel' newMask
      else if is_true_h newMask then mret resultMask
      else match resultMask, newMask with
           | HRef lr, HRef ln =>
               ks ← keys ln;
               for_each ks (fun key =>
                 inr ← hasp lr key;
                 when (negb (is_wild key) && inr) (
                   x ← getp lr key;
                   y ← getp ln key;
                   v ← andMask fuel' x y;
                   write lr key v));;
               ks ← keys lr;
               for_each ks (fun key =>
                 inn ← hasp ln key;
                 when (negb (is_wild key) && negb inn) (
                   nw ← hasp ln wildcard;
                   if (nw : bool) return M unit then
                     x ← getp lr key;
                     w ← getp ln wildcard;
                     v ← andMask fuel' x w;
                     write lr key v
                   else write lr key (HPrim (PBool false))));;
               ks ← keys ln;
               for_each ks (fun key =>
                 inr ← hasp lr key;
                 when (negb (is_wild key) && negb inr) (
                   rw ← hasp lr wildcard;
                   if (rw : bool) return M unit then
                     y ← getp ln key;
                     c ← deepCopy fuel' y;
                     w ← getp lr wildcard;
                     v ← andMask fuel' c w;
                     write lr key v
                   else write lr key (HPrim (PBool false))));;
               nw ← hasp ln wildcard;
               rw ← hasp lr wildcard;
               (if nw && rw return M unit then
                  x ← getp lr wildcard;
                  y ← getp ln wildcard;
                  v ← andMask fuel' x y;
                  write lr wildcard v
                else remove lr wildcard);;
               sanitizeFalsies lr;;
               ks ← keys lr;
               mret (match ks with [] => HPrim (PBool false) | _ => resultMask end)
           | _, _ => mret (HPrim (PBool false))
           end
  end.

Fixpoint andMasks_from (fuel : nat) (resultMask : hval) (masks : list arg) : M loc :=
  match masks with
  | [] => wrap fuel resultMask
  | curArg :: rest =>
      curArg ← tree_of curArg;
      r ← andMask fuel resultMask curArg;
      if is_false_h r then new_ObjectMask fuel (HPrim (PBool false))
      else andMasks_from fuel r rest
  end.

(** [ObjectMask.andMasks(...masks)] *)
Definition andMasks (fuel : nat) (masks : list arg) : M loc :=
  andMasks_from fuel (HPrim (PBool true)) masks.

(** [invert(mask)] *)
Fixpoint invert (fuel : nat) (mask : hval) : M hval :=
  match fuel with
  | 0 => throw stack_overflow
  | S fuel' =>
      match mask with
      | HPrim _ => mret (HPrim (PBool (negb (truthy_h mask))))
      | HRef l =>
          result ← alloc (Object false 0 ∅);
          ks ← keys l;
          for_each ks (fun key =>
            x ← getp l key;
            v ← invert fuel' x;
            write result key v);;
          rw ← hasp result wildcard;
          (if (rw : bool) return M unit then
             w ← getp result wildcard;
             when (negb (truthy_h w)) (remove result wildcard)
           else write result wildcard (HPrim (PBool true)));;
          mret (HRef result)
      end
  end.

(** [ObjectMask.invertMask(mask)] *)
Definition invertMask (fuel : nat) (mask : arg) : M loc :=
  mask ← tree_of mask;
  r ← invert fuel mask;
  new_ObjectMask fuel r.

(** [_.isEqual] on trees. *)
Fixpoint isEqual (fuel : nat) (a b : hval) : M bool :=
  match fuel with
  | 0 => throw stack_overflow
  | S fuel' =>
      match a, b with
      | HPrim x, HPrim y => mret (scalarEquals (to_value x) (to_value y))
      | HRef _, HRef _ =>
          aa ← isArray a;
          ba ← isArray b;
          if aa && ba then
            la ← length_of a;
            lb ← length_of b;
            if Nat.eqb la lb then
              all_m (indices la) (fun i =>
                x ← prop a i; y ← prop b i; isEqual fuel' x y)
            else mret false
          else if negb aa && negb ba then
            ka ← props a;
            kb ← props b;
            if Nat.eqb (length ka) (length kb) then
              all_m ka (fun key =>
                if bool_decide (key ∈ kb) then
                  x ← prop a key; y ← prop b key; isEqual fuel' x y
                else mret false)
            else mret false
          else mret false
      | _, _ => mret false
      end
  end.

(** [node[key] = v], where [node] may be a primitive. *)
Definition assign (node : hval) (key : string) (v : hval) : M unit :=
  match node with
  | HRef l => write l key v
  | HPrim (PDate _) => mret tt
  | HPrim _ => throw TypeError
  end.

(** [subtract(a, b)] *)
Fixpoint subtract (fuel : nat) (a b : hval) : M hval :=
  match fuel with
  | 0 => throw stack_overflow
  | S fuel' =>
      if is_true_h a then invert fuel' b
      else if is_false_h a then mret (HPrim (PBool false))
      else if negb (truthy_h a) then invert fuel' b
      else if negb (truthy_h b) then mret a
      else
        eq ← (if is_true_h b then mret true else isEqual fuel' a b);
        if (eq : bool) then mret (HPrim (PBool false))
        else match a, b with
             | HRef la, HRef lb =>
                 bw ← hasp lb wildcard;
                 when bw (
                   ks ← keys la;
                   for_each ks (fun key =>
                     inb ← hasp lb key;
                     when (negb inb || is_wild key) (
                       x ← getp la key;
                       w ← getp lb wildcard;
                       v ← subtract fuel' x w;
                       write la key v)));;
                 aw ← hasp la wildcard;
                 bw ← hasp lb wildcard;
                 ks ← keys lb;
                 (if aw && bw return M unit then
                    for_each ks (fun key =>
                      when (negb (is_wild key)) (
                        target ← getp la wildcard;
                        x ← getp la key;
                        y ← getp lb key;
                        v ← subtract fuel' x y;
                        assign target key v))
                  else
                    for_each ks (fun key =>
                      x ← getp la key;
                      y ← getp lb key;
                      v ← subtract fuel' x y;
                      write la key v));;
                 sanitizeFalsies la;;
                 mret a
             | _, _ => throw (Error subtract_msg)
             end
  end.

(** [this.subtractMask(mask)] *)
Definition subtractMask (fuel : nat) (this : loc) (mask : arg) : M loc :=
  a ← getp this mask_field;
  b ← tree_of mask;
  r ← subtract fuel a b;
  write this mask_field r;;
  mret this.

(** [ObjectMask.subtractMasks(min, sub)] *)
Definition subtractMasks (fuel : nat) (min sub : arg) : M loc :=
  mask ← match min with
         | Instance this => c ← clone fuel this; getp c mask_field
         | Raw v => deepCopy fuel v
         end;
  this ← new_ObjectMask fuel mask;
  subtractMask fuel this sub.

(** ** What a call leaves untouched *)

(** The locations from [base] on are those allocated since the call began. *)
Definition fresh (base : loc) (v : hval) : Prop :=
  match v with
  | HRef l => (base <= l)%nat
  | HPrim _ => True
  end.

Definition fresh_object (base : loc) (o : object) : Prop :=
  ∀ key v, fields o !! key = Some v → fresh base v.

(** The objects allocated since the call began refer to each other only. *)
Definition closed_above (base : loc) (h : heap) : Prop :=
  (base <= length h)%nat
  ∧ ∀ l o, (base <= l)%nat → h !! l = Some o → fresh_object base o.

(** The objects that existed before the call are as they were. *)
Definition same_below (base : loc) (h h' : heap) : Prop :=
  ∀ l, (l < base)%nat → h' !! l = h !! l.

(** [c] writes to objects allocated since the call began only, keeps them
    closed, and returns values that satisfy [Q]. *)
Definition safe {A : Type} (base : loc) (c : M A) (Q : A → Prop) : Prop :=
  ∀ h, closed_above base h →
    closed_above base (c h).2 ∧ same_below base h (c h).2
    ∧ ∀ a, (c h).1 = Ok a → Q a.

(** [reach h v l]: the object at [l] is part of the tree under [v]. *)
Inductive reach (h : heap) : hval → loc → Prop :=
| reach_here l : reach h (HRef l) l
| reach_step l o key v l' :
    h !! l = Some o → fields o !! key = Some v → reach h v l' →
    reach h (HRef l) l'.

(** After a call that started in [h] and ended in [r]: every object of [h]
    is unchanged, and the instance returned is built from objects that did
    not exist in [h]. *)
Definition built_apart (h : heap) (r : outcome loc * heap) : Prop :=
  (∀ l, (l < length h)%nat → r.2 !! l = h !! l)
  ∧ ∀ this l, r.1 = Ok this → reach r.2 (HRef this) l → (length h <= l)%nat.

(** A store without dangling references, and a value that denotes an
    object of it. *)
Definition closed (h : heap) : Prop :=
  ∀ l o key l', h !! l = Some o → fields o !! key = Some (HRef l') →
    (l' < length h)%nat.

Definition inside (h : heap) (v : hval) : Prop :=
  match v with
  | HRef l => (l < length h)%nat
  | HPrim _ => True
  end.

(** The store with the tree [v] added, and the value that denotes it. *)
Fixpoint store (v : value) : M hval :=
  match v with
  | VUndef => mret (HPrim PUndef)
  | VNull => mret (HPrim PNull)
  | VBool b => mret (HPrim (PBool b))
  | VNum z => mret (HPrim (PNum z))
  | VStr s => mret (HPrim (PStr s))
  | VDate t => mret (HPrim (PDate t))
  | VArr elems =>
      l ← alloc (Object true 0 ∅);
      foldl (fun (rest : M nat) x =>
               i ← rest; c ← store x; write l (idx i) c;; mret (S i))
            (mret 0) elems;;
      mret (HRef l)
  | VObj m =>
      l ← alloc (Object false 0 ∅);
      map_fold (fun key x (rest : M unit) => rest;; c ← store x; write l key c)
               (mret tt) m;;
      mret (HRef l)
  end.

(** The tree under a value of the store. *)
Fixpoint tree (fuel : nat) (h : heap) (v : hval) : value :=
  match v with
  | HPrim p => to_value p
  | HRef l =>
      match fuel with
      | 0 => VUndef
      | S fuel' =>
          let o := default (Object false 0 ∅) (h !! l) in
          if is_array o
          then VArr ((fun i => tree fuel' h (default (HPrim PUndef) (fields o !! i)))
                       <$> indices (array_length o))
          else VObj (tree fuel' h <$> fields o)
      end
  end.

End Heap.

(** * Properties *)

Local Open Scope list_scope.

(** ** Heights and induction on the nesting depth *)

Lemma height_lookup (m : gmap string value) (k : string) (v : value) :
  m !! k = Some v -> height v < height (VObj m).
Proof.
  intros Hk. simpl. apply Nat.lt_succ_r. revert Hk.
  induction m as [|i x m Hi Hfirst IH] using map_first_key_ind.
  - by rewrite lookup_empty.
  - rewrite map_fold_insert_first_key by done.
    rewrite lookup_insert. case_decide as Hik.
    + intros [= ->]. lia.
    + intros Hm. specialize (IH Hm). lia.
Qed.

Lemma height_elem (l : list value) (v : value) :
  v ∈ l -> height v < height (VArr l).
Proof.
  intros Hv. simpl. apply Nat.lt_succ_r.
  induction Hv as [x l|x y l _ IH]; simpl; lia.
Qed.

Lemma value_height_ind (P : value -> Prop) :
  (forall v, (forall w, height w < height v -> P w) -> P v) -> forall v, P v.
Proof.
  intros step v. remember (height v) as n eqn:Hn.
  revert v Hn. induction n as [n IH] using lt_wf_ind.
  intros v ->. apply step. intros w Hw. by apply (IH (height w)).
Qed.

Lemma map_fold_andb (f : value -> bool) (m : gmap string value) :
  map_fold (fun _ x acc => f x && acc) true m = true
  <-> map_Forall (fun _ x => f x = true) m.
Proof.
  induction m as [|i x m Hi Hfirst IH] using map_first_key_ind.
  - rewrite map_fold_empty. split; [intros _; apply map_Forall_empty|done].
  - rewrite map_fold_insert_first_key by done.
    rewrite map_Forall_insert by done.
    rewrite andb_true_iff, IH. done.
Qed.

Lemma mask_tree_obj (m : gmap string value) :
  mask_tree (VObj m) = true <-> map_Forall (fun _ x => mask_tree x = true) m.
Proof. simpl. apply map_fold_andb. Qed.

Lemma mask_tree_lookup (m : gmap string value) (k : string) (v : value) :
  mask_tree (VObj m) = true -> m !! k = Some v -> mask_tree v = true.
Proof. rewrite mask_tree_obj. intros Hm Hk. exact (Hm k v Hk). Qed.

Lemma mask_tree_cases (v : value) :
  mask_tree v = true -> (exists b, v = VBool b) \/ (exists m, v = VObj m).
Proof. destruct v; simpl; try discriminate; eauto. Qed.

(** ** Copies and construction are the identity on trees *)

Lemma deepCopy_id (v : value) : deepCopy v = v.
Proof.
  induction v as [v IH] using value_height_ind.
  destruct v as [| | | | | |l|m]; simpl; try done.
  - f_equal. rewrite <- (list_fmap_id l) at 2.
    apply list_fmap_ext. intros i x Hx. apply IH, height_elem.
    by apply list_elem_of_lookup_2 in Hx.
  - f_equal. apply map_eq. intros k. rewrite lookup_fmap.
    destruct (m !! k) as [x|] eqn:Hk; simpl; [|done].
    f_equal. apply IH. by eapply height_lookup.
Qed.

Lemma underscorizeArrays_id (v : value) :
  mask_tree v = true -> underscorizeArrays v = v.
Proof.
  induction v as [v IH] using value_height_ind. intros Hv.
  destruct v as [| | | | | |l|m]; simpl in *; try done.
  f_equal. apply map_eq. intros k. rewrite lookup_fmap.
  destruct (m !! k) as [x|] eqn:Hk; simpl; [|done]. f_equal.
  assert (Hx : mask_tree x = true) by (by eapply (mask_tree_lookup m)).
  rewrite <- (IH x) at 2; [|by eapply height_lookup|done].
  destruct x; simpl in *; done.
Qed.

Lemma ObjectMask_id (v : value) : mask_tree v = true -> ObjectMask v = v.
Proof. intros Hv. unfold ObjectMask. rewrite deepCopy_id. by apply underscorizeArrays_id. Qed.

Lemma is_true_ObjectMask (v : value) : is_true (ObjectMask v) = is_true v.
Proof. unfold ObjectMask. rewrite deepCopy_id. by destruct v. Qed.

Lemma is_true_or_false (v : value) : is_true (or_false v) = is_true v.
Proof. unfold or_false. destruct v as [| |[|]| | | | |]; simpl; try done; by case_match. Qed.

(** [checkPath] only looks at where the walk over the segments ends. *)
Lemma checkPath_walk (mask : value) (path : string) :
  checkPath mask path = is_true (walk mask (split_dots path)).
Proof.
  unfold checkPath, getSubMask. by rewrite is_true_ObjectMask, is_true_or_false.
Qed.

Lemma walk_scalar (v : value) (ks : list string) :
  isScalar v = true -> walk v ks = v.
Proof. intros Hv. destruct ks; simpl; [done|by rewrite Hv]. Qed.

Lemma walk_obj (m : gmap string value) (k : string) (ks : list string) :
  walk (VObj m) (k :: ks)
  = walk match m !! k with
         | Some x => x
         | None => match m !! wildcard with Some w => w | None => VUndef end
         end ks.
Proof.
  simpl. unfold has_key, get. simpl.
  destruct (m !! k); simpl; [done|].
  destruct (m !! wildcard); done.
Qed.

Lemma is_wild_false (k : string) : is_wild k = false <-> k ≠ wildcard.
Proof. unfold is_wild. by rewrite String.eqb_neq. Qed.

Lemma concrete_segs_cons (k : string) (ks : list string) :
  concrete_segs (k :: ks) = true <-> k ≠ wildcard /\ concrete_segs ks = true.
Proof.
  unfold concrete_segs. simpl. rewrite andb_true_iff, negb_true_iff.
  by rewrite String.eqb_neq.
Qed.

(** ** Inversion and [checkPath] *)

Lemma invert_wildcard_lookup_ne (r : gmap string value) (k : string) :
  k ≠ wildcard -> invert_wildcard r !! k = r !! k.
Proof.
  intros Hk. unfold invert_wildcard.
  destruct (r !! wildcard) as [w|] eqn:Hw.
  - destruct (truthy w); [done|]. by rewrite lookup_delete_ne.
  - by rewrite lookup_insert_ne.
Qed.

Lemma invert_wildcard_lookup (r : gmap string value) :
  invert_wildcard r !! wildcard
  = match r !! wildcard with
    | None => Some VTrue
    | Some w => if truthy w then Some w else None
    end.
Proof.
  unfold invert_wildcard. destruct (r !! wildcard) as [w|] eqn:Hw.
  - destruct (truthy w); [done|]. by rewrite lookup_delete_eq.
  - by rewrite lookup_insert_eq.
Qed.

Lemma invert_mask_tree (v : value) :
  mask_tree v = true -> mask_tree (invert v) = true.
Proof.
  induction v as [v IH] using value_height_ind. intros Hv.
  destruct (mask_tree_cases v Hv) as [[b ->]|[m ->]]; [done|].
  simpl invert. apply mask_tree_obj. intros k x Hk.
  destruct (decide (k = wildcard)) as [->|Hne].
  - rewrite invert_wildcard_lookup, lookup_fmap in Hk.
    destruct (m !! wildcard) as [w|] eqn:Hw; simpl in Hk.
    + destruct (truthy (invert w)); [|done]. injection Hk as <-.
      apply IH; [by eapply height_lookup|by eapply (mask_tree_lookup m)].
    + by injection Hk as <-.
  - rewrite invert_wildcard_lookup_ne, lookup_fmap in Hk by done.
    destruct (m !! k) as [y|] eqn:Hy; simpl in Hk; [|done]. injection Hk as <-.
    apply IH; [by eapply height_lookup|by eapply (mask_tree_lookup m)].
Qed.

Lemma walk_invert (ks : list string) (m : value) :
  mask_tree m = true ->
  concrete_segs ks = true ->
  isScalar (walk m ks) = true ->
  is_true (walk (invert m) ks) = negb (is_true (walk m ks)).
Proof.
  revert m. induction ks as [|k ks IH]; intros m Hm Hks Hleaf.
  - simpl in *. destruct (mask_tree_cases m Hm) as [[b ->]|[mm ->]]; [by destruct b|done].
  - apply concrete_segs_cons in Hks as [Hk Hks].
    destruct (mask_tree_cases m Hm) as [[b ->]|[mm ->]]; [by destruct b|].
    simpl invert. rewrite !walk_obj. rewrite walk_obj in Hleaf.
    rewrite (invert_wildcard_lookup_ne _ k), invert_wildcard_lookup, !lookup_fmap by done.
    destruct (mm !! k) as [x|] eqn:Hx; cbn [fmap option_fmap option_map] in *.
    { apply IH; [by eapply (mask_tree_lookup mm)|done|done]. }
    destruct (mm !! wildcard) as [w|] eqn:Hw; cbn [fmap option_fmap option_map] in *.
    + assert (Hwt : mask_tree w = true) by (by eapply (mask_tree_lookup mm)).
      destruct (truthy (invert w)) eqn:Ht.
      * by apply IH.
      * destruct (mask_tree_cases w Hwt) as [[b ->]|[mw ->]]; [|done].
        destruct b; [|done]. by rewrite !walk_scalar.
    + by rewrite !walk_scalar.
Qed.




(** ** Loops over keys *)

Lemma for_keys_lookup (m : gmap string value) (skip : string -> bool)
    (h : string -> option value -> option value) (acc : gmap string value)
    (k : string) :
  for_keys m skip h acc !! k
  = match m !! k with
    | Some _ => if skip k then acc !! k else h k (acc !! k)
    | None => acc !! k
    end.
Proof.
  unfold for_keys, for_in. revert k.
  apply (map_fold_weak_ind (fun r m => forall k,
    r !! k = match m !! k with
             | Some _ => if skip k then acc !! k else h k (acc !! k)
             | None => acc !! k
             end)).
  - intros k. by rewrite lookup_empty.
  - intros i x m' r Hi IH k.
    destruct (decide (i = k)) as [->|Hne].
    + rewrite lookup_insert_eq. specialize (IH k). rewrite Hi in IH.
      destruct (skip k); [done|]. by rewrite lookup_partial_alter_eq, IH.
    + rewrite lookup_insert_ne by done.
      destruct (skip i); [done|]. by rewrite lookup_partial_alter_ne.
Qed.

Lemma drop_redundant_wildcard (r : gmap string value) :
  drop_redundant r !! wildcard = r !! wildcard.
Proof.
  unfold drop_redundant. destruct (r !! wildcard) as [w|] eqn:Hw; [|done].
  by apply map_lookup_filter_Some.
Qed.

Lemma drop_redundant_lookup (r : gmap string value) (k : string) (x : value) :
  k ≠ wildcard ->
  drop_redundant r !! k = Some x
  <-> r !! k = Some x
      /\ match r !! wildcard with Some w => deepEquals x w = false | None => True end.
Proof.
  intros Hk. unfold drop_redundant.
  destruct (r !! wildcard) as [w|] eqn:Hw; [|tauto].
  rewrite map_lookup_filter_Some. simpl.
  apply is_wild_false in Hk. rewrite Hk. simpl. done.
Qed.

(** ** The [add] scenario and wildcard absorption *)

(** C3: the scenario of the specification evaluates to exactly
    [{str1: true, obj: {_: true}}]; and in general, in the node [addMask]
    returns for two nodes, no concrete key is left whose mask [deepEquals]
    the mask of the wildcard. *)
Theorem addMasks_scenario_absorbs_wildcard :
  addMasks [ VObj {[ "str1" := VTrue;
                     "obj" := VObj {[ "foo" := VTrue; "bar" := VTrue ]} ]};
             VObj {[ "str1" := VTrue;
                     "obj" := VObj {[ wildcard := VTrue; "foo" := VFalse ]} ]} ]
  = VObj {[ "str1" := VTrue; "obj" := VObj {[ wildcard := VTrue ]} ]}
  /\ forall (r n res : gmap string value) (w x : value) (k : string),
       addMask (VObj r) (VObj n) = VObj res ->
       res !! wildcard = Some w ->
       k ≠ wildcard ->
       res !! k = Some x ->
       deepEquals x w = false.
Proof.
  split; [by vm_compute|].
  intros r n res w x k Hres Hw Hk Hx. unfold addMask in Hres.
  cbn [addMask_f is_true isScalar orb] in Hres. injection Hres as <-.
  unfold add_node in Hw, Hx.
  rewrite drop_redundant_wildcard in Hw.
  apply drop_redundant_lookup in Hx as [_ Hx]; [|done].
  by rewrite Hw in Hx.
Qed.

Lemma addMasks_scenario_absorbs_wildcard_witness :
  deepEquals VFalse (VObj {[ "x" := VTrue ]}) = false.
Proof.
  apply (proj2 addMasks_scenario_absorbs_wildcard
           {[ "foo" := VFalse ]} {[ wildcard := VObj {[ "x" := VTrue ]}; "foo" := VFalse ]}
           {[ wildcard := VObj {[ "x" := VTrue ]}; "foo" := VFalse ]}
           (VObj {[ "x" := VTrue ]}) VFalse "foo");
    by vm_compute.
Defined.

(** ** Intersection: [andMask] allows what both operands allow *)

Lemma get_obj (m : gmap string value) (k : string) :
  get k (VObj m) = default VUndef (m !! k).
Proof. unfold get. simpl. destruct (m !! k); [done|]. by destruct (String.eqb k "length"). Qed.

Lemma has_key_obj (m : gmap string value) (k : string) :
  has_key k (VObj m) = match m !! k with Some _ => true | None => false end.
Proof. done. Qed.

Lemma allows_obj (m : gmap string value) (k : string) (ks : list string) :
  allows (VObj m) (k :: ks) = allows (resolve m k) ks.
Proof. unfold allows, resolve. by rewrite walk_obj. Qed.

Lemma allows_scalar (v : value) (ks : list string) :
  isScalar v = true -> allows v ks = is_true v.
Proof. intros Hv. unfold allows. by rewrite walk_scalar. Qed.

Lemma allows_falsy (v : value) (ks : list string) :
  truthy v = false -> allows v ks = false.
Proof. intros Hv. rewrite allows_scalar; by destruct v as [| |[|]| | | | |]. Qed.

Lemma allows_obj_nil (m : gmap string value) : allows (VObj m) [] = false.
Proof. done. Qed.

(** Dropping a falsy wildcard and the keys set to [false] changes no answer. *)
Lemma sanitizeFalsies_allows (m : gmap string value) (k : string) (ks : list string) :
  allows (resolve (sanitizeFalsies m) k) ks = allows (resolve m k) ks.
Proof.
  unfold sanitizeFalsies.
  destruct (truthy (default VUndef (m !! wildcard))) eqn:Hw; [done|].
  unfold resolve.
  rewrite !map_lookup_filter, lookup_delete_eq. simpl.
  destruct (decide (k = wildcard)) as [->|Hk].
  - rewrite lookup_delete_eq. simpl.
    destruct (m !! wildcard) as [w|]; simpl in *; [|done].
    by rewrite !allows_falsy.
  - rewrite lookup_delete_ne by done.
    destruct (m !! k) as [x|] eqn:Hx; simpl.
    + destruct (is_false x) eqn:Hf.
      * rewrite option_guard_False by (simpl; congruence). simpl.
        destruct x as [| |[|]| | | | |]; try done. by rewrite !allows_falsy.
      * rewrite option_guard_True by done. done.
    + destruct (m !! wildcard) as [w|]; simpl in *; [|done].
      by rewrite !allows_falsy.
Qed.

Lemma and_keys_lookup (rec : value -> value -> value) (r n : gmap string value) (k : string) :
  k ≠ wildcard ->
  and_keys rec (VObj r) (VObj n) !! k
  = match r !! k, n !! k with
    | Some x, Some y => Some (rec x y)
    | Some x, None => Some match n !! wildcard with
                           | Some nw => rec x nw
                           | None => VFalse
                           end
    | None, Some y => Some match r !! wildcard with
                           | Some rw => rec y rw
                           | None => VFalse
                           end
    | None, None => None
    end.
Proof.
  intros Hk. apply is_wild_false in Hk. unfold and_keys. cbn [enum_props].
  rewrite for_keys_lookup, !map_lookup_imap, !for_keys_lookup, Hk.
  rewrite !has_key_obj, !get_obj, deepCopy_id. cbn [negb andb].
  change (is_wild wildcard) with true.
  destruct (n !! k) as [y|] eqn:Hy; destruct (r !! k) as [x|] eqn:Hx; simpl; try done;
    destruct (n !! wildcard); destruct (r !! wildcard); done.
Qed.

Lemma and_keys_wildcard (rec : value -> value -> value) (r n : gmap string value) :
  and_keys rec (VObj r) (VObj n) !! wildcard = r !! wildcard.
Proof.
  unfold and_keys. cbn [enum_props].
  rewrite for_keys_lookup, !map_lookup_imap, !for_keys_lookup.
  change (is_wild wildcard) with true. cbn [negb andb].
  destruct (n !! wildcard); destruct (r !! wildcard); done.
Qed.

Lemma and_wildcard_lookup_ne (rec : value -> value -> value) (n : value)
    (r : gmap string value) (k : string) :
  k ≠ wildcard -> and_wildcard rec n r !! k = r !! k.
Proof.
  intros Hk. unfold and_wildcard.
  destruct (r !! wildcard); [destruct (has_key wildcard n)|];
    by rewrite ?lookup_insert_ne, ?lookup_delete_ne.
Qed.

Lemma and_wildcard_lookup (rec : value -> value -> value)
    (n r : gmap string value) :
  and_wildcard rec (VObj n) r !! wildcard
  = match r !! wildcard, n !! wildcard with
    | Some rw, Some nw => Some (rec rw nw)
    | _, _ => None
    end.
Proof.
  unfold and_wildcard. rewrite has_key_obj, get_obj.
  destruct (r !! wildcard); [destruct (n !! wildcard)|];
    by rewrite ?lookup_insert_eq, ?lookup_delete_eq.
Qed.

(** The answers of the node built by [andMask], for a recursive call that
    intersects the answers of the children it is applied to. *)
Lemma and_node_allows (rec : value -> value -> value) (Qr Qn : value -> Prop)
    (r n : gmap string value) (k : string) (ks : list string) :
  k ≠ wildcard ->
  map_Forall (fun _ x => Qr x) r ->
  map_Forall (fun _ y => Qn y) n ->
  (forall x y, Qr x -> Qn y -> allows (rec x y) ks = allows x ks && allows y ks) ->
  (forall x y, Qr x -> Qn y -> allows (rec y x) ks = allows y ks && allows x ks) ->
  allows (resolve (and_node rec (VObj r) (VObj n)) k) ks
  = allows (resolve r k) ks && allows (resolve n k) ks.
Proof.
  intros Hk Hr Hn Hxy Hyx. unfold and_node. rewrite sanitizeFalsies_allows.
  unfold resolve.
  rewrite and_wildcard_lookup_ne, and_wildcard_lookup, and_keys_lookup, and_keys_wildcard by done.
  destruct (r !! k) as [x|] eqn:Hx; destruct (n !! k) as [y|] eqn:Hy.
  - apply Hxy; eauto.
  - destruct (n !! wildcard) as [nw|] eqn:Hnw.
    + apply Hxy; eauto.
    + by rewrite (allows_falsy VUndef), (allows_falsy VFalse), andb_false_r.
  - destruct (r !! wildcard) as [rw|] eqn:Hrw.
    + rewrite Hyx by eauto. apply andb_comm.
    + by rewrite (allows_falsy VUndef), (allows_falsy VFalse).
  - destruct (r !! wildcard) as [rw|] eqn:Hrw; destruct (n !! wildcard) as [nw|] eqn:Hnw.
    + apply Hxy; eauto.
    + by rewrite !(allows_falsy VUndef), andb_false_r.
    + by rewrite !(allows_falsy VUndef).
    + by rewrite !(allows_falsy VUndef).
Qed.

Lemma sanitizeFalsies_lookup (m : gmap string value) (k : string) (v : value) :
  sanitizeFalsies m !! k = Some v -> m !! k = Some v.
Proof.
  unfold sanitizeFalsies. destruct (truthy _); [done|].
  rewrite map_lookup_filter_Some, lookup_delete_Some. tauto.
Qed.

(** Every mask stored in the node built by [andMask] is [false] or a result
    of the recursive call on a child of each operand. *)
Lemma and_node_Forall (rec : value -> value -> value) (Qr Qn P : value -> Prop)
    (r n : gmap string value) :
  map_Forall (fun _ x => Qr x) r ->
  map_Forall (fun _ y => Qn y) n ->
  P VFalse ->
  (forall x y, Qr x -> Qn y -> P (rec x y)) ->
  (forall x y, Qr x -> Qn y -> P (rec y x)) ->
  map_Forall (fun _ v => P v) (and_node rec (VObj r) (VObj n)).
Proof.
  intros Hr Hn Hf Hxy Hyx k v Hv. unfold and_node in Hv.
  apply sanitizeFalsies_lookup in Hv.
  destruct (decide (k = wildcard)) as [->|Hk].
  - rewrite and_wildcard_lookup, and_keys_wildcard in Hv.
    destruct (r !! wildcard) as [rw|] eqn:Hrw; [|done].
    destruct (n !! wildcard) as [nw|] eqn:Hnw; [|done].
    injection Hv as <-. apply Hxy; eauto.
  - rewrite and_wildcard_lookup_ne, and_keys_lookup in Hv by done.
    destruct (r !! k) as [x|] eqn:Hx; destruct (n !! k) as [y|] eqn:Hy;
      [| | |done]; injection Hv as <-.
    + apply Hxy; eauto.
    + destruct (n !! wildcard) as [nw|] eqn:Hnw; [apply Hxy; eauto|done].
    + destruct (r !! wildcard) as [rw|] eqn:Hrw; [apply Hyx; eauto|done].
Qed.

Lemma allows_true (ks : list string) : allows VTrue ks = true.
Proof. by rewrite allows_scalar. Qed.

(** [andMask] on masks in strict form: the result is in strict form and
    allows exactly the concrete paths both operands allow. *)
Lemma andMask_f_spec (fuel : nat) (r n : value) :
  height r + height n < fuel ->
  mask_tree r = true ->
  mask_tree n = true ->
  mask_tree (andMask_f fuel r n) = true
  /\ forall ks, concrete_segs ks = true ->
       allows (andMask_f fuel r n) ks = allows r ks && allows n ks.
Proof.
  revert r n. induction fuel as [|fuel IH]; intros r n Hfuel Hr Hn; [lia|].
  destruct (mask_tree_cases r Hr) as [[[|] ->]|[mr ->]].
  { simpl. rewrite deepCopy_id. split; [done|]. intros ks _. by rewrite allows_true. }
  { assert (andMask_f (S fuel) VFalse n = VFalse) as ->.
    { simpl. by destruct (is_true n). }
    split; [done|]. intros ks _. by rewrite (allows_falsy VFalse). }
  destruct (mask_tree_cases n Hn) as [[[|] ->]|[mn ->]].
  { simpl. split; [done|]. intros ks _. by rewrite allows_true, andb_true_r. }
  { simpl. split; [done|]. intros ks _. by rewrite (allows_falsy VFalse), andb_false_r. }
  cbn [andMask_f is_true isScalar orb].
  set (node := and_node (andMask_f fuel) (VObj mr) (VObj mn)).
  assert (Hkids : forall x y, (mask_tree x = true /\ height x < height (VObj mr)) ->
            (mask_tree y = true /\ height y < height (VObj mn)) ->
            height x + height y < fuel /\ height y + height x < fuel) by (intros; lia).
  assert (Hmr : map_Forall (fun _ x => mask_tree x = true /\ height x < height (VObj mr)) mr).
  { intros j x Hj. split; [by eapply (mask_tree_lookup mr)|by eapply height_lookup]. }
  assert (Hmn : map_Forall (fun _ y => mask_tree y = true /\ height y < height (VObj mn)) mn).
  { intros j y Hj. split; [by eapply (mask_tree_lookup mn)|by eapply height_lookup]. }
  assert (Hnode : map_Forall (fun _ v => mask_tree v = true) node).
  { apply (and_node_Forall _ _ _ _ _ _ Hmr Hmn); [done| |].
    - intros x y Hx Hy. apply IH; [apply (Hkids x y Hx Hy)|apply Hx|apply Hy].
    - intros x y Hx Hy. apply IH; [apply (Hkids x y Hx Hy)|apply Hy|apply Hx]. }
  assert (Hres : forall k ks, concrete_segs (k :: ks) = true ->
            allows (resolve node k) ks = allows (resolve mr k) ks && allows (resolve mn k) ks).
  { intros k ks [Hk Hks]%concrete_segs_cons.
    apply (and_node_allows _ _ _ _ _ _ _ Hk Hmr Hmn).
    - intros x y Hx Hy. apply IH; [apply (Hkids x y Hx Hy)|apply Hx|apply Hy|done].
    - intros x y Hx Hy. apply IH; [apply (Hkids x y Hx Hy)|apply Hy|apply Hx|done]. }
  destruct (Nat.eqb (size node) 0) eqn:Hsize.
  - split; [done|]. intros [|k ks] Hks; [done|].
    rewrite !allows_obj, <- Hres by done.
    apply Nat.eqb_eq, map_size_empty_inv in Hsize. rewrite Hsize.
    by rewrite (allows_falsy VFalse), (allows_falsy (resolve ∅ k)).
  - split; [by apply mask_tree_obj|]. intros [|k ks] Hks; [done|].
    rewrite !allows_obj. by apply Hres.
Qed.

Lemma andMask_false_l (n : value) : andMask VFalse n = VFalse.
Proof. unfold andMask. simpl. by destruct (is_true n). Qed.

Lemma andMask_f_nonempty (fuel : nat) (r n : gmap string value) :
  andMask_f fuel (VObj r) (VObj n) <> VObj ∅.
Proof.
  destruct fuel as [|fuel]; [done|].
  change (andMask_f (S fuel) (VObj r) (VObj n))
    with (if Nat.eqb (size (and_node (andMask_f fuel) (VObj r) (VObj n))) 0
          then VFalse else VObj (and_node (andMask_f fuel) (VObj r) (VObj n))).
  destruct (Nat.eqb (size _) 0) eqn:Hsize; [done|].
  intros [= Hempty]. by rewrite Hempty, map_size_empty in Hsize.
Qed.

Lemma andMask_spec (r n : value) :
  mask_tree r = true ->
  mask_tree n = true ->
  mask_tree (andMask r n) = true
  /\ forall ks, concrete_segs ks = true ->
       allows (andMask r n) ks = allows r ks && allows n ks.
Proof. intros Hr Hn. apply andMask_f_spec; [lia|done|done]. Qed.

Lemma andMasks_pair (m1 m2 : value) :
  mask_tree m1 = true ->
  mask_tree m2 = true ->
  andMasks [m1; m2] = andMask m1 m2.
Proof.
  intros H1 H2. unfold andMasks. cbn [andMasks_from].
  assert (andMask VTrue m1 = m1) as -> by (unfold andMask; simpl; apply deepCopy_id).
  destruct (is_false m1) eqn:Hf1.
  { destruct m1 as [| |[|]| | | | |]; try done. by rewrite andMask_false_l. }
  destruct (andMask_spec m1 m2 H1 H2) as [Ht _].
  destruct (andMask m1 m2) as [| |[|]| | | | |] eqn:Hand; try done.
  cbn [is_false or_false truthy]. apply ObjectMask_id. exact Ht.
Qed.



(** ** Union: [addMask], [deepEquals] and empty maps *)

Lemma proper_mask_obj (m : gmap string value) :
  proper_mask (VObj m) = true
  <-> m ≠ ∅ /\ map_Forall (fun _ x => proper_mask x = true) m.
Proof.
  simpl. rewrite andb_true_iff, negb_true_iff, Nat.eqb_neq, map_fold_andb.
  by rewrite map_size_non_empty_iff.
Qed.

Lemma proper_mask_cases (v : value) :
  proper_mask v = true -> (exists b, v = VBool b) \/ (exists m, v = VObj m).
Proof. destruct v; simpl; try discriminate; eauto. Qed.

Lemma proper_mask_tree (v : value) : proper_mask v = true -> mask_tree v = true.
Proof.
  induction v as [v IH] using value_height_ind. intros Hv.
  destruct (proper_mask_cases v Hv) as [[b ->]|[m ->]]; [done|].
  apply proper_mask_obj in Hv as [_ Hv]. apply mask_tree_obj.
  intros k x Hk. apply IH; [by eapply height_lookup|by eapply Hv].
Qed.

Lemma keys_all_true (f : string -> bool) (m : gmap string value) :
  keys_all f m = true <-> forall k, is_Some (m !! k) -> f k = true.
Proof.
  unfold keys_all, for_in.
  induction m as [|i x m Hi Hfirst IH] using map_first_key_ind.
  - rewrite map_fold_empty. split; [|done]. intros _ k. rewrite lookup_empty. by intros [? ?].
  - rewrite map_fold_insert_first_key by done.
    rewrite andb_true_iff, IH. split.
    + intros [Hfi Hm] k. rewrite lookup_insert. case_decide as Hik; [by subst|]. apply Hm.
    + intros Hall. split.
      * apply Hall. by rewrite lookup_insert_eq.
      * intros k Hk. apply Hall. rewrite lookup_insert_ne; [done|].
        intros ->. rewrite Hi in Hk. by destruct Hk.
Qed.

Lemma get_bool (k : string) (b : bool) : get k (VBool b) = VUndef.
Proof. unfold get. simpl. rewrite lookup_empty. by destruct (String.eqb k "length"). Qed.

(** On proper masks [deepEquals] only accepts equal trees. *)
Lemma deepEquals_f_proper (fuel : nat) (a b : value) :
  proper_mask a = true -> proper_mask b = true ->
  deepEquals_f fuel a b = true -> a = b.
Proof.
  revert a b. induction fuel as [|fuel IH]; intros a b Ha Hb; [done|].
  assert (Hundef : forall x, proper_mask x = true -> deepEquals_f fuel x VUndef = false).
  { intros x Hx. destruct fuel; [done|].
    destruct (proper_mask_cases x Hx) as [[c ->]|[m ->]]; done. }
  assert (Hundef' : forall x, proper_mask x = true -> deepEquals_f fuel VUndef x = false).
  { intros x Hx. destruct fuel; [done|].
    destruct (proper_mask_cases x Hx) as [[c ->]|[m ->]]; done. }
  destruct (proper_mask_cases a Ha) as [[ba ->]|[ma ->]];
    destruct (proper_mask_cases b Hb) as [[bb ->]|[mb ->]]; simpl.
  - intros Heq. f_equal. by destruct ba, bb.
  - rewrite andb_true_iff, !keys_all_true. intros [_ Hkb].
    apply proper_mask_obj in Hb as [Hne Hmb].
    destruct (map_choose mb Hne) as (k & x & Hx).
    specialize (Hkb k (ltac:(by eexists))). rewrite get_bool, get_obj, Hx in Hkb. simpl in Hkb.
    rewrite Hundef' in Hkb; [done|by eapply Hmb].
  - rewrite andb_true_iff, !keys_all_true. intros [Hka _].
    apply proper_mask_obj in Ha as [Hne Hma].
    destruct (map_choose ma Hne) as (k & x & Hx).
    specialize (Hka k (ltac:(by eexists))). rewrite get_bool, get_obj, Hx in Hka. simpl in Hka.
    rewrite Hundef in Hka; [done|by eapply Hma].
  - rewrite andb_true_iff, !keys_all_true. intros [Hka Hkb]. f_equal.
    pose proof Ha as [_ Hma]%proper_mask_obj. pose proof Hb as [_ Hmb]%proper_mask_obj.
    apply map_eq. intros k.
    destruct (ma !! k) as [x|] eqn:Hx; destruct (mb !! k) as [y|] eqn:Hy; [| | |done].
    + specialize (Hka k (ltac:(by eexists))). rewrite !get_obj, Hx, Hy in Hka. simpl in Hka.
      f_equal. apply IH; [by eapply Hma|by eapply Hmb|done].
    + specialize (Hka k (ltac:(by eexists))). rewrite !get_obj, Hx, Hy in Hka. simpl in Hka.
      rewrite Hundef in Hka; [done|by eapply Hma].
    + specialize (Hkb k (ltac:(by eexists))). rewrite !get_obj, Hx, Hy in Hkb. simpl in Hkb.
      rewrite Hundef' in Hkb; [done|by eapply Hmb].
Qed.

Lemma add_keys_lookup (rec : value -> value -> value) (r n : gmap string value) (k : string) :
  k ≠ wildcard ->
  add_keys rec (VObj r) (VObj n) !! k
  = match r !! k, n !! k with
    | Some x, Some y => Some (rec x y)
    | Some x, None => Some match n !! wildcard with
                           | Some nw => rec x nw
                           | None => x
                           end
    | None, Some y => Some match r !! wildcard with
                           | Some rw => rec y rw
                           | None => y
                           end
    | None, None => None
    end.
Proof.
  intros Hk. apply is_wild_false in Hk. unfold add_keys. cbn [enum_props].
  rewrite for_keys_lookup, Hk, !has_key_obj, !get_obj, deepCopy_id.
  destruct (n !! wildcard) as [nw|] eqn:Hnw.
  - rewrite !map_lookup_imap, Hk. change (is_wild wildcard) with true. cbn [negb andb].
    destruct (n !! k) as [y|] eqn:Hy; destruct (r !! k) as [x|] eqn:Hx;
      simpl; rewrite ?has_key_obj, ?Hy; simpl; try done.
    by destruct (r !! wildcard).
  - destruct (n !! k) as [y|] eqn:Hy; destruct (r !! k) as [x|] eqn:Hx; simpl; try done.
Qed.

Lemma add_keys_wildcard (rec : value -> value -> value) (r n : gmap string value) :
  add_keys rec (VObj r) (VObj n) !! wildcard = r !! wildcard.
Proof.
  unfold add_keys. cbn [enum_props].
  rewrite for_keys_lookup. change (is_wild wildcard) with true.
  rewrite has_key_obj.
  destruct (n !! wildcard) as [nw|] eqn:Hnw; [|done].
  rewrite map_lookup_imap. change (is_wild wildcard) with true. cbn [negb andb].
  by destruct (r !! wildcard).
Qed.

Lemma add_wildcard_lookup_ne (rec : value -> value -> value) (n : value)
    (r : gmap string value) (k : string) :
  k ≠ wildcard -> add_wildcard rec n r !! k = r !! k.
Proof.
  intros Hk. unfold add_wildcard.
  destruct (has_key wildcard n); by rewrite ?lookup_insert_ne.
Qed.

Lemma add_wildcard_lookup (rec : value -> value -> value) (n r : gmap string value) :
  add_wildcard rec (VObj n) r !! wildcard
  = match r !! wildcard, n !! wildcard with
    | Some rw, Some nw => Some (rec rw nw)
    | None, Some nw => Some nw
    | o, None => o
    end.
Proof.
  unfold add_wildcard. rewrite has_key_obj, get_obj, deepCopy_id.
  destruct (n !! wildcard) as [nw|]; [rewrite lookup_insert_eq|]; by destruct (r !! wildcard).
Qed.

Lemma allows_undef_r (v : value) (ks : list string) :
  allows v ks || allows VUndef ks = allows v ks.
Proof. by rewrite (allows_falsy VUndef), orb_false_r. Qed.

(** The node before the redundant keys are dropped answers as the union. *)
Lemma add_merge_allows (rec : value -> value -> value) (Qr Qn : value -> Prop)
    (r n : gmap string value) (k : string) (ks : list string) :
  k ≠ wildcard ->
  map_Forall (fun _ x => Qr x) r ->
  map_Forall (fun _ y => Qn y) n ->
  (forall x y, Qr x -> Qn y -> allows (rec x y) ks = allows x ks || allows y ks) ->
  (forall x y, Qr x -> Qn y -> allows (rec y x) ks = allows y ks || allows x ks) ->
  allows (resolve (add_wildcard rec (VObj n) (add_keys rec (VObj r) (VObj n))) k) ks
  = allows (resolve r k) ks || allows (resolve n k) ks.
Proof.
  intros Hk Hr Hn Hxy Hyx. unfold resolve.
  rewrite add_wildcard_lookup_ne, add_wildcard_lookup, add_keys_lookup, add_keys_wildcard by done.
  destruct (r !! k) as [x|] eqn:Hx; destruct (n !! k) as [y|] eqn:Hy.
  - apply Hxy; eauto.
  - destruct (n !! wildcard) as [nw|] eqn:Hnw.
    + apply Hxy; eauto.
    + by rewrite allows_undef_r.
  - destruct (r !! wildcard) as [rw|] eqn:Hrw.
    + rewrite Hyx by eauto. apply orb_comm.
    + by rewrite (allows_falsy VUndef).
  - destruct (r !! wildcard) as [rw|] eqn:Hrw; destruct (n !! wildcard) as [nw|] eqn:Hnw.
    + apply Hxy; eauto.
    + by rewrite allows_undef_r.
    + by rewrite (allows_falsy VUndef).
    + by rewrite (allows_falsy VUndef).
Qed.

Lemma add_merge_Forall (rec : value -> value -> value) (Qr Qn P : value -> Prop)
    (r n : gmap string value) :
  map_Forall (fun _ x => Qr x) r ->
  map_Forall (fun _ y => Qn y) n ->
  (forall x, Qr x -> P x) ->
  (forall y, Qn y -> P y) ->
  (forall x y, Qr x -> Qn y -> P (rec x y)) ->
  (forall x y, Qr x -> Qn y -> P (rec y x)) ->
  map_Forall (fun _ v => P v) (add_wildcard rec (VObj n) (add_keys rec (VObj r) (VObj n))).
Proof.
  intros Hr Hn HPr HPn Hxy Hyx k v Hv.
  destruct (decide (k = wildcard)) as [->|Hk].
  - rewrite add_wildcard_lookup, add_keys_wildcard in Hv.
    destruct (r !! wildcard) as [rw|] eqn:Hrw; destruct (n !! wildcard) as [nw|] eqn:Hnw;
      [| | |done]; injection Hv as <-; eauto.
  - rewrite add_wildcard_lookup_ne, add_keys_lookup in Hv by done.
    destruct (r !! k) as [x|] eqn:Hx; destruct (n !! k) as [y|] eqn:Hy;
      [| | |done]; injection Hv as <-.
    + eauto.
    + destruct (n !! wildcard) as [nw|] eqn:Hnw; eauto.
    + destruct (r !! wildcard) as [rw|] eqn:Hrw; eauto.
Qed.

Lemma add_merge_nonempty (rec : value -> value -> value) (r n : gmap string value) :
  r ≠ ∅ -> add_wildcard rec (VObj n) (add_keys rec (VObj r) (VObj n)) ≠ ∅.
Proof.
  intros Hr Hempty. destruct (map_choose r Hr) as (k & x & Hx).
  assert (Hk : add_wildcard rec (VObj n) (add_keys rec (VObj r) (VObj n)) !! k = None)
    by (by rewrite Hempty, lookup_empty).
  destruct (decide (k = wildcard)) as [->|Hne].
  - rewrite add_wildcard_lookup, add_keys_wildcard, Hx in Hk. by destruct (n !! wildcard).
  - rewrite add_wildcard_lookup_ne, add_keys_lookup, Hx in Hk by done. by destruct (n !! k).
Qed.

(** On a node whose masks are proper, dropping the keys that repeat the
    wildcard changes no answer. *)
Lemma drop_redundant_allows (m : gmap string value) (k : string) (ks : list string) :
  map_Forall (fun _ v => proper_mask v = true) m ->
  allows (resolve (drop_redundant m) k) ks = allows (resolve m k) ks.
Proof.
  intros Hm. unfold resolve. rewrite drop_redundant_wildcard.
  destruct (decide (k = wildcard)) as [->|Hk]; [by rewrite drop_redundant_wildcard|].
  destruct (m !! k) as [x|] eqn:Hx.
  - destruct (m !! wildcard) as [w|] eqn:Hw.
    + destruct (deepEquals x w) eqn:Heq.
      * assert (drop_redundant m !! k = None) as ->.
        { destruct (drop_redundant m !! k) as [x'|] eqn:Hx'; [|done].
          apply drop_redundant_lookup in Hx' as [Hx1 Hx2]; [|done].
          rewrite Hw in Hx2. congruence. }
        f_equal. symmetry. eapply deepEquals_f_proper; [by eapply Hm|by eapply Hm|exact Heq].
      * assert (drop_redundant m !! k = Some x) as ->; [|done].
        apply drop_redundant_lookup; [done|]. by rewrite Hw.
    + assert (drop_redundant m !! k = Some x) as ->; [|done].
      apply drop_redundant_lookup; [done|]. by rewrite Hw.
  - assert (drop_redundant m !! k = None) as ->; [|done].
    destruct (drop_redundant m !! k) as [x'|] eqn:Hx'; [|done].
    apply drop_redundant_lookup in Hx' as [Hx1 _]; [|done]. congruence.
Qed.

Lemma drop_redundant_subset (m : gmap string value) (k : string) (v : value) :
  drop_redundant m !! k = Some v -> m !! k = Some v.
Proof.
  destruct (decide (k = wildcard)) as [->|Hk].
  - by rewrite drop_redundant_wildcard.
  - rewrite drop_redundant_lookup by done. tauto.
Qed.

Lemma drop_redundant_nonempty (m : gmap string value) : m ≠ ∅ -> drop_redundant m ≠ ∅.
Proof.
  intros Hm Hempty. destruct (m !! wildcard) as [w|] eqn:Hw.
  - rewrite <- drop_redundant_wildcard, Hempty, lookup_empty in Hw. done.
  - unfold drop_redundant in Hempty. by rewrite Hw in Hempty.
Qed.

Lemma addMask_f_spec (fuel : nat) (r n : value) :
  height r + height n < fuel ->
  proper_mask r = true ->
  proper_mask n = true ->
  proper_mask (addMask_f fuel r n) = true
  /\ forall ks, concrete_segs ks = true ->
       allows (addMask_f fuel r n) ks = allows r ks || allows n ks.
Proof.
  revert r n. induction fuel as [|fuel IH]; intros r n Hfuel Hr Hn; [lia|].
  destruct (proper_mask_cases r Hr) as [[[|] ->]|[mr ->]].
  { simpl. split; [done|]. intros ks _. by rewrite allows_true. }
  { destruct (proper_mask_cases n Hn) as [[[|] ->]|[mn ->]];
      cbn [addMask_f is_true isScalar orb].
    - split; [done|]. intros ks _. by rewrite allows_true, orb_true_r.
    - split; [done|]. intros ks _. by rewrite (allows_falsy VFalse).
    - rewrite deepCopy_id.
      split; [done|]. intros ks _. by rewrite (allows_falsy VFalse). }
  destruct (proper_mask_cases n Hn) as [[[|] ->]|[mn ->]].
  { cbn [addMask_f is_true isScalar orb]. split; [done|].
    intros ks _. by rewrite allows_true, orb_true_r. }
  { cbn [addMask_f is_true isScalar orb]. split; [done|]. intros ks _.
    by rewrite (allows_falsy VFalse), orb_false_r. }
  cbn [addMask_f is_true isScalar orb].
  set (merged := add_wildcard (addMask_f fuel) (VObj mn)
                   (add_keys (addMask_f fuel) (VObj mr) (VObj mn))).
  assert (Hkids : forall x y, (proper_mask x = true /\ height x < height (VObj mr)) ->
            (proper_mask y = true /\ height y < height (VObj mn)) ->
            height x + height y < fuel /\ height y + height x < fuel) by (intros; lia).
  pose proof Hr as [Hne Hr']%proper_mask_obj. pose proof Hn as [_ Hn']%proper_mask_obj.
  assert (Hmr : map_Forall (fun _ x => proper_mask x = true /\ height x < height (VObj mr)) mr).
  { intros j x Hj. split; [by eapply Hr'|by eapply height_lookup]. }
  assert (Hmn : map_Forall (fun _ y => proper_mask y = true /\ height y < height (VObj mn)) mn).
  { intros j y Hj. split; [by eapply Hn'|by eapply height_lookup]. }
  assert (Hmerged : map_Forall (fun _ v => proper_mask v = true) merged).
  { apply (add_merge_Forall _ _ _ _ _ _ Hmr Hmn); [by intros ? [? _]|by intros ? [? _]| |].
    - intros x y Hx Hy. apply IH; [apply (Hkids x y Hx Hy)|apply Hx|apply Hy].
    - intros x y Hx Hy. apply IH; [apply (Hkids x y Hx Hy)|apply Hy|apply Hx]. }
  split.
  - apply proper_mask_obj. split.
    + by apply drop_redundant_nonempty, add_merge_nonempty.
    + intros j v Hj. apply drop_redundant_subset in Hj. by eapply Hmerged.
  - intros [|k ks] Hks; [done|]. apply concrete_segs_cons in Hks as [Hk Hks].
    rewrite !allows_obj. unfold add_node. fold merged.
    rewrite drop_redundant_allows by done.
    apply (add_merge_allows _ _ _ _ _ _ _ Hk Hmr Hmn).
    + intros x y Hx Hy. apply IH; [apply (Hkids x y Hx Hy)|apply Hx|apply Hy|done].
    + intros x y Hx Hy. apply IH; [apply (Hkids x y Hx Hy)|apply Hy|apply Hx|done].
Qed.

Lemma addMask_spec (r n : value) :
  proper_mask r = true ->
  proper_mask n = true ->
  proper_mask (addMask r n) = true
  /\ forall ks, concrete_segs ks = true ->
       allows (addMask r n) ks = allows r ks || allows n ks.
Proof. intros Hr Hn. apply addMask_f_spec; [lia|done|done]. Qed.

Lemma addMask_false_l (m : value) : proper_mask m = true -> addMask VFalse m = m.
Proof.
  intros Hm. unfold addMask.
  destruct (proper_mask_cases m Hm) as [[[|] ->]|[mm ->]]; try done.
  cbn [addMask_f is_true isScalar orb]. by rewrite deepCopy_id.
Qed.

Lemma addMasks_pair (m1 m2 : value) :
  proper_mask m1 = true ->
  proper_mask m2 = true ->
  addMasks [m1; m2] = addMask m1 m2.
Proof.
  intros H1 H2. unfold addMasks. cbn [addMasks_from].
  rewrite addMask_false_l by done.
  destruct (is_true m1) eqn:Ht1.
  { destruct m1 as [| |[|]| | | | |]; try done. }
  destruct (addMask_spec m1 m2 H1 H2) as [Ht _].
  destruct (addMask m1 m2) as [| |[|]| | | | |] eqn:Hadd; try done.
  cbn [is_true or_false truthy]. apply ObjectMask_id, proper_mask_tree, Ht.
Qed.

(** Away from empty maps the union is exact: for proper masks and a concrete
    path, the sum allows the path exactly when one of the masks does. *)
Lemma addMasks_union_proper (m1 m2 : value) (p : string) :
  proper_mask m1 = true ->
  proper_mask m2 = true ->
  concrete p = true ->
  checkPath (addMasks [m1; m2]) p = checkPath m1 p || checkPath m2 p.
Proof.
  intros H1 H2 Hp. rewrite addMasks_pair by done.
  destruct (addMask_spec m1 m2 H1 H2) as [_ Hadd].
  rewrite !checkPath_walk. by apply Hadd.
Qed.

(** C1 fails on the code: [deepEquals] takes an empty map for equal to
    [true], so [addMask] drops the key [k] of [{_: true, k: {}}] as a
    repetition of the wildcard.  Both operands pass [validate], neither
    allows the path ["k"], and their sum allows it. *)
Theorem addMasks_union_fails_on_empty_map :
  let m1 := VObj ∅ in
  let m2 := VObj {[ wildcard := VTrue; "k" := VObj ∅ ]} in
  valWhitelist m1 = true /\ valWhitelist m2 = true
  /\ mask_tree m1 = true /\ mask_tree m2 = true
  /\ concrete "k" = true
  /\ deepEquals (VObj ∅) VTrue = true
  /\ checkPath m1 "k" = false
  /\ checkPath m2 "k" = false
  /\ checkPath (addMasks [m1; m2]) "k" = true.
Proof. vm_compute. repeat split; reflexivity. Qed.

(** ** Filtering twice *)

Lemma map_fold_andb_key (f : string -> value -> bool) (m : gmap string value) :
  map_fold (fun k x acc => f k x && acc) true m = true
  <-> map_Forall (fun k x => f k x = true) m.
Proof.
  induction m as [|i x m Hi Hfirst IH] using map_first_key_ind.
  - rewrite map_fold_empty. split; [intros _; apply map_Forall_empty|done].
  - rewrite map_fold_insert_first_key by done.
    rewrite map_Forall_insert by done.
    by rewrite andb_true_iff, IH.
Qed.

Lemma is_index_idx (i : nat) : is_index (idx i) = true.
Proof.
  unfold is_index, idx.
  by rewrite NilEmpty.usu, DecimalNat.Unsigned.of_to, String.eqb_refl.
Qed.

Lemma index_free_obj (m : gmap string value) :
  index_free (VObj m) = true
  <-> map_Forall (fun k x => is_index k = false /\ index_free x = true) m.
Proof.
  simpl. rewrite (map_fold_andb_key (fun k x => negb (is_index k) && index_free x)).
  split; intros Hm k x Hk; specialize (Hm k x Hk); simpl in *.
  - by apply andb_true_iff in Hm as [?%negb_true_iff ?].
  - apply andb_true_iff. by rewrite negb_true_iff.
Qed.

Lemma index_free_or_false (v : value) : index_free v = true -> index_free (or_false v) = true.
Proof. unfold or_false. by destruct (truthy v). Qed.

Lemma index_free_mask_at (m : gmap string value) (k : string) :
  index_free (VObj m) = true -> index_free (mask_at (VObj m) k) = true.
Proof.
  intros Hm%index_free_obj. unfold mask_at. apply index_free_or_false.
  rewrite has_key_obj, !get_obj.
  destruct (m !! k) as [x|] eqn:Hx; simpl; [by eapply Hm|].
  destruct (m !! wildcard) as [w|] eqn:Hw; simpl; [by eapply Hm|done].
Qed.

(** Without index keys every array position gets the wildcard's mask. *)
Lemma mask_at_idx (m : gmap string value) (i : nat) :
  index_free (VObj m) = true -> mask_at (VObj m) (idx i) = mask_at (VObj m) wildcard.
Proof.
  intros Hm%index_free_obj. unfold mask_at. rewrite !has_key_obj.
  destruct (m !! idx i) as [x|] eqn:Hx.
  - destruct (Hm _ _ Hx) as [Hi _]. by rewrite is_index_idx in Hi.
  - by destruct (m !! wildcard).
Qed.

(** The object built by the loop of [filterDeep] over the keys of a map. *)
Lemma filter_props_lookup (F : string -> value -> value * list string)
    (m : gmap string value) (k : string) :
  (map_fold (fun key child acc => keep_prop key (F key child) acc) (∅, []) m).1 !! k
  = m !! k ≫= fun child => defined (F k child).1.
Proof.
  revert k.
  apply (map_fold_weak_ind (fun (r : gmap string value * list string) m =>
    forall k, r.1 !! k = m !! k ≫= fun child => defined (F k child).1)).
  - intros k. by rewrite !lookup_empty.
  - intros i x m' r Hi IH k. unfold keep_prop. cbn [fst].
    destruct (decide (i = k)) as [->|Hne].
    + rewrite lookup_insert_eq. cbn [mbind option_bind].
      destruct ((F k x).1) eqn:HF; cbn [defined]; rewrite ?lookup_insert_eq; try done.
      by rewrite IH, Hi.
    + rewrite (lookup_insert_ne m') by done.
      destruct ((F i x).1); rewrite ?lookup_insert_ne by done; apply IH.
Qed.

(** The state of the loop of [filterDeep] over the elements of an array. *)
Lemma filter_elems_foldl (F : nat -> value -> value * list string)
    (l : list value) (i0 : nat) (vs : list value) (log : list string) :
  foldl (fun acc child => push_elem (F acc.1.1 child) acc) (i0, vs, log) l
  = (i0 + length l,
     (vs ++ omap (fun rv => defined rv.1) (imap (fun j c => F (i0 + j) c) l))%list,
     (log ++ concat (imap (fun j c => (F (i0 + j) c).2) l))%list).
Proof.
  revert i0 vs log. induction l as [|c l IH]; intros i0 vs log.
  - simpl. by rewrite Nat.add_0_r, !app_nil_r.
  - cbn [foldl]. unfold push_elem at 2. cbn [fst snd]. rewrite IH.
    cbn [imap omap concat length]. rewrite Nat.add_0_r.
    assert (imap (fun j c => F (S i0 + j) c) l
            = imap ((fun j c => F (i0 + j) c) ∘ S) l) as ->.
    { apply imap_ext. intros j x _. cbn. f_equal. lia. }
    assert (imap (fun j c => (F (S i0 + j) c).2) l
            = imap ((fun j c => (F (i0 + j) c).2) ∘ S) l) as ->.
    { apply imap_ext. intros j x _. cbn. do 2 f_equal. lia. }
    f_equal; [f_equal; [lia|]|by rewrite <- app_assoc].
    destruct ((F i0 c).1) eqn:HF; simpl; rewrite ?HF; simpl; by rewrite <- ?app_assoc.
Qed.

Lemma filterDeep_true (obj mask : value) (p : string) :
  is_true mask = true -> filterDeep obj mask p = (obj, []).
Proof. intros H. destruct obj; simpl; by rewrite H. Qed.

Lemma filterDeep_out (obj mask : value) (p : string) :
  is_true mask = false ->
  truthy mask && negb (isScalar mask) = false \/ isScalar obj = true ->
  filterDeep obj mask p = (VUndef, [p]).
Proof.
  intros H1 [H2|H2]; destruct obj; simpl in *; rewrite H1; try done;
    by destruct (truthy mask && negb (isScalar mask)).
Qed.

Lemma filterDeep_obj (m : gmap string value) (mask : value) (p : string) :
  is_true mask = false ->
  truthy mask && negb (isScalar mask) = true ->
  filterDeep (VObj m) mask p
  = ((fun r : gmap string value * list string => (VObj r.1, r.2))
       (map_fold (fun key child acc =>
          keep_prop key (filterDeep child (mask_at mask key) (sub_path p key)) acc)
          (∅, []) m)).
Proof. intros H1 H2. simpl. by rewrite H1, H2. Qed.

Lemma filterDeep_arr (l : list value) (mask : value) (p : string) :
  is_true mask = false ->
  truthy mask && negb (isScalar mask) = true ->
  filterDeep (VArr l) mask p
  = ((fun r : nat * list value * list string => (VArr r.1.2, r.2))
       (foldl (fun acc child =>
          push_elem (filterDeep child (mask_at mask (idx acc.1.1))
                       (sub_path p (idx acc.1.1))) acc)
          (0, [], []) l)).
Proof. intros H1 H2. simpl. by rewrite H1, H2. Qed.

Lemma omap_defined_fixed (G : nat -> value -> value * list string) (l : list value) :
  (forall j v, l !! j = Some v -> defined (G j v).1 = Some v) ->
  omap (fun rv => defined rv.1) (imap G l) = l.
Proof.
  revert G. induction l as [|v l IH]; intros G HG; [done|].
  simpl. rewrite (HG 0 v eq_refl). f_equal.
  apply IH. intros j w Hj. apply (HG (S j) w Hj).
Qed.

Lemma filterDeep_idem (obj : value) :
  forall (mask : value) (p p' : string),
    index_free mask = true ->
    (filterDeep (filterDeep obj mask p).1 mask p').1 = (filterDeep obj mask p).1.
Proof.
  induction obj as [obj IH] using value_height_ind. intros mask p p' Hfree.
  destruct (is_true mask) eqn:Ht; [by rewrite !filterDeep_true|].
  destruct (truthy mask && negb (isScalar mask)) eqn:Hm.
  2:{ rewrite (filterDeep_out obj) by auto. by rewrite filterDeep_out by auto. }
  destruct mask as [| | | | | |ml|mm];
    try (simpl in Hm; rewrite ?andb_false_r in Hm; done).
  destruct obj as [| | | | | |l|m];
    try (rewrite (filterDeep_out _ (VObj mm)) by auto; by rewrite filterDeep_out by auto).
  - rewrite (filterDeep_arr l) by done. cbn beta.
    rewrite (filter_elems_foldl (fun j c =>
      filterDeep c (mask_at (VObj mm) (idx j)) (sub_path p (idx j)))).
    cbn [fst snd app]. rewrite filterDeep_arr by done. cbn beta.
    rewrite (filter_elems_foldl (fun j c =>
      filterDeep c (mask_at (VObj mm) (idx j)) (sub_path p' (idx j)))).
    cbn [fst snd app]. f_equal. apply omap_defined_fixed.
    intros j v Hv. cbn [Nat.add].
    apply list_elem_of_lookup_2, list_elem_of_omap in Hv as (rv & Hrv & Hdef).
    apply elem_of_lookup_imap in Hrv as (i & c & -> & Hc). cbn [Nat.add] in Hdef.
    rewrite mask_at_idx in * by done.
    assert (Hv : v = (filterDeep c (mask_at (VObj mm) wildcard) (sub_path p (idx i))).1).
    { by destruct (filterDeep c _ _).1; simpl in Hdef; simplify_eq. }
    rewrite Hv at 1. rewrite IH.
    + exact Hdef.
    + apply height_elem. by eapply list_elem_of_lookup_2.
    + by apply index_free_mask_at.
  - rewrite (filterDeep_obj m) by done. cbn beta. cbn [fst snd].
    rewrite filterDeep_obj by done. cbn [fst snd]. f_equal.
    apply map_eq. intros k.
    rewrite (filter_props_lookup (fun key child =>
      filterDeep child (mask_at (VObj mm) key) (sub_path p' key))).
    rewrite (filter_props_lookup (fun key child =>
      filterDeep child (mask_at (VObj mm) key) (sub_path p key))).
    destruct (m !! k) as [c|] eqn:Hc; cbn [mbind option_bind]; [|done].
    destruct (defined (filterDeep c (mask_at (VObj mm) k) (sub_path p k)).1) as [v|] eqn:Hdef;
      cbn [mbind option_bind]; [|done].
    assert (Hv : v = (filterDeep c (mask_at (VObj mm) k) (sub_path p k)).1).
    { by destruct (filterDeep c _ _).1; simpl in Hdef; simplify_eq. }
    rewrite Hv at 1. rewrite IH.
    + exact Hdef.
    + by eapply height_lookup.
    + by apply index_free_mask_at.
Qed.

(** C5, as stated, fails: filtering re-indexes the elements it keeps, so a
    mask that addresses array positions by index is applied to other
    elements the second time.  Here the mask is [{0: false, _: true}] and
    the value is [[1, 2, 3]]. *)
Lemma filterObject_idempotence_counterexample :
  let m := VObj {[ "0" := VFalse; wildcard := VTrue ]} in
  let v := VArr [VNum 1; VNum 2; VNum 3] in
  filterObject m v = VArr [VNum 2; VNum 3]
  /\ filterObject m (filterObject m v) = VArr [VNum 3]
  /\ filterObject m (filterObject m v) <> filterObject m v.
Proof. vm_compute. repeat split; discriminate. Qed.

(** C5, amended: [filterObject] is idempotent for every value, arrays
    included, and every mask none of whose nodes addresses an array position
    by its index (array positions being covered by the wildcard only). *)
Theorem filterObject_idempotent (m v : value) :
  index_free m = true ->
  filterObject m (filterObject m v) = filterObject m v.
Proof. intros Hm. unfold filterObject. by apply filterDeep_idem. Qed.

Lemma filterObject_idempotent_witness :
  let m := VObj {[ "arr" := VObj {[ wildcard := VObj {[ "str2" := VTrue ]} ]};
                   "obj" := VObj {[ wildcard := VTrue; "bar" := VFalse ]} ]} in
  let v := VObj {[ "arr" := VArr [ VObj {[ "str1" := VStr "one"; "str2" := VStr "two" ]};
                                   VNum 7;
                                   VObj {[ "str1" := VStr "three"; "str2" := VStr "four" ]} ];
                   "obj" := VObj {[ "foo" := VStr "test"; "bar" := VStr "test2" ]} ]} in
  filterObject m (filterObject m v) = filterObject m v.
Proof.
  intros m v. apply (filterObject_idempotent m v). vm_compute. reflexivity.
Defined.

(** ** Subtraction and its error *)

Lemma loose_tree_obj (m : gmap string value) :
  loose_tree (VObj m) = true <-> map_Forall (fun _ x => loose_tree x = true) m.
Proof. simpl. apply map_fold_andb. Qed.

Lemma mask_tree_loose (v : value) : mask_tree v = true -> loose_tree v = true.
Proof.
  induction v as [v IH] using value_height_ind. intros Hv.
  destruct (mask_tree_cases v Hv) as [[b ->]|[m ->]]; [done|].
  apply loose_tree_obj. intros k x Hk.
  apply IH; [by eapply height_lookup|by eapply (mask_tree_lookup m)].
Qed.

Lemma loose_tree_cases (v : value) :
  loose_tree v = true -> v = VUndef \/ (exists b, v = VBool b) \/ (exists m, v = VObj m).
Proof. destruct v; simpl; try discriminate; eauto. Qed.

Lemma loose_tree_get (m : gmap string value) (k : string) :
  loose_tree (VObj m) = true -> loose_tree (get k (VObj m)) = true.
Proof.
  intros Hm%loose_tree_obj. rewrite get_obj.
  destruct (m !! k) as [x|] eqn:Hx; simpl; [by eapply Hm|done].
Qed.

Lemma loose_tree_insert (m : gmap string value) (k : string) (v : value) :
  map_Forall (fun _ x => loose_tree x = true) m -> loose_tree v = true ->
  map_Forall (fun _ x => loose_tree x = true) (<[k := v]> m).
Proof. intros Hm Hv. by apply map_Forall_insert_2. Qed.

Lemma invert_loose (v : value) : loose_tree v = true -> loose_tree (invert v) = true.
Proof.
  induction v as [v IH] using value_height_ind. intros Hv.
  destruct (loose_tree_cases v Hv) as [->|[[b ->]|[m ->]]]; [done|done|].
  simpl invert. apply loose_tree_obj. intros k x Hk.
  pose proof Hv as Hm%loose_tree_obj.
  destruct (decide (k = wildcard)) as [->|Hne].
  - rewrite invert_wildcard_lookup, lookup_fmap in Hk.
    destruct (m !! wildcard) as [w|] eqn:Hw; simpl in Hk.
    + destruct (truthy (invert w)); [|done]. injection Hk as <-.
      apply IH; [by eapply height_lookup|by eapply Hm].
    + by injection Hk as <-.
  - rewrite invert_wildcard_lookup_ne, lookup_fmap in Hk by done.
    destruct (m !! k) as [y|] eqn:Hy; simpl in Hk; [|done]. injection Hk as <-.
    apply IH; [by eapply height_lookup|by eapply Hm].
Qed.

Lemma no_error_bind {A B : Type} (P : A -> Prop) (Q : B -> Prop)
    (o : outcome A) (k : A -> outcome B) :
  no_error P o -> (forall a, P a -> no_error Q (k a)) -> no_error Q (o ≫= k).
Proof. destruct o as [a|e]; simpl; auto. Qed.

Lemma for_in_no_error (m : gmap string value) (Inv : gmap string value -> Prop)
    (body : string -> outcome (gmap string value) -> outcome (gmap string value))
    (acc : outcome (gmap string value)) :
  no_error Inv acc ->
  (forall key o, no_error Inv o -> no_error Inv (body key o)) ->
  no_error Inv (for_in m body acc).
Proof.
  intros Hacc Hbody. unfold for_in.
  apply (map_fold_weak_ind (fun r _ => no_error Inv r)); [done|].
  intros i x m' r _ Hr. by apply Hbody.
Qed.

Lemma loose_default (m : gmap string value) (k : string) :
  map_Forall (fun _ x => loose_tree x = true) m ->
  loose_tree (default VUndef (m !! k)) = true.
Proof. intros Hm. destruct (m !! k) as [x|] eqn:Hx; simpl; [by eapply Hm|done]. Qed.

Lemma assign_no_error (node : value) (key : string) (v : value) :
  loose_tree node = true -> loose_tree v = true ->
  no_error (fun w => loose_tree w = true) (assign node key v).
Proof.
  intros Hnode Hv.
  destruct (loose_tree_cases node Hnode) as [->|[[b ->]|[m ->]]]; [done|done|].
  simpl. apply loose_tree_obj, loose_tree_insert; [by apply loose_tree_obj|done].
Qed.

Lemma subtract_node_no_error (rec : value -> value -> outcome value)
    (ma mb : gmap string value) :
  (forall x y, loose_tree x = true -> loose_tree y = true ->
     no_error (fun v => loose_tree v = true) (rec x y)) ->
  loose_tree (VObj ma) = true ->
  loose_tree (VObj mb) = true ->
  no_error (map_Forall (fun _ x => loose_tree x = true))
    (subtract_node rec (VObj ma) (VObj mb)).
Proof.
  intros Hrec Ha Hb. unfold subtract_node. cbn [enum_props].
  set (Inv := map_Forall (fun (_ : string) x => loose_tree x = true)).
  assert (Hplain : forall acc0, no_error Inv acc0 ->
            no_error Inv (for_in mb (fun key acc =>
              cur ← acc;
              v ← rec (default VUndef (cur !! key)) (get key (VObj mb));
              Ok (<[key := v]> cur)) acc0)).
  { intros acc0 Hacc0. apply for_in_no_error; [done|].
    intros key o Ho. apply (no_error_bind Inv); [done|]. intros cur Hcur.
    apply (no_error_bind (fun v => loose_tree v = true)).
    - apply Hrec; [by apply loose_default|by apply loose_tree_get].
    - intros v Hv. by apply loose_tree_insert. }
  apply (no_error_bind Inv).
  - destruct (has_key wildcard (VObj mb)); [|by apply loose_tree_obj].
    apply for_in_no_error; [by apply loose_tree_obj|].
    intros key o Ho. apply (no_error_bind Inv); [done|]. intros cur Hcur.
    destruct (negb (has_key key (VObj mb)) || is_wild key); [|done].
    apply (no_error_bind (fun v => loose_tree v = true)).
    + apply Hrec; [by apply loose_default|by apply loose_tree_get].
    + intros v Hv. by apply loose_tree_insert.
  - intros a1 Ha1.
    destruct (bool_decide (is_Some (a1 !! wildcard)) && has_key wildcard (VObj mb));
      [|by apply Hplain].
    apply for_in_no_error; [done|].
    intros key o Ho. apply (no_error_bind Inv); [done|]. intros cur Hcur.
    destruct (is_wild key); [done|]. cbv zeta.
    apply (no_error_bind (fun v => loose_tree v = true)).
    + apply Hrec; [by apply loose_default|by apply loose_tree_get].
    + intros v Hv. apply (no_error_bind (fun v => loose_tree v = true)).
      * apply assign_no_error; [by apply loose_default|done].
      * intros w Hw. apply loose_tree_insert; [|done].
        destruct (isScalar _ || isScalar v); [done|by apply loose_tree_insert].
Qed.

Lemma subtract_f_no_error (fuel : nat) (a b : value) :
  loose_tree a = true -> loose_tree b = true ->
  no_error (fun v => loose_tree v = true) (subtract_f fuel a b).
Proof.
  revert a b. induction fuel as [|fuel IH]; intros a b Ha Hb; [done|].
  cbn [subtract_f].
  destruct (loose_tree_cases a Ha) as [->|[[[|] ->]|[ma ->]]];
    cbn [is_true is_false truthy negb]; try (by apply invert_loose); try done.
  destruct (loose_tree_cases b Hb) as [->|[[[|] ->]|[mb ->]]];
    cbn [is_true is_false truthy negb orb isScalar]; try done.
  destruct (isEqual (VObj ma) (VObj mb)); [done|].
  apply (no_error_bind (map_Forall (fun _ x => loose_tree x = true))).
  - by apply subtract_node_no_error.
  - intros a' Ha'. apply loose_tree_obj. intros k v Hv%sanitizeFalsies_lookup.
    by eapply Ha'.
Qed.


(** The assignment under the wildcard of the minuend is a [TypeError] when
    that wildcard is a boolean: [{_: true}] minus [{_: false, k: true}]. *)
Lemma subtract_type_error_example :
  subtractMasks (VObj {[ wildcard := VTrue ]})
                (VObj {[ wildcard := VFalse; "k" := VTrue ]})
  = Throw TypeError.
Proof. by vm_compute. Qed.



(** ** Removing a field *)

Lemma remove_loop_no_error (fuel : nat) (submask : value) (subpaths : list string) :
  no_error (fun _ => True) (remove_loop fuel submask subpaths).
Proof.
  assert (Hassign : forall node key v, no_error (fun _ : value => True) (assign node key v)).
  { intros [] ??; done. }
  revert submask subpaths. induction fuel as [|fuel IH]; intros submask subpaths; [done|].
  cbn [remove_loop]. destruct (negb (truthy submask)); [done|]. cbv zeta.
  destruct (typeof_object _).
  { apply (no_error_bind (fun _ => True)); [apply IH|]. intros; apply Hassign. }
  destruct (truthy _ && negb _); [|apply Hassign].
  apply (no_error_bind (fun _ => True)); [apply Hassign|]. intros node _.
  apply (no_error_bind (fun _ => True)); [apply IH|]. intros; apply Hassign.
Qed.

(** Removing a path the mask lists explicitly works as documented. *)
Lemma removeField_explicit_example :
  removeField (VObj {[ "a" := VTrue ]}) "a.b"
  = Ok (VObj {[ "a" := VObj {[ wildcard := VTrue; "b" := VFalse ]} ]}).
Proof. by vm_compute. Qed.

(** C7 fails on the code.  [removeField] throws its own error exactly on
    the paths that are, or end in, the wildcard; but on a path that is allowed
    through a wildcard set to [true], or by the mask [true] itself, the loop
    goes on with the boolean it has just copied under the key and assigns a
    property on it: a [TypeError], where the documentation promises that the
    field is removed. *)
Theorem removeField_fails_on_wildcard_inherited_path :
  (forall (mask : value) (path msg : string),
     removeField mask path = Throw (Error msg)
     <-> (path = "_" \/ slice_last2 path = "._") /\ msg = remove_msg)
  /\ mask_tree (VObj {[ wildcard := VTrue ]}) = true
  /\ checkPath (VObj {[ wildcard := VTrue ]}) "a" = true
  /\ removeField (VObj {[ wildcard := VTrue ]}) "a" = Throw TypeError
  /\ removeField VTrue "a" = Throw TypeError.
Proof.
  split; [|by vm_compute].
  intros mask path msg. unfold removeField.
  destruct (String.eqb path "_" || String.eqb (slice_last2 path) "._") eqn:Hw.
  - apply orb_true_iff in Hw. rewrite !String.eqb_eq in Hw. split.
    + by intros [= <-].
    + by intros [_ ->].
  - apply orb_false_iff in Hw. rewrite !String.eqb_neq in Hw. split.
    + intros Hthrow. exfalso. destruct (checkFields _ _); [|done].
      pose proof (remove_loop_no_error (S (height mask)) mask (split_dots path)) as Hne.
      rewrite Hthrow in Hne. done.
    + intros [[?|?] _]; tauto.
Qed.

(** ** Masks built from field lists *)

Lemma split_dots_nonempty (p : string) : split_dots p ≠ [].
Proof.
  induction p as [|c p IH]; simpl; [done|].
  destruct (Ascii.eqb c dot); [done|]. by destruct (split_dots p).
Qed.

Lemma seglen_cons (k : string) (ks : list string) :
  ks ≠ [] -> seglen (k :: ks) = String.length k + 1 + seglen ks.
Proof. by destruct ks. Qed.

Lemma string_length_split (p : string) : String.length p = seglen (split_dots p).
Proof.
  induction p as [|c p IH]; [done|]. cbn [split_dots String.length].
  destruct (Ascii.eqb c dot).
  - rewrite seglen_cons by apply split_dots_nonempty. simpl. lia.
  - pose proof (split_dots_nonempty p) as Hne. rewrite IH.
    destruct (split_dots p) as [|h [|h' t]]; [done| |]; simpl; lia.
Qed.

Lemma seglen_prefix_lt (pre qs : list string) :
  pre `prefix_of` qs -> pre ≠ qs -> pre ≠ [] -> seglen pre < seglen qs.
Proof.
  revert qs. induction pre as [|k pre IH]; intros qs [suf ->] Hne Hnil; [done|].
  destruct pre as [|k' pre'].
  - destruct suf as [|s suf]; [done|]. simpl. lia.
  - change ((k :: k' :: pre') ++ suf) with (k :: ((k' :: pre') ++ suf)).
    rewrite (seglen_cons k (k' :: pre')) by done.
    rewrite (seglen_cons k ((k' :: pre') ++ suf)) by done.
    assert (seglen (k' :: pre') < seglen ((k' :: pre') ++ suf)); [|lia].
    apply IH; [by eexists| |done]. intros Heq. apply Hne. by rewrite Heq at 1.
Qed.

Lemma setPath_segs_last (cur : value) (q : string) (v : value) :
  setPath_segs cur [q] v = VObj (<[q := v]> (enum_props cur)).
Proof. done. Qed.

Lemma setPath_segs_step (cur : value) (q q' : string) (qs : list string) (v : value) :
  setPath_segs cur (q :: q' :: qs) v
  = VObj (<[q := setPath_segs (if isScalar (get q cur) then VObj ∅ else get q cur)
                   (q' :: qs) v]> (enum_props cur)).
Proof. done. Qed.

Lemma mask_tree_empty : mask_tree (VObj ∅) = true.
Proof. apply mask_tree_obj, map_Forall_empty. Qed.

(** [setPath] towards [true] keeps a tree made of maps and booleans. *)
Lemma setPath_segs_mask_tree (qs : list string) (m : gmap string value) :
  mask_tree (VObj m) = true -> mask_tree (setPath_segs (VObj m) qs VTrue) = true.
Proof.
  revert m. induction qs as [|q qs IH]; intros m Hm; [done|].
  destruct qs as [|q' qs'].
  - rewrite setPath_segs_last.
    apply mask_tree_obj, map_Forall_insert_2; [done|by apply mask_tree_obj].
  - rewrite setPath_segs_step. cbn [enum_props].
    apply mask_tree_obj, map_Forall_insert_2; [|by apply mask_tree_obj].
    rewrite get_obj. destruct (m !! q) as [c|] eqn:Hc; cbn [default].
    + pose proof (mask_tree_lookup m q c Hm Hc) as Hct.
      destruct (mask_tree_cases c Hct) as [[b ->]|[mc ->]]; cbn [isScalar]; by apply IH.
    + apply IH, mask_tree_empty.
Qed.

Lemma setPath_segs_obj (qs : list string) (m : gmap string value) :
  qs ≠ [] -> exists m', setPath_segs (VObj m) qs VTrue = VObj m'.
Proof. destruct qs as [|q [|q' qs']]; [done|by eexists|by eexists]. Qed.

(** After [setPath], the path leads to the value set. *)
Lemma lookup_path_setPath (qs : list string) (m : gmap string value) :
  mask_tree (VObj m) = true -> qs ≠ [] ->
  lookup_path (setPath_segs (VObj m) qs VTrue) qs = Some VTrue.
Proof.
  revert m. induction qs as [|q qs IH]; intros m Hm Hne; [done|].
  destruct qs as [|q' qs'].
  - simpl. by rewrite lookup_insert_eq.
  - rewrite setPath_segs_step. cbn [enum_props lookup_path].
    rewrite lookup_insert_eq. cbn [mbind option_bind].
    rewrite get_obj. destruct (m !! q) as [c|] eqn:Hc; cbn [default].
    + pose proof (mask_tree_lookup m q c Hm Hc) as Hct.
      destruct (mask_tree_cases c Hct) as [[b ->]|[mc ->]]; cbn [isScalar];
        apply IH; done || apply mask_tree_empty.
    + apply IH; [apply mask_tree_empty|done].
Qed.

Lemma lookup_path_scalar (v : value) (ks : list string) :
  isScalar v = true -> lookup_path v ks = Some VTrue -> ks = [] /\ v = VTrue.
Proof. destruct ks; [by intros _ [= ->]|]. by destruct v. Qed.

Lemma next_node_cases (m : gmap string value) (q : string) :
  mask_tree (VObj m) = true ->
  (exists mc, m !! q = Some (VObj mc) /\ mask_tree (VObj mc) = true
              /\ (if isScalar (get q (VObj m)) then VObj ∅ else get q (VObj m)) = VObj mc)
  \/ ((forall c, m !! q = Some c -> isScalar c = true)
      /\ (if isScalar (get q (VObj m)) then VObj ∅ else get q (VObj m)) = VObj ∅).
Proof.
  intros Hm. rewrite get_obj. destruct (m !! q) as [c|] eqn:Hc; cbn [default].
  - pose proof (mask_tree_lookup m q c Hm Hc) as Hct.
    destruct (mask_tree_cases c Hct) as [[b ->]|[mc ->]]; cbn [isScalar].
    + right. split; [by intros ? [= <-]|done].
    + left. by exists mc.
  - right. by split.
Qed.

(** A leaf [true] found after [setPath] is the one just set, or was there. *)
Lemma true_leaf_after_setPath (qs : list string) (m : gmap string value) (ks : list string) :
  mask_tree (VObj m) = true -> qs ≠ [] ->
  lookup_path (setPath_segs (VObj m) qs VTrue) ks = Some VTrue ->
  ks = qs \/ lookup_path (VObj m) ks = Some VTrue.
Proof.
  revert m ks. induction qs as [|q qs IH]; intros m ks Hm Hne; [done|].
  destruct ks as [|k ks]; [by destruct qs|].
  destruct qs as [|q' qs'].
  - rewrite setPath_segs_last. cbn [enum_props lookup_path]. rewrite lookup_insert.
    case_decide as Hqk; [subst k|by right]. cbn [mbind option_bind].
    intros [-> _]%lookup_path_scalar; [by left|done].
  - rewrite setPath_segs_step. cbn [enum_props lookup_path]. rewrite lookup_insert.
    case_decide as Hqk; [subst k|by right]. cbn [mbind option_bind].
    destruct (next_node_cases m q Hm) as [(mc & Hc & Hmc & ->)|[_ ->]]; intros Hleaf.
    + destruct (IH mc ks Hmc ltac:(done) Hleaf) as [->|Hl]; [by left|].
      right. by rewrite Hc.
    + destruct (IH ∅ ks mask_tree_empty ltac:(done) Hleaf) as [->|Hl]; [by left|].
      destruct ks; [done|]. simpl in Hl. by rewrite lookup_empty in Hl.
Qed.

(** A path covered by a leaf [true] stays covered after [setPath], unless the
    path set runs through that leaf. *)
Lemma covered_after_setPath (qs : list string) (m : gmap string value) (ks : list string) :
  mask_tree (VObj m) = true -> qs ≠ [] ->
  (forall pre, pre `prefix_of` qs -> pre ≠ qs -> lookup_path (VObj m) pre ≠ Some VTrue) ->
  lookup_path (VObj m) ks = Some VTrue ->
  covered (setPath_segs (VObj m) qs VTrue) ks.
Proof.
  revert m ks. induction qs as [|q qs IH]; intros m ks Hm Hne Hpre Hks; [done|].
  destruct ks as [|k ks]; [done|].
  cbn [lookup_path] in Hks.
  destruct (decide (q = k)) as [->|Hqk].
  2:{ exists (k :: ks). split; [done|].
      destruct qs as [|q' qs']; rewrite ?setPath_segs_last, ?setPath_segs_step;
        cbn [enum_props lookup_path]; by rewrite lookup_insert_ne. }
  destruct qs as [|q' qs'].
  - exists [k]. split; [by apply prefix_cons, prefix_nil|].
    rewrite setPath_segs_last. cbn [enum_props lookup_path]. by rewrite lookup_insert_eq.
  - destruct (next_node_cases m k Hm) as [(mc & Hc & Hmc & Hnext)|[Hsc Hnext]].
    + rewrite Hc in Hks. cbn [mbind option_bind] in Hks.
      destruct (IH mc ks Hmc) as (pre & Hpk & Hlook); [done| |done|].
      { intros pre Hp Hn. specialize (Hpre (k :: pre)).
        cbn [lookup_path] in Hpre. rewrite Hc in Hpre. apply Hpre.
        - by apply prefix_cons.
        - congruence. }
      exists (k :: pre). split; [by apply prefix_cons|].
      rewrite setPath_segs_step. cbn [enum_props lookup_path].
      rewrite lookup_insert_eq, Hnext. done.
    + exfalso. destruct (m !! k) as [c|] eqn:Hc; [|done]. cbn [mbind option_bind] in Hks.
      destruct (lookup_path_scalar c ks (Hsc c eq_refl) Hks) as [-> ->].
      apply (Hpre [k]); [by apply prefix_cons, prefix_nil|done|].
      cbn [lookup_path]. by rewrite Hc.
Qed.

Lemma covered_allows (t : value) (ks : list string) :
  mask_tree t = true -> covered t ks -> allows t ks = true.
Proof.
  intros Ht (pre & Hp & Hlook). revert t ks Ht Hp Hlook.
  induction pre as [|k pre IH]; intros t ks Ht Hp Hlook.
  - injection Hlook as ->. apply allows_true.
  - destruct Hp as [suf ->]. cbn [lookup_path] in Hlook.
    destruct t as [| | | | | | |m]; try done.
    destruct (m !! k) as [c|] eqn:Hc; [|done]. cbn [mbind option_bind] in Hlook.
    change ((k :: pre) ++ suf) with (k :: (pre ++ suf)).
    rewrite allows_obj. unfold resolve. rewrite Hc.
    apply IH; [by eapply (mask_tree_lookup m)|by eexists|done].
Qed.

(** ** The order of insertion *)

Lemma elem_of_insert_longest_first (a x : string) (l : list string) :
  x ∈ insert_longest_first a l <-> x = a \/ x ∈ l.
Proof.
  induction l as [|b l IH]; simpl.
  - rewrite list_elem_of_singleton, elem_of_nil. tauto.
  - destruct (Nat.ltb _ _); rewrite !elem_of_cons; [rewrite IH|]; tauto.
Qed.

Lemma insert_longest_first_sorted (a : string) (l : list string) :
  StronglySorted longer_first l -> StronglySorted longer_first (insert_longest_first a l).
Proof.
  induction 1 as [|b l Hs IH Hall]; simpl.
  - by repeat constructor.
  - destruct (Nat.ltb _ _) eqn:Hlt.
    + apply Nat.ltb_lt in Hlt. constructor; [done|].
      apply Forall_forall. intros x [->|Hx]%elem_of_insert_longest_first.
      * unfold longer_first. lia.
      * by eapply Forall_forall in Hall.
    + apply Nat.ltb_ge in Hlt. constructor; [by constructor|].
      constructor; [done|]. eapply Forall_impl; [exact Hall|].
      unfold longer_first. intros; lia.
Qed.

Lemma sort_longest_first_sorted (fields : list string) :
  StronglySorted longer_first (sort_longest_first fields).
Proof.
  induction fields; simpl; [constructor|by apply insert_longest_first_sorted].
Qed.

Lemma elem_of_sort_longest_first (x : string) (fields : list string) :
  x ∈ sort_longest_first fields <-> x ∈ fields.
Proof.
  induction fields as [|a l IH]; simpl; [done|].
  rewrite elem_of_insert_longest_first, elem_of_cons, IH. done.
Qed.

Lemma covered_prefix (t : value) (pre ks : list string) :
  pre `prefix_of` ks -> covered t pre -> covered t ks.
Proof. intros Hp (pre' & Hp' & Hl). exists pre'. split; [by etrans|done]. Qed.

(** Inserting paths from the longest to the shortest never runs through a
    leaf already set, so every path inserted stays covered by a leaf. *)
Lemma build_covers (L : list string) (m : gmap string value) (n : nat) :
  StronglySorted longer_first L ->
  (forall p, p ∈ L -> String.length p <= n) ->
  mask_tree (VObj m) = true ->
  (forall ks, lookup_path (VObj m) ks = Some VTrue -> n <= seglen ks) ->
  mask_tree (foldl (fun ret field => setPath ret field VTrue) (VObj m) L) = true
  /\ (forall ks, covered (VObj m) ks ->
        covered (foldl (fun ret field => setPath ret field VTrue) (VObj m) L) ks)
  /\ (forall p, p ∈ L ->
        covered (foldl (fun ret field => setPath ret field VTrue) (VObj m) L) (split_dots p)).
Proof.
  intros Hsorted. revert m n.
  induction Hsorted as [|q L Hs IH Hall]; intros m n Hlen Hm Hleaves.
  { simpl. split; [done|]. split; [done|]. intros p Hp. by apply elem_of_nil in Hp. }
  cbn [foldl]. unfold setPath at 2 4 6.
  pose proof (split_dots_nonempty q) as Hq.
  destruct (setPath_segs_obj (split_dots q) m Hq) as [m1 Hm1].
  pose proof (setPath_segs_mask_tree (split_dots q) m Hm) as Hmt1.
  pose proof (lookup_path_setPath (split_dots q) m Hm Hq) as Hset.
  assert (Hqn : String.length q <= n) by (apply Hlen; by left).
  assert (Hfree : forall pre, pre `prefix_of` split_dots q -> pre ≠ split_dots q ->
            lookup_path (VObj m) pre ≠ Some VTrue).
  { intros pre Hp Hne Hl. destruct pre as [|k pre]; [done|].
    pose proof (seglen_prefix_lt _ _ Hp Hne ltac:(done)) as Hlt.
    pose proof (Hleaves _ Hl). rewrite <- string_length_split in Hlt. lia. }
  rewrite Hm1 in *.
  destruct (IH m1 (String.length q)) as (Ht & Hcov & Hin).
  - intros p Hp. by eapply Forall_forall in Hall.
  - done.
  - intros ks Hks. rewrite <- Hm1 in Hks.
    destruct (true_leaf_after_setPath _ _ _ Hm Hq Hks) as [->|Hks'].
    + by rewrite string_length_split.
    + specialize (Hleaves ks Hks'). lia.
  - split; [done|]. split.
    + intros ks (pre & Hp & Hl). apply Hcov. apply (covered_prefix _ pre); [done|].
      rewrite <- Hm1. by apply covered_after_setPath.
    + intros p [->|Hp]%elem_of_cons; [|by apply Hin].
      apply Hcov. exists (split_dots q). split; [done|]. exact Hset.
Qed.

Lemma length_le_longest (x : string) (l : list string) :
  x ∈ l -> String.length x <= foldr (fun s acc => Nat.max (String.length s) acc) 0 l.
Proof. induction 1; cbn [foldr]; lia. Qed.

(** C8: every path of the list is allowed by the mask built from it, the
    paths being inserted from the longest to the shortest, so that a listed
    path lies on or below a leaf that is exactly [true]; and the list
    [["foo", "bar.baz", "bar.baz.biz"]] gives [{foo: true, bar: {baz: true}}]. *)
Theorem createMaskFromFieldList_allows_fields :
  (forall (fields : list string) (p : string),
     p ∈ fields ->
     checkPath (createMaskFromFieldList fields) p = true
     /\ covered (createMaskFromFieldList fields) (split_dots p))
  /\ (forall fields : list string,
        StronglySorted longer_first (sort_longest_first fields)
        /\ forall p, p ∈ sort_longest_first fields <-> p ∈ fields)
  /\ createMaskFromFieldList ["foo"; "bar.baz"; "bar.baz.biz"]
     = VObj {[ "foo" := VTrue; "bar" := VObj {[ "baz" := VTrue ]} ]}.
Proof.
  split; [|split; [|by vm_compute]].
  - intros fields p Hp. unfold createMaskFromFieldList.
    destruct (build_covers (sort_longest_first fields) ∅
                (foldr (fun s acc => Nat.max (String.length s) acc) 0 fields))
      as (Ht & _ & Hin).
    + apply sort_longest_first_sorted.
    + intros x Hx. apply length_le_longest. by apply elem_of_sort_longest_first.
    + apply mask_tree_empty.
    + intros [|k ks] Hl; [done|]. cbn [lookup_path] in Hl. by rewrite lookup_empty in Hl.
    + rewrite ObjectMask_id by done.
      assert (Hc : covered (foldl (fun ret field => setPath ret field VTrue) (VObj ∅)
                              (sort_longest_first fields)) (split_dots p))
        by (apply Hin; by apply elem_of_sort_longest_first).
      split; [|done]. rewrite checkPath_walk. by apply covered_allows.
  - intros fields. split; [apply sort_longest_first_sorted|].
    intros p. apply elem_of_sort_longest_first.
Qed.

Lemma createMaskFromFieldList_allows_fields_witness :
  checkPath (createMaskFromFieldList ["foo"; "bar.baz"; "bar.baz.biz"]) "bar.baz.biz" = true.
Proof.
  apply (proj1 createMaskFromFieldList_allows_fields
           ["foo"; "bar.baz"; "bar.baz.biz"] "bar.baz.biz").
  apply list_elem_of_In. simpl. tauto.
Defined.

(** ** The dotted form against the structured form *)

(** ** Index names *)

Lemma idx_inj (i j : nat) : idx i = idx j -> i = j.
Proof.
  unfold idx. intros H. apply (f_equal NilEmpty.uint_of_string) in H.
  rewrite !NilEmpty.usu in H. injection H as H.
  apply (f_equal Nat.of_uint) in H. by rewrite !DecimalNat.Unsigned.of_to in H.
Qed.

Lemma to_uint_nonnil (i : nat) : Nat.to_uint i ≠ Decimal.Nil.
Proof.
  intros H. pose proof (DecimalNat.Unsigned.of_to i) as Hi. rewrite H in Hi.
  simpl in Hi. subst i. discriminate H.
Qed.

Lemma dot_free_digits (d : Decimal.uint) : dot_free (NilEmpty.string_of_uint d) = true.
Proof. induction d; simpl; done. Qed.

Lemma plain_key_idx (i : nat) : plain_key (idx i) = true.
Proof.
  unfold plain_key, idx. rewrite dot_free_digits, andb_true_r.
  pose proof (to_uint_nonnil i). by destruct (Nat.to_uint i).
Qed.

(** ** Joining and splitting paths *)

Lemma split_dots_app_dot (a b : string) :
  split_dots (a ++ "." ++ b)%string = split_dots a ++ split_dots b.
Proof.
  induction a as [|c a IH]; [done|].
  change ((String c a ++ "." ++ b)%string) with (String c (a ++ "." ++ b)%string).
  cbn [split_dots]. rewrite IH. destruct (Ascii.eqb c dot); [done|].
  pose proof (split_dots_nonempty a). by destruct (split_dots a).
Qed.

Lemma split_dots_plain (k : string) : dot_free k = true -> split_dots k = [k].
Proof.
  induction k as [|c k IH]; [done|]. simpl.
  intros [Hc Hk]%andb_true_iff. apply negb_true_iff in Hc. rewrite Hc.
  by rewrite (IH Hk).
Qed.

Lemma plain_key_nonempty (k : string) : plain_key k = true -> k ≠ "".
Proof. unfold plain_key. intros [H _]%andb_true_iff. by apply negb_true_iff, String.eqb_neq in H. Qed.

Lemma sub_path_nonempty (path k : string) : k ≠ "" -> sub_path path k ≠ "".
Proof.
  intros Hk. unfold sub_path. destruct (String.eqb path "") eqn:Hp; [done|].
  apply String.eqb_neq in Hp. by destruct path.
Qed.

Lemma split_dots_sub_path (path k : string) :
  plain_key k = true ->
  split_dots (sub_path path k)
  = if String.eqb path "" then [k] else split_dots path ++ [k].
Proof.
  intros [_ Hk]%andb_true_iff. unfold sub_path.
  destruct (String.eqb path ""); [by apply split_dots_plain|].
  by rewrite split_dots_app_dot, (split_dots_plain k).
Qed.

(** The path computed along plain segments splits back into them. *)
Lemma split_dots_foldl (ks : list string) (path : string) :
  Forall (fun k => plain_key k = true) ks ->
  ks ≠ [] ->
  foldl sub_path path ks ≠ ""
  /\ split_dots (foldl sub_path path ks)
     = if String.eqb path "" then ks else split_dots path ++ ks.
Proof.
  intros Hks. revert path. induction Hks as [|k ks Hk Hks IH]; intros path Hnil; [done|].
  cbn [foldl]. pose proof (sub_path_nonempty path k (plain_key_nonempty k Hk)) as Hne.
  destruct ks as [|k' ks'].
  - cbn [foldl]. split; [done|]. rewrite split_dots_sub_path by done.
    by destruct (String.eqb path "").
  - destruct (IH (sub_path path k) ltac:(done)) as [Hn Hs]. split; [done|].
    rewrite Hs. apply String.eqb_neq in Hne. rewrite Hne.
    rewrite split_dots_sub_path by done.
    destruct (String.eqb path ""); [done|]. by rewrite <- app_assoc.
Qed.

(** ** Folds that collect paths *)

Lemma map_fold_members {A : Type} (Mem : A -> string -> Prop)
    (G : string -> value -> A -> A) (S : string -> value -> string -> Prop)
    (m : gmap string value) (acc : A) :
  (forall k c, m !! k = Some c ->
     forall a p, Mem (G k c a) p <-> Mem a p \/ S k c p) ->
  forall p, Mem (map_fold G acc m) p
            <-> Mem acc p \/ exists k c, m !! k = Some c /\ S k c p.
Proof.
  apply (map_fold_weak_ind (fun r m' =>
    (forall k c, m' !! k = Some c -> forall a p, Mem (G k c a) p <-> Mem a p \/ S k c p) ->
    forall p, Mem r p <-> Mem acc p \/ exists k c, m' !! k = Some c /\ S k c p)).
  - intros _ p. split; [by left|]. intros [?|(k & c & Hk & _)]; [done|].
    by rewrite lookup_empty in Hk.
  - intros i x m' r Hi IH HG p.
    rewrite (HG i x) by apply lookup_insert_eq. rewrite IH.
    + split.
      * intros [[?|(k & c & Hk & HS)]|HS]; [by left| |].
        -- right. exists k, c. split; [|done]. rewrite lookup_insert_ne; [done|congruence].
        -- right. exists i, x. by rewrite lookup_insert_eq.
      * intros [?|(k & c & Hk & HS)]; [by left; left|].
        rewrite lookup_insert in Hk. case_decide; simplify_eq; [by right|].
        left. right. by exists k, c.
    + intros k c Hk. apply HG. rewrite lookup_insert_ne; [done|congruence].
Qed.

Lemma foldl_members {A : Type} (Mem : A -> string -> Prop) (pos : A -> nat)
    (G : A -> value -> A) (S : nat -> value -> string -> Prop)
    (l : list value) (acc : A) :
  (forall a c, pos (G a c) = Datatypes.S (pos a)) ->
  (forall i c, l !! i = Some c ->
     forall a p, pos a = pos acc + i -> Mem (G a c) p <-> Mem a p \/ S (pos a) c p) ->
  forall p, Mem (foldl G acc l) p
            <-> Mem acc p \/ exists i c, l !! i = Some c /\ S (pos acc + i) c p.
Proof.
  intros Hpos. revert acc. induction l as [|x l IH]; intros acc HG p.
  - simpl. split; [by left|]. by intros [?|(i & c & Hi & _)].
  - cbn [foldl]. rewrite IH.
    + rewrite (HG 0 x eq_refl acc p) by lia. rewrite Hpos. split.
      * intros [[?|HS]|(i & c & Hi & HS)]; [by left| |].
        -- right. exists 0, x. by rewrite Nat.add_0_r.
        -- right. exists (Datatypes.S i), c. split; [done|].
           by replace (pos acc + Datatypes.S i) with (Datatypes.S (pos acc) + i) by lia.
      * intros [?|(i & c & Hi & HS)]; [by left; left|].
        destruct i as [|i].
        -- injection Hi as <-. rewrite Nat.add_0_r in HS. by left; right.
        -- right. exists i, c. split; [done|].
           by replace (Datatypes.S (pos acc) + i) with (pos acc + Datatypes.S i) by lia.
    + intros i c Hi a q Ha. apply (HG (Datatypes.S i) c Hi). rewrite Hpos in Ha. lia.
Qed.

(** ** Segments: where the walk of [checkPath] and [filterDeep] part *)

Lemma allows_or_false (v : value) (ks : list string) :
  allows (or_false v) ks = allows v ks.
Proof.
  unfold or_false. destruct (truthy v) eqn:Hv; [done|].
  by rewrite (allows_falsy v), (allows_falsy VFalse).
Qed.

Lemma allows_mask_at (mask : value) (k : string) (ks : list string) :
  truthy mask && negb (isScalar mask) = true ->
  allows mask (k :: ks) = allows (mask_at mask k) ks.
Proof.
  intros [_ Hs%negb_true_iff]%andb_true_iff. unfold mask_at.
  rewrite allows_or_false. unfold allows. simpl. by rewrite Hs.
Qed.

Lemma allows_dead (mask : value) (ks : list string) :
  is_true mask = false ->
  truthy mask && negb (isScalar mask) = false ->
  allows mask ks = false.
Proof.
  intros Ht Hd. rewrite allows_scalar; [done|].
  destruct mask; try done. 
Qed.

Lemma masked_iff_disallowed (v : value) (ks : list string) :
  leaf_at v ks ->
  forall mask,
    allows mask ks = false
    <-> exists ks', ks' `prefix_of` ks /\ masked_at v mask ks'.
Proof.
  induction 1 as [v Hv|m k c ks Hk Hleaf IH|l i c ks Hi Hleaf IH]; intros mask.
  - split.
    + intros Ht. exists []. split; [done|]. apply masked_here; [done|by right].
    + intros (ks' & Hp & Hm). apply prefix_nil_inv in Hp as ->. by inversion Hm.
  - destruct (is_true mask) eqn:Ht.
    { rewrite allows_scalar by (by destruct mask as [| |[|]| | | | |]).
      rewrite Ht. split; [done|]. intros (ks' & _ & Hm). inversion Hm; congruence. }
    destruct (truthy mask && negb (isScalar mask)) eqn:Hd.
    2:{ rewrite allows_dead by done. split; [|done]. intros _.
        exists []. split; [apply prefix_nil|]. apply masked_here; auto. }
    rewrite allows_mask_at, IH by done. split.
    + intros (ks' & Hp & Hm). exists (k :: ks'). split; [by apply prefix_cons|].
      by eapply masked_prop.
    + intros (ks' & Hp & Hm). inversion Hm as [? ? ? [?|?]| |]; simplify_eq; try congruence.
      apply prefix_cons_inv_1 in Hp as Hkk. apply prefix_cons_inv_2 in Hp. simplify_eq.
      by eexists.
  - destruct (is_true mask) eqn:Ht.
    { rewrite allows_scalar by (by destruct mask as [| |[|]| | | | |]).
      rewrite Ht. split; [done|]. intros (ks' & _ & Hm). inversion Hm; congruence. }
    destruct (truthy mask && negb (isScalar mask)) eqn:Hd.
    2:{ rewrite allows_dead by done. split; [|done]. intros _.
        exists []. split; [apply prefix_nil|]. apply masked_here; auto. }
    rewrite allows_mask_at, IH by done. split.
    + intros (ks' & Hp & Hm). exists (idx i :: ks'). split; [by apply prefix_cons|].
      by eapply masked_elem.
    + intros (ks' & Hp & Hm). inversion Hm as [? ? ? [?|?]| |]; simplify_eq; try congruence.
      apply prefix_cons_inv_1 in Hp as Hkk. apply prefix_cons_inv_2 in Hp.
      apply idx_inj in Hkk. simplify_eq. by eexists.
Qed.

Lemma leaf_at_scalar (v : value) (ks : list string) :
  isScalar v = true -> leaf_at v ks <-> ks = [].
Proof.
  intros Hv. split; [|intros ->; by constructor].
  intros H. by inversion H; subst.
Qed.

(** The keys [collapseToDotted] writes: one per scalar leaf. *)
Lemma addObj_dom (v : value) :
  forall (path : string) (acc : gmap string value) (p : string),
    p ∈ dom (addObj false false v path acc)
    <-> p ∈ dom acc \/ exists ks, leaf_at v ks /\ p = foldl sub_path path ks.
Proof.
  induction v as [v IH] using value_height_ind. intros path acc p.
  assert (Hscalar : isScalar v = true ->
            addObj false false v path acc = <[path := v]> acc ->
            p ∈ dom (addObj false false v path acc)
            <-> p ∈ dom acc \/ exists ks, leaf_at v ks /\ p = foldl sub_path path ks).
  { intros Hv ->. rewrite dom_insert, elem_of_union, elem_of_singleton. split.
    - intros [->|?]; [|by left]. right. exists []. split; [by constructor|done].
    - intros [?|(ks & Hl & ->)]; [by right|]. apply leaf_at_scalar in Hl as ->; [|done]. by left. }
  destruct v as [| | | | | |l|m]; try (by apply Hscalar).
  - cbn [addObj].
    rewrite (foldl_members (fun (a : nat * gmap string value) q => q ∈ dom a.2) fst
               (fun acc child => (S acc.1, addObj false false child
                                           (sub_path path (idx acc.1)) acc.2))
               (fun i c q => exists ks, leaf_at c ks
                                        /\ q = foldl sub_path (sub_path path (idx i)) ks)).
    + cbn [fst snd]. split; (intros [?|Hr]; [by left|right]).
      * destruct Hr as (i & c & Hi & ks & Hl & ->). exists (idx i :: ks).
        split; [by eapply leaf_elem|done].
      * destruct Hr as (ks & Hl & ->). inversion Hl as [? Hs| |? i c ks' Hi Hl']; subst; [done|].
        exists i, c. split; [done|]. by exists ks'.
    + done.
    + intros i c Hi a q _. cbn [fst snd]. apply IH. apply height_elem.
      by eapply list_elem_of_lookup_2.
  - cbn [addObj].
    rewrite (map_fold_members (fun (a : gmap string value) q => q ∈ dom a)
               (fun key child acc => addObj false false child (sub_path path key) acc)
               (fun k c q => exists ks, leaf_at c ks
                                        /\ q = foldl sub_path (sub_path path k) ks)).
    + split; (intros [?|Hr]; [by left|right]).
      * destruct Hr as (k & c & Hk & ks & Hl & ->). exists (k :: ks).
        split; [by eapply leaf_prop|done].
      * destruct Hr as (ks & Hl & ->). inversion Hl as [? Hs|? k c ks' Hk Hl'|]; subst; [done|].
        exists k, c. split; [done|]. by exists ks'.
    + intros k c Hk a q. apply IH. by eapply height_lookup.
Qed.

(** The paths [filterDeep] hands to the hook. *)
Lemma filterDeep_hooks (v : value) :
  forall (mask : value) (path q : string),
    q ∈ (filterDeep v mask path).2
    <-> exists ks, masked_at v mask ks /\ q = foldl sub_path path ks.
Proof.
  induction v as [v IH] using value_height_ind. intros mask path q.
  destruct (is_true mask) eqn:Ht.
  { rewrite filterDeep_true by done. cbn [snd]. rewrite elem_of_nil. split; [done|].
    intros (ks & Hm & _). inversion Hm; congruence. }
  assert (Hout : truthy mask && negb (isScalar mask) = false \/ isScalar v = true ->
            q ∈ (filterDeep v mask path).2
            <-> exists ks, masked_at v mask ks /\ q = foldl sub_path path ks).
  { intros Hd. rewrite filterDeep_out by done. cbn [snd]. rewrite list_elem_of_singleton. split.
    - intros ->. exists []. split; [by apply masked_here|done].
    - intros (ks & Hm & ->). inversion Hm; subst; [done| |]; destruct Hd; congruence || done. }
  destruct (truthy mask && negb (isScalar mask)) eqn:Hd; [|by apply Hout; left].
  destruct v as [| | | | | |l|m]; try (by apply Hout; right).
  - rewrite filterDeep_arr by done. cbn beta. cbn [snd].
    rewrite (foldl_members (fun (a : nat * list value * list string) x => x ∈ a.2)
               (fun a => a.1.1)
               (fun acc child => push_elem (filterDeep child (mask_at mask (idx acc.1.1))
                                              (sub_path path (idx acc.1.1))) acc)
               (fun i c x => exists ks, masked_at c (mask_at mask (idx i)) ks
                                        /\ x = foldl sub_path (sub_path path (idx i)) ks)).
    + cbn [fst snd]. rewrite elem_of_nil. split.
      * intros [[]|(i & c & Hi & ks & Hm & ->)]. exists (idx i :: ks).
        split; [by eapply masked_elem|done].
      * intros (ks & Hm & ->). right.
        inversion Hm as [? ? ? [?|?]| |? ? i c ks' ? ? Hi Hm']; subst; try congruence; [done|].
        exists i, c. split; [done|]. by exists ks'.
    + done.
    + intros i c Hi a x _. unfold push_elem. cbn [fst snd].
      rewrite elem_of_app, IH; [done|]. apply height_elem. by eapply list_elem_of_lookup_2.
  - rewrite filterDeep_obj by done. cbn beta. cbn [snd].
    rewrite (map_fold_members (fun (a : gmap string value * list string) x => x ∈ a.2)
               (fun key child acc => keep_prop key (filterDeep child (mask_at mask key)
                                                      (sub_path path key)) acc)
               (fun k c x => exists ks, masked_at c (mask_at mask k) ks
                                        /\ x = foldl sub_path (sub_path path k) ks)).
    + cbn [snd]. rewrite elem_of_nil. split.
      * intros [[]|(k & c & Hk & ks & Hm & ->)]. exists (k :: ks).
        split; [by eapply masked_prop|done].
      * intros (ks & Hm & ->). right.
        inversion Hm as [? ? ? [?|?]|? ? k c ks' ? ? Hk Hm'|]; subst; try congruence; [done|].
        exists k, c. split; [done|]. by exists ks'.
    + intros k c Hk a x. unfold keep_prop. cbn [snd].
      rewrite elem_of_app, IH; [tauto|]. by eapply height_lookup.
Qed.

(** ** Plain keys give plain segments *)

Lemma plain_keys_obj (m : gmap string value) :
  plain_keys (VObj m) = true
  <-> map_Forall (fun k x => plain_key k = true /\ plain_keys x = true) m.
Proof.
  simpl. rewrite (map_fold_andb_key (fun k x => plain_key k && plain_keys x)).
  split; intros Hm k x Hk; specialize (Hm k x Hk); simpl in *.
  - by apply andb_true_iff in Hm.
  - by apply andb_true_iff.
Qed.

Lemma plain_keys_elem (l : list value) (i : nat) (c : value) :
  plain_keys (VArr l) = true -> l !! i = Some c -> plain_keys c = true.
Proof.
  simpl. rewrite forallb_forall. intros Hl Hi. apply Hl.
  apply list_elem_of_In. by eapply list_elem_of_lookup_2.
Qed.

Lemma leaf_at_plain (v : value) (ks : list string) :
  leaf_at v ks -> plain_keys v = true -> Forall (fun k => plain_key k = true) ks.
Proof.
  induction 1 as [v Hv|m k c ks Hk Hleaf IH|l i c ks Hi Hleaf IH]; intros Hp.
  - constructor.
  - apply plain_keys_obj in Hp. destruct (Hp k c Hk). constructor; auto.
  - constructor; [apply plain_key_idx|]. apply IH. by eapply plain_keys_elem.
Qed.

Lemma masked_at_plain (v mask : value) (ks : list string) :
  masked_at v mask ks -> plain_keys v = true -> Forall (fun k => plain_key k = true) ks.
Proof.
  induction 1 as [| m mask k c ks _ _ Hk _ IH | l mask i c ks _ _ Hi _ IH]; intros Hp.
  - constructor.
  - apply plain_keys_obj in Hp. destruct (Hp k c Hk). constructor; auto.
  - constructor; [apply plain_key_idx|]. apply IH. by eapply plain_keys_elem.
Qed.

(** ** The dotted filter *)

Lemma dotted_fold_spec (mask : value) (d m : gmap string value) :
  m ⊆ d ->
  forall k,
    (map_fold (fun key _ (acc : gmap string value * list string) =>
       if negb (checkPath mask key) then (acc.1, key :: acc.2)
       else (<[key := get key (VObj d)]> acc.1, acc.2)) (∅, []) m).1 !! k
    = (if checkPath mask k then m !! k else None)
    /\ (k ∈ (map_fold (fun key _ (acc : gmap string value * list string) =>
               if negb (checkPath mask key) then (acc.1, key :: acc.2)
               else (<[key := get key (VObj d)]> acc.1, acc.2)) (∅, []) m).2
        <-> is_Some (m !! k) /\ checkPath mask k = false).
Proof.
  apply (map_fold_weak_ind (fun (r : gmap string value * list string) m' =>
    m' ⊆ d -> forall k,
      r.1 !! k = (if checkPath mask k then m' !! k else None)
      /\ (k ∈ r.2 <-> is_Some (m' !! k) /\ checkPath mask k = false))).
  - intros _ k. cbn [fst snd]. rewrite !lookup_empty, elem_of_nil.
    split; [by destruct (checkPath mask k)|]. split; [done|]. by intros [[? ?] _].
  - intros i x m' r Hi IH Hsub k.
    assert (Hm : m' ⊆ d).
    { etrans; [|exact Hsub]. by apply insert_subseteq. }
    assert (Hx : get i (VObj d) = x).
    { rewrite get_obj. eapply lookup_weaken in Hsub; [|apply lookup_insert_eq]. by rewrite Hsub. }
    destruct (IH Hm k) as [IH1 IH2].
    destruct (decide (i = k)) as [->|Hne].
    + rewrite Hi in IH1, IH2. rewrite lookup_insert_eq.
      destruct (checkPath mask k) eqn:Hck; cbn [negb fst snd].
      * rewrite Hx, lookup_insert_eq. split; [done|]. rewrite IH2.
        split; intros [? ?]; [by destruct H|done].
      * split; [by rewrite IH1|]. rewrite elem_of_cons. split; [by intros _|by left].
    + rewrite lookup_insert_ne by done.
      destruct (checkPath mask i) eqn:Hci; cbn [negb fst snd].
      * rewrite lookup_insert_ne by done. done.
      * rewrite elem_of_cons. split; [done|]. rewrite IH2.
        split; [intros [?|?]; [congruence|done]|by right].
Qed.

Lemma filterDottedObject_hook_spec (mask : value) (d : gmap string value) (k : string) :
  (filterDottedObject_hook mask d).1 !! k
  = (if checkPath mask k then d !! k else None)
  /\ (k ∈ (filterDottedObject_hook mask d).2
      <-> is_Some (d !! k) /\ checkPath mask k = false).
Proof. by apply dotted_fold_spec. Qed.

(** The dotted keys of a value are the paths of its scalar leaves. *)
Lemma collapseToDotted_key (v : value) (p : string) :
  plain_keys v = true ->
  is_Some (collapseToDotted v !! p) ->
  exists ks, leaf_at v ks /\ ks ≠ [] /\ p = foldl sub_path "" ks /\ split_dots p = ks.
Proof.
  intros Hv Hp. unfold collapseToDotted, collapseToDotted_opts in Hp.
  destruct (isScalar v); [by rewrite lookup_empty in Hp; destruct Hp|].
  destruct Hp as [x Hp]. apply lookup_delete_Some in Hp as [Hne Hp].
  assert (Hdom : p ∈ dom (addObj false false v "" ∅)) by (apply elem_of_dom; by eexists).
  apply addObj_dom in Hdom as [Hdom|(ks & Hl & ->)]; [by rewrite dom_empty in Hdom|].
  exists ks. split; [done|]. destruct ks as [|k ks]; [done|].
  split; [done|]. split; [done|].
  by apply split_dots_foldl; [by apply (leaf_at_plain v)|].
Qed.




(** ** The static operations leave their operands alone *)

Section frame.
Import Heap.

Variable base : loc.

Lemma safe_ret {A} (a : A) (Q : A → Prop) : Q a → safe base (mret a) Q.
Proof.
  intros Ha h Hh. cbn. split; [done|]. split; [by intros l _|].
  by intros a' [= <-].
Qed.

Lemma safe_throw {A} (e : exn) (Q : A → Prop) : safe base (throw e) Q.
Proof. intros h Hh. cbn. split; [done|]. split; [by intros l _|]. by intros a' [=]. Qed.

Lemma safe_bind {A B} (c : M A) (k : A → M B) (Q : A → Prop) (R : B → Prop) :
  safe base c Q → (∀ a, Q a → safe base (k a) R) → safe base (c ≫= k) R.
Proof.
  intros Hc Hk h Hh. destruct (Hc h Hh) as (Hc1 & Hc2 & Hc3).
  unfold mbind, M_bind. destruct (c h) as [[a|e] h']; cbn in *.
  - destruct (Hk a (Hc3 a eq_refl) h' Hc1) as (Hk1 & Hk2 & Hk3).
    split; [done|]. split; [|done].
    intros l Hl. by rewrite Hk2, Hc2.
  - split; [done|]. split; [done|]. by intros b [=].
Qed.

Lemma safe_mono {A} (c : M A) (Q R : A → Prop) :
  safe base c Q → (∀ a, Q a → R a) → safe base c R.
Proof.
  intros Hc HQR h Hh. destruct (Hc h Hh) as (H1 & H2 & H3).
  split; [done|]. split; [done|]. intros a Ha. by apply HQR, H3.
Qed.

Lemma safe_read (l : loc) :
  safe base (read l) (fun o => (base <= l)%nat → fresh_object base o).
Proof.
  intros h [Hlen Hh]. cbn. split; [done|]. split; [by intros l' _|].
  intros o [= <-] Hl. destruct (h !! l) as [o|] eqn:Ho; cbn.
  - by apply (Hh l).
  - by intros key v.
Qed.

Lemma safe_getp (l : loc) (key : string) :
  safe base (getp l key) (fun v => (base <= l)%nat → fresh base v).
Proof.
  eapply safe_bind; [apply safe_read|]. intros o Ho. apply safe_ret.
  intros Hl. destruct (fields o !! key) as [v|] eqn:Hv; cbn; [|done].
  by apply (Ho Hl key).
Qed.

Lemma safe_hasp (l : loc) (key : string) : safe base (hasp l key) (fun _ => True).
Proof. eapply safe_bind; [apply safe_read|]. intros o _. by apply safe_ret. Qed.

Lemma safe_keys (l : loc) : safe base (keys l) (fun _ => True).
Proof. eapply safe_bind; [apply safe_read|]. intros o _. by apply safe_ret. Qed.

Lemma safe_isArray (v : hval) : safe base (isArray v) (fun _ => True).
Proof.
  destruct v; [by apply safe_ret|].
  eapply safe_bind; [apply safe_read|]. intros o _. by apply safe_ret.
Qed.

Lemma safe_length_of (v : hval) : safe base (length_of v) (fun _ => True).
Proof.
  destruct v; [by apply safe_ret|].
  eapply safe_bind; [apply safe_read|]. intros o _. by apply safe_ret.
Qed.

Lemma safe_prop (v : hval) (key : string) :
  safe base (prop v key) (fun x => fresh base v → fresh base x).
Proof.
  destruct v as [p|l]; cbn [prop].
  - apply safe_ret. intros _. by destruct (get key (to_value p)).
  - apply safe_getp.
Qed.

Lemma safe_props (v : hval) : safe base (props v) (fun _ => True).
Proof. destruct v; [by apply safe_ret|apply safe_keys]. Qed.

Lemma closed_above_alter (f : object → object) (l : loc) (h : heap) :
  (∀ o, fresh_object base o → fresh_object base (f o)) →
  closed_above base h → closed_above base (alter f l h).
Proof.
  intros Hf [Hlen Hh]. split; [by rewrite length_alter|].
  intros l' o Hl'. destruct (decide (l = l')) as [<-|Hne].
  - rewrite list_lookup_alter_eq. destruct (h !! l) as [o'|] eqn:Ho'; [|done].
    intros [= <-]. apply Hf. by apply (Hh l).
  - rewrite list_lookup_alter_ne by done. by apply Hh.
Qed.

Lemma same_below_alter (f : object → object) (l : loc) (h : heap) :
  (base <= l)%nat → same_below base h (alter f l h).
Proof. intros Hl l' Hl'. apply list_lookup_alter_ne. lia. Qed.

Lemma safe_write (l : loc) (key : string) (v : hval) :
  (base <= l)%nat → fresh base v → safe base (write l key v) (fun _ => True).
Proof.
  intros Hl Hv h Hh. cbn. split; [|split; [by apply same_below_alter|done]].
  apply closed_above_alter; [|done].
  intros o Ho key' v'. cbn. destruct (decide (key = key')) as [<-|Hne].
  - rewrite lookup_insert_eq. by intros [= <-].
  - rewrite lookup_insert_ne by done. apply Ho.
Qed.

Lemma safe_remove (l : loc) (key : string) :
  (base <= l)%nat → safe base (remove l key) (fun _ => True).
Proof.
  intros Hl h Hh. cbn. split; [|split; [by apply same_below_alter|done]].
  apply closed_above_alter; [|done].
  intros o Ho key' v'. cbn. intros [_ Hv]%lookup_delete_Some. by apply (Ho key').
Qed.

Lemma safe_alloc (o : object) :
  fresh_object base o → safe base (alloc o) (fun l => (base <= l)%nat).
Proof.
  intros Ho h [Hlen Hh]. cbn. split; [|split].
  - split; [rewrite length_app; lia|].
    intros l o' Hl. destruct (decide (l < length h)%nat) as [Hlt|Hge].
    + rewrite lookup_app_l by done. by apply Hh.
    + rewrite lookup_app_r by lia. destruct (l - length h)%nat; [|done].
      by intros [= <-].
  - intros l Hl. apply lookup_app_l. lia.
  - by intros l [= <-].
Qed.

Lemma fresh_object_empty (a : bool) (n : nat) : fresh_object base (Object a n ∅).
Proof. by intros key v. Qed.

Lemma fresh_object_singleton (key : string) (v : hval) :
  fresh base v → fresh_object base (Object false 0 {[key := v]}).
Proof. intros Hv key' v'. cbn. by intros [_ <-]%lookup_singleton_Some. Qed.

Lemma safe_for_each (ks : list string) (body : string → M unit) :
  (∀ key, safe base (body key) (fun _ => True)) →
  safe base (for_each ks body) (fun _ => True).
Proof.
  intros Hbody. induction ks as [|key ks IH]; cbn [for_each].
  - by apply safe_ret.
  - eapply safe_bind; [apply Hbody|]. by intros _ _.
Qed.

Lemma safe_all_m (ks : list string) (test : string → M bool) :
  (∀ key, safe base (test key) (fun _ => True)) →
  safe base (all_m ks test) (fun _ => True).
Proof.
  intros Htest. induction ks as [|key ks IH]; cbn [all_m].
  - by apply safe_ret.
  - eapply safe_bind; [apply Htest|]. intros [] _; [done|by apply safe_ret].
Qed.

Lemma safe_when (b : bool) (c : M unit) :
  safe base c (fun _ => True) → safe base (when b c) (fun _ => True).
Proof. intros Hc. destruct b; [done|by apply safe_ret]. Qed.


Ltac safe_side :=
  cbn [fresh] in *;
  first [done | lia
        | match goal with |- fresh _ (match ?ks with [] => _ | _ => _ end) => by destruct ks end
        | auto].

Ltac safe_leaf :=
  first
    [ apply safe_getp | apply safe_prop | apply safe_read
    | apply safe_length_of
    | apply safe_alloc; first [apply fresh_object_empty | apply fresh_object_singleton]; safe_side ].

Ltac safe_go rec :=
  cbn [fresh] in *;
  lazymatch goal with
  | |- safe _ (mret _) _ => apply safe_ret; safe_side
  | |- safe _ (throw _) _ => apply safe_throw
  | |- safe _ (when _ _) _ => apply safe_when; safe_go rec
  | |- safe _ (for_each _ _) _ => apply safe_for_each; intros ?; safe_go rec
  | |- safe _ (all_m _ _) _ => apply safe_all_m; intros ?; safe_go rec
  | |- safe _ (write _ _ _) _ => apply safe_write; safe_side
  | |- safe _ (remove _ _) _ => apply safe_remove; safe_side
  | |- safe _ (hasp _ _) _ => apply safe_hasp
  | |- safe _ (keys _) _ => apply safe_keys
  | |- safe _ (props _) _ => apply safe_props
  | |- safe _ (isArray _) _ => apply safe_isArray
  | |- safe _ (@mbind _ _ ?A _ _ ?c) _ =>
      lazymatch A with
      | hval => eapply safe_bind; [first [safe_leaf | rec] | intros ? ?; safe_go rec]
      | nat => eapply safe_bind; [first [safe_leaf | rec] | intros ? ?; safe_go rec]
      | object => eapply safe_bind; [first [safe_leaf | rec] | intros ? ?; safe_go rec]
      | _ => eapply (safe_bind c _ (fun _ => True)); [safe_go rec | intros ? _; safe_go rec]
      end
  | |- safe _ (if ?b then _ else _) _ => destruct b; safe_go rec
  | |- safe _ (match ?v with HPrim _ => _ | HRef _ => _ end) _ => destruct v; safe_go rec
  | |- _ => first [safe_leaf | rec]
  end.

Lemma safe_deepCopy (fuel : nat) (obj : hval) :
  safe base (deepCopy fuel obj) (fresh base).
Proof.
  revert obj. induction fuel as [|fuel IH]; intros obj; cbn [deepCopy].
  - apply safe_throw.
  - safe_go ltac:(apply IH).
Qed.

Lemma safe_underscorizeArrays (fuel : nat) (mask : hval) :
  fresh base mask → safe base (underscorizeArrays fuel mask) (fresh base).
Proof.
  revert mask. induction fuel as [|fuel IH]; intros mask Hm; cbn [underscorizeArrays].
  - apply safe_throw.
  - safe_go ltac:(apply IH; safe_side).
Qed.

Lemma safe_new_ObjectMask (fuel : nat) (mask : hval) :
  safe base (new_ObjectMask fuel mask) (fun this => (base <= this)%nat).
Proof.
  unfold new_ObjectMask.
  safe_go ltac:(first [apply safe_deepCopy | apply safe_underscorizeArrays; safe_side]).
Qed.

Lemma safe_clone (fuel : nat) (this : loc) :
  safe base (clone fuel this) (fun c => (base <= c)%nat).
Proof.
  unfold clone.
  safe_go ltac:(first [apply safe_deepCopy | apply safe_new_ObjectMask]).
Qed.

Lemma safe_tree_of (x : arg) : safe base (tree_of x) (fun _ => True).
Proof.
  destruct x; cbn [tree_of]; [by apply safe_ret|].
  eapply safe_mono; [apply safe_getp|done].
Qed.

Lemma safe_deepEquals (fuel : nat) (a b : hval) :
  safe base (deepEquals fuel a b) (fun _ => True).
Proof.
  revert a b. induction fuel as [|fuel IH]; intros a b; cbn [deepEquals].
  - apply safe_throw.
  - destruct a, b; safe_go ltac:(apply IH).
Qed.

Lemma safe_isEqual (fuel : nat) (a b : hval) :
  safe base (isEqual fuel a b) (fun _ => True).
Proof.
  revert a b. induction fuel as [|fuel IH]; intros a b; cbn [isEqual].
  - apply safe_throw.
  - destruct a, b; safe_go ltac:(apply IH).
Qed.

Lemma safe_addMask (fuel : nat) (resultMask newMask : hval) :
  fresh base resultMask →
  safe base (addMask fuel resultMask newMask) (fresh base).
Proof.
  revert resultMask newMask.
  induction fuel as [|fuel IH]; intros resultMask newMask Hr; cbn [addMask].
  - apply safe_throw.
  - safe_go ltac:(first [apply safe_deepCopy | apply safe_deepEquals
                        | apply IH; safe_side]).
Qed.

Lemma safe_sanitizeFalsies (l : loc) :
  (base <= l)%nat → safe base (sanitizeFalsies l) (fun _ => True).
Proof. intros Hl. unfold sanitizeFalsies. safe_go idtac. Qed.

Lemma safe_andMask (fuel : nat) (resultMask newMask : hval) :
  fresh base resultMask →
  safe base (andMask fuel resultMask newMask) (fresh base).
Proof.
  revert resultMask newMask.
  induction fuel as [|fuel IH]; intros resultMask newMask Hr; cbn [andMask].
  - apply safe_throw.
  - safe_go ltac:(first [apply safe_deepCopy | apply safe_sanitizeFalsies; safe_side
                        | apply IH; safe_side]).
Qed.

Lemma safe_invert (fuel : nat) (mask : hval) :
  safe base (invert fuel mask) (fresh base).
Proof.
  revert mask. induction fuel as [|fuel IH]; intros mask; cbn [invert].
  - apply safe_throw.
  - safe_go ltac:(apply IH).
Qed.

Lemma safe_assign (node : hval) (key : string) (v : hval) :
  fresh base node → fresh base v → safe base (assign node key v) (fun _ => True).
Proof.
  intros Hn Hv. destruct node as [[]|l]; cbn [assign];
    first [apply safe_throw | by apply safe_ret | by apply safe_write].
Qed.

Lemma safe_subtract (fuel : nat) (a b : hval) :
  fresh base a → safe base (subtract fuel a b) (fresh base).
Proof.
  revert a b. induction fuel as [|fuel IH]; intros a b Ha; cbn [subtract].
  - apply safe_throw.
  - safe_go ltac:(first [apply safe_invert | apply safe_isEqual
                        | apply safe_sanitizeFalsies; safe_side
                        | apply safe_assign; safe_side
                        | apply IH; safe_side]).
Qed.


Lemma safe_wrap (fuel : nat) (resultMask : hval) :
  safe base (wrap fuel resultMask) (fun this => (base <= this)%nat).
Proof. apply safe_new_ObjectMask. Qed.

Lemma safe_addMasks_from (fuel : nat) (resultMask : hval) (masks : list arg) :
  fresh base resultMask →
  safe base (addMasks_from fuel resultMask masks) (fun this => (base <= this)%nat).
Proof.
  revert resultMask. induction masks as [|curArg rest IH]; intros resultMask Hr;
    cbn [addMasks_from].
  - apply safe_wrap.
  - eapply safe_bind; [apply safe_tree_of|]. intros newMask _.
    eapply safe_bind; [by apply safe_addMask|]. intros r Hfresh.
    destruct (is_true_h r); [apply safe_new_ObjectMask|by apply IH].
Qed.

Lemma safe_andMasks_from (fuel : nat) (resultMask : hval) (masks : list arg) :
  fresh base resultMask →
  safe base (andMasks_from fuel resultMask masks) (fun this => (base <= this)%nat).
Proof.
  revert resultMask. induction masks as [|curArg rest IH]; intros resultMask Hr;
    cbn [andMasks_from].
  - apply safe_wrap.
  - eapply safe_bind; [apply safe_tree_of|]. intros newMask _.
    eapply safe_bind; [by apply safe_andMask|]. intros r Hfresh.
    destruct (is_false_h r); [apply safe_new_ObjectMask|by apply IH].
Qed.

Lemma safe_invertMask (fuel : nat) (mask : arg) :
  safe base (invertMask fuel mask) (fun this => (base <= this)%nat).
Proof.
  unfold invertMask.
  eapply safe_bind; [apply safe_tree_of|]. intros m _.
  eapply safe_bind; [apply safe_invert|]. intros r _.
  apply safe_new_ObjectMask.
Qed.

Lemma safe_subtractMask (fuel : nat) (this : loc) (mask : arg) :
  (base <= this)%nat →
  safe base (subtractMask fuel this mask) (fun r => (base <= r)%nat).
Proof.
  intros Hthis. unfold subtractMask.
  eapply safe_bind; [apply safe_getp|]. intros a Ha.
  eapply safe_bind; [apply safe_tree_of|]. intros b _.
  eapply safe_bind; [apply safe_subtract; auto|]. intros r Hr.
  eapply safe_bind; [by apply safe_write|]. intros _ _.
  by apply safe_ret.
Qed.

Lemma safe_subtractMasks (fuel : nat) (min sub : arg) :
  safe base (subtractMasks fuel min sub) (fun r => (base <= r)%nat).
Proof.
  unfold subtractMasks.
  eapply safe_bind with (Q := fun _ => True).
  { destruct min as [v|this].
    - eapply safe_mono; [apply safe_deepCopy|done].
    - eapply safe_bind; [apply safe_clone|]. intros c Hc.
      eapply safe_mono; [apply safe_getp|done]. }
  intros mask _.
  eapply safe_bind; [apply safe_new_ObjectMask|]. intros this Hthis.
  by apply safe_subtractMask.
Qed.

Lemma reach_fresh (h : heap) (v : hval) (l : loc) :
  closed_above base h → fresh base v → reach h v l → (base <= l)%nat.
Proof.
  intros [_ Hh] Hv Hreach. induction Hreach as [l|l o key v l' Ho Hkey _ IH]; [done|].
  apply IH. by apply (Hh l o Hv Ho key).
Qed.

End frame.

Lemma closed_above_start (h : Heap.heap) : Heap.closed_above (length h) h.
Proof.
  split; [done|]. intros l o Hl Ho. apply lookup_lt_Some in Ho. lia.
Qed.

Lemma safe_built_apart (c : Heap.M Heap.loc) (h : Heap.heap) :
  Heap.safe (length h) c (fun this => (length h <= this)%nat) →
  Heap.built_apart h (c h).
Proof.
  intros Hc. destruct (Hc h (closed_above_start h)) as (Hclosed & Hsame & Hres).
  split; [done|]. intros this l Hok Hreach.
  eapply reach_fresh; [done| |done]. by apply Hres.
Qed.

(** In a store without dangling references, a tree that existed before the
    call reads the same after it. *)
Lemma tree_same_below (n : nat) (h h' : Heap.heap) (v : Heap.hval) :
  Heap.closed h → Heap.same_below (length h) h h' → Heap.inside h v →
  Heap.tree n h' v = Heap.tree n h v.
Proof.
  intros Hwf Hsame. revert v. induction n as [|n IH]; intros [p|l] Hv; try done.
  cbn [Heap.tree]. rewrite (Hsame l Hv).
  destruct (lookup_lt_is_Some_2 h l Hv) as [o Ho]. rewrite Ho. simpl.
  destruct (Heap.is_array o).
  - f_equal. apply list_fmap_ext. intros i key _. apply IH.
    destruct (Heap.fields o !! key) as [[p|l']|] eqn:Hkey; simpl; try done.
    by apply (Hwf l o key).
  - f_equal. apply map_fmap_ext. intros key [p|l'] Hkey; [by apply IH|].
    apply IH. by apply (Hwf l o key).
Qed.

(** The store model computes what the tree model computes: the four
    operations on two stored masks, one of them passed as an instance, and
    the operands read back afterwards. *)
Example static_operations_on_a_store :
  let m1 := VObj {[ "str1" := VTrue; "obj" := VObj {[ "foo" := VTrue; "bar" := VTrue ]} ]} in
  let m2 := VObj {[ "str1" := VTrue; "obj" := VObj {[ "_" := VTrue; "foo" := VFalse ]} ]} in
  let m3 := VObj {[ "a" := VArr [VObj {[ "x" := VTrue ]}]; "b" := VFalse ]} in
  ((a ← Heap.store m1; b ← Heap.store m2; c ← Heap.store m3;
   i ← Heap.new_ObjectMask 8 b;
   r1 ← Heap.addMasks 8 [Heap.Raw a; Heap.Instance i];
   r2 ← Heap.andMasks 8 [Heap.Raw a; Heap.Instance i];
   r3 ← Heap.subtractMasks 8 (Heap.Raw a) (Heap.Instance i);
   r4 ← Heap.invertMask 8 (Heap.Raw c);
   t1 ← Heap.tree_of (Heap.Instance r1); t2 ← Heap.tree_of (Heap.Instance r2);
   t3 ← Heap.tree_of (Heap.Instance r3); t4 ← Heap.tree_of (Heap.Instance r4);
   ti ← Heap.tree_of (Heap.Instance i);
   ((fun h => (Ok (Heap.tree 8 h <$> [a; b; c; ti; t1; t2; t3; t4]), h))
      : Heap.M (list value))) []).1
  = Ok [m1; m2; m3; m2; addMasks [m1; m2]; andMasks [m1; m2];
        VObj {[ "obj" := VObj {[ "foo" := VTrue ]} ]}; invertMask m3].
Proof. vm_compute. reflexivity. Qed.

(** [addMask] itself, which the static operations call on their own copy,
    does update its first argument in place. *)
Example addMask_updates_its_accumulator :
  let m1 := VObj {[ "foo" := VTrue ]} in
  let m2 := VObj {[ "bar" := VTrue ]} in
  ((a ← Heap.store m1; b ← Heap.store m2;
   Heap.addMask 8 a b;;
   ((fun h => (Ok (Heap.tree 8 h <$> [a; b]), h)) : Heap.M (list value))) []).1
  = Ok [VObj {[ "foo" := VTrue; "bar" := VTrue ]}; m2].
Proof. vm_compute. reflexivity. Qed.

(** ** C10 *)

(** C10: a call of [addMasks], [andMasks], [subtractMasks] or [invertMask],
    on any operands (raw trees or mask instances), in any store and whatever
    the outcome, leaves every object that existed before the call as it was,
    and the instance it returns is built only from objects allocated during
    the call. *)
Theorem static_operations_leave_operands_unchanged
    (fuel : nat) (masks : list Heap.arg) (min sub mask : Heap.arg) (h : Heap.heap) :
  Heap.built_apart h (Heap.addMasks fuel masks h)
  ∧ Heap.built_apart h (Heap.andMasks fuel masks h)
  ∧ Heap.built_apart h (Heap.subtractMasks fuel min sub h)
  ∧ Heap.built_apart h (Heap.invertMask fuel mask h).
Proof.
  split; [|split; [|split]]; apply safe_built_apart.
  - by apply safe_addMasks_from.
  - by apply safe_andMasks_from.
  - apply safe_subtractMasks.
  - apply safe_invertMask.
Qed.

(** * Further properties *)

(** ** Path resolution *)

Lemma walk_app (mask : value) (ks ks' : list string) :
  walk mask (ks ++ ks') = walk (walk mask ks) ks'.
Proof.
  revert mask. induction ks as [|k ks IH]; intros mask; [done|].
  cbn [app walk]. destruct (isScalar mask) eqn:Hs; [|apply IH].
  by rewrite walk_scalar.
Qed.

(** X1: a mask that allows a path allows every path below it: [checkPath] stops
    at the first scalar it meets. *)
Theorem checkPath_below (mask : value) (p q : string) :
  checkPath mask p = true ->
  checkPath mask (p ++ "." ++ q) = true.
Proof.
  rewrite !checkPath_walk, split_dots_app_dot, walk_app.
  intros Hp. destruct (walk mask (split_dots p)) as [| |[|]| | | | |]; try done.
  by rewrite walk_scalar.
Qed.

Lemma checkPath_below_witness :
  checkPath (VObj {[ "a" := VTrue ]}) ("a" ++ "." ++ "b.c") = true.
Proof. apply (checkPath_below (VObj {[ "a" := VTrue ]}) "a" "b.c"). reflexivity. Defined.

Lemma mask_tree_walk (ks : list string) (m : value) :
  mask_tree m = true ->
  mask_tree (walk m ks) = true \/ walk m ks = VUndef.
Proof.
  revert m. induction ks as [|k ks IH]; intros m Hm; [by left|].
  destruct (mask_tree_cases m Hm) as [[b ->]|[mm ->]]; [by left|].
  rewrite walk_obj.
  destruct (mm !! k) as [x|] eqn:Hx.
  { apply IH. by eapply (mask_tree_lookup mm). }
  destruct (mm !! wildcard) as [w|] eqn:Hw.
  { apply IH. by eapply (mask_tree_lookup mm). }
  right. by rewrite walk_scalar.
Qed.



(** ** The algebra on any number of operands *)

Lemma mask_tree_valWhitelist (v : value) : mask_tree v = true -> valWhitelist v = true.
Proof.
  induction v as [v IH] using value_height_ind. intros Hv.
  destruct (mask_tree_cases v Hv) as [[b ->]|[m ->]]; [done|].
  cbn [valWhitelist]. apply map_fold_andb. intros k x Hk.
  apply IH; [by eapply height_lookup|by eapply (mask_tree_lookup m)].
Qed.

Lemma addMasks_from_spec (masks : list value) (r : value) (ks : list string) :
  proper_mask r = true ->
  Forall (fun m => proper_mask m = true) masks ->
  concrete_segs ks = true ->
  proper_mask (addMasks_from r masks) = true
  /\ allows (addMasks_from r masks) ks
     = allows r ks || existsb (fun m => allows m ks) masks.
Proof.
  intros Hr Hms Hks. revert r Hr.
  induction Hms as [|m masks Hm _ IH]; intros r Hr; cbn [addMasks_from existsb].
  - assert (Hid : ObjectMask (or_false r) = r).
    { destruct (mask_tree_cases r (proper_mask_tree r Hr)) as [[[] ->]|[mm ->]];
        try done.
      cbn [or_false truthy]. apply ObjectMask_id. by apply proper_mask_tree. }
    rewrite Hid, orb_false_r. done.
  - destruct (addMask_spec r m Hr Hm) as [Hp Hallow].
    destruct (is_true (addMask r m)) eqn:Ht.
    + split; [done|].
      assert (Hadd : addMask r m = VTrue) by (by destruct (addMask r m) as [| |[|]| | | | |]).
      specialize (Hallow ks Hks). rewrite Hadd in Hallow.
      rewrite allows_scalar in Hallow by done. cbn in Hallow.
      rewrite (allows_scalar (ObjectMask VTrue)) by done. cbn.
      rewrite orb_assoc, <- Hallow. done.
    + destruct (IH _ Hp) as [IH1 IH2]. split; [done|].
      by rewrite IH2, Hallow, orb_assoc.
Qed.



Lemma andMasks_from_spec (masks : list value) (r : value) (ks : list string) :
  mask_tree r = true ->
  Forall (fun m => mask_tree m = true) masks ->
  concrete_segs ks = true ->
  mask_tree (andMasks_from r masks) = true
  /\ allows (andMasks_from r masks) ks
     = allows r ks && forallb (fun m => allows m ks) masks.
Proof.
  intros Hr Hms Hks. revert r Hr.
  induction Hms as [|m masks Hm _ IH]; intros r Hr; cbn [andMasks_from forallb].
  - assert (Hid : ObjectMask (or_false r) = r).
    { destruct (mask_tree_cases r Hr) as [[[] ->]|[mm ->]]; try done.
      cbn [or_false truthy]. by apply ObjectMask_id. }
    rewrite Hid, andb_true_r. done.
  - destruct (andMask_spec r m Hr Hm) as [Hp Hallow].
    destruct (is_false (andMask r m)) eqn:Ht.
    + split; [done|].
      assert (Hand : andMask r m = VFalse) by (by destruct (andMask r m) as [| |[|]| | | | |]).
      specialize (Hallow ks Hks). rewrite Hand in Hallow.
      rewrite allows_scalar in Hallow by done. cbn in Hallow.
      rewrite (allows_scalar (ObjectMask VFalse)) by done. cbn.
      rewrite andb_assoc, <- Hallow. done.
    + destruct (IH _ Hp) as [IH1 IH2]. split; [done|].
      by rewrite IH2, Hallow, andb_assoc.
Qed.



(** ** Inverting twice *)

Lemma walk_invert_scalar (ks : list string) (m : value) :
  mask_tree m = true ->
  concrete_segs ks = true ->
  isScalar (walk (invert m) ks) = isScalar (walk m ks).
Proof.
  revert m. induction ks as [|k ks IH]; intros m Hm Hks.
  - simpl. by destruct (mask_tree_cases m Hm) as [[b ->]|[mm ->]].
  - apply concrete_segs_cons in Hks as [Hk Hks].
    destruct (mask_tree_cases m Hm) as [[b ->]|[mm ->]]; [by destruct b|].
    simpl invert. rewrite !walk_obj.
    rewrite (invert_wildcard_lookup_ne _ k), invert_wildcard_lookup, !lookup_fmap by done.
    destruct (mm !! k) as [x|] eqn:Hx; cbn [fmap option_fmap option_map] in *.
    { apply IH; [by eapply (mask_tree_lookup mm)|done]. }
    destruct (mm !! wildcard) as [w|] eqn:Hw; cbn [fmap option_fmap option_map] in *.
    + assert (Hwt : mask_tree w = true) by (by eapply (mask_tree_lookup mm)).
      destruct (truthy (invert w)) eqn:Ht.
      * by apply IH.
      * destruct (mask_tree_cases w Hwt) as [[b ->]|[mw ->]]; [|done].
        by rewrite !walk_scalar.
    + by rewrite !walk_scalar.
Qed.

(** X5: inverting a mask in strict form twice gives a mask that decides every
    concrete path as the mask itself does, although the two trees differ in
    general; both inverses are in strict form. *)
Theorem invertMask_twice (m : value) (p : string) :
  mask_tree m = true ->
  concrete p = true ->
  checkPath (invertMask (invertMask m)) p = checkPath m p
  /\ valWhitelist (invertMask m) = true.
Proof.
  intros Hm Hp. unfold invertMask.
  assert (Hi : mask_tree (invert m) = true) by (by apply invert_mask_tree).
  rewrite (ObjectMask_id (invert m)) by done.
  rewrite (ObjectMask_id (invert (invert m))) by (by apply invert_mask_tree).
  split; [|by apply mask_tree_valWhitelist].
  rewrite !checkPath_walk.
  destruct (isScalar (walk m (split_dots p))) eqn:Hs.
  - rewrite walk_invert; [|done|done|by rewrite walk_invert_scalar].
    rewrite walk_invert by done. apply negb_involutive.
  - assert (Hs2 : isScalar (walk (invert (invert m)) (split_dots p)) = false)
      by (by rewrite !walk_invert_scalar).
    destruct (walk m (split_dots p)) as [| |[|]| | | | |]; try done;
      by destruct (walk (invert (invert m)) (split_dots p)) as [| |[|]| | | | |].
Qed.

Lemma invertMask_twice_witness :
  let m := VObj {[ "a" := VObj {[ "b" := VTrue ]}; wildcard := VFalse ]} in
  (checkPath (invertMask (invertMask m)) "a.b" = checkPath m "a.b"
   /\ valWhitelist (invertMask m) = true)
  /\ invertMask (invertMask m) <> m.
Proof.
  intros m. split.
  - apply (invertMask_twice m "a.b"); reflexivity.
  - vm_compute. discriminate.
Defined.

(** ** Filtering and checking *)

Lemma no_undefined_obj (m : gmap string value) :
  no_undefined (VObj m) = true <-> map_Forall (fun _ x => no_undefined x = true) m.
Proof. simpl. apply map_fold_andb. Qed.

Lemma no_undefined_defined (v : value) : no_undefined v = true -> defined v = Some v.
Proof. by destruct v. Qed.

Lemma defined_Some (x v : value) : defined x = Some v -> x = v.
Proof. destruct x; simpl; congruence. Qed.

Lemma length_omap_le {A B : Type} (f : A -> option B) (l : list A) :
  length (omap f l) <= length l.
Proof.
  induction l as [|x l IH]; [done|].
  change (omap f (x :: l)) with (match f x with Some y => y :: omap f l | None => omap f l end).
  destruct (f x); cbn [length]; lia.
Qed.

Lemma omap_defined_same (G : nat -> value -> value * list string) (l : list value) :
  omap (fun rv => defined rv.1) (imap G l) = l ->
  forall j v, l !! j = Some v -> (G j v).1 = v.
Proof.
  revert G. induction l as [|c l IH]; intros G Heq j v Hj; [done|].
  cbn [imap] in Heq. simpl in Heq.
  destruct (defined (G 0 c).1) as [x|] eqn:Hdef; simpl in Heq.
  - injection Heq as -> Heq. destruct j as [|j].
    + injection Hj as <-. by apply defined_Some.
    + apply (IH (G ∘ S) Heq j v Hj).
  - exfalso. apply (f_equal length) in Heq. cbn [length] in Heq. fold (@omap list _) in Heq.
    pose proof (length_omap_le (fun rv : value * list string => defined rv.1) (imap (G ∘ S) l)) as Hlen.
    rewrite length_imap in Hlen. lia.
Qed.

Lemma filterDeep_kept (v : value) :
  forall (mask : value) (p : string),
    no_undefined v = true ->
    (filterDeep v mask p).1 = v <-> forall ks, ~ masked_at v mask ks.
Proof.
  induction v as [v IH] using value_height_ind. intros mask p Hv.
  destruct (is_true mask) eqn:Ht.
  { rewrite filterDeep_true by done. split; [|done].
    intros _ ks Hks. inversion Hks; congruence. }
  destruct (truthy mask && negb (isScalar mask)) eqn:Hm.
  2:{ rewrite filterDeep_out by auto. cbn [fst]. split.
      - intros <-. done.
      - intros Hno. destruct (Hno []). constructor; auto. }
  destruct (isScalar v) eqn:Hs.
  { rewrite filterDeep_out by auto. cbn [fst]. split.
    - intros <-. done.
    - intros Hno. destruct (Hno []). constructor; auto. }
  destruct v as [| | | | | |l|m]; try done.
  - rewrite filterDeep_arr by done. cbn beta.
    rewrite (filter_elems_foldl (fun j c =>
      filterDeep c (mask_at mask (idx j)) (sub_path p (idx j)))).
    cbn [fst snd app Nat.add]. split.
    + intros [= Heq] ks Hks.
      inversion Hks as [? ? ? [?|?]| |l' mask' i c ks' _ _ Hc Hin]; subst; try congruence.
      pose proof (omap_defined_same _ l Heq i c Hc) as Hsame. cbn beta in Hsame.
      assert (Hh : height c < height (VArr l)).
      { apply height_elem. by eapply list_elem_of_lookup_2. }
      assert (Hcu : no_undefined c = true).
      { cbn [no_undefined] in Hv. rewrite forallb_forall in Hv.
        apply Hv, list_elem_of_In. by eapply list_elem_of_lookup_2. }
      by apply (proj1 (IH c Hh _ _ Hcu) Hsame ks').
    + intros Hno. f_equal. apply omap_defined_fixed. intros j c Hc.
      assert (Hcu : no_undefined c = true).
      { cbn [no_undefined] in Hv. rewrite forallb_forall in Hv.
        apply Hv, list_elem_of_In. by eapply list_elem_of_lookup_2. }
      cbn beta.
      assert ((filterDeep c (mask_at mask (idx j)) (sub_path p (idx j))).1 = c) as ->.
      { apply IH; [apply height_elem; by eapply list_elem_of_lookup_2|done|].
        intros ks Hks. apply (Hno (idx j :: ks)). by econstructor. }
      by apply no_undefined_defined.
  - rewrite filterDeep_obj by done. cbn beta. cbn [fst snd].
    pose proof (proj1 (no_undefined_obj m) Hv) as Hch. split.
    + intros [= Heq] ks Hks.
      inversion Hks as [? ? ? [?|?]|m' mask' k c ks' _ _ Hc Hin|]; subst; try congruence.
      pose proof (f_equal (fun r => r !! k) Heq) as Hk. cbn beta in Hk.
      rewrite (filter_props_lookup (fun key child =>
        filterDeep child (mask_at mask key) (sub_path p key))), Hc in Hk.
      cbn [mbind option_bind] in Hk. apply defined_Some in Hk.
      assert (Hh : height c < height (VObj m)) by (by eapply height_lookup).
      by apply (proj1 (IH c Hh _ _ (Hch k c Hc)) Hk ks').
    + intros Hno. f_equal. apply map_eq. intros k.
      rewrite (filter_props_lookup (fun key child =>
        filterDeep child (mask_at mask key) (sub_path p key))).
      destruct (m !! k) as [c|] eqn:Hc; cbn [mbind option_bind]; [|done].
      assert ((filterDeep c (mask_at mask k) (sub_path p k)).1 = c) as ->.
      { apply IH; [by eapply height_lookup|by apply (Hch k)|].
        intros ks Hks. apply (Hno (k :: ks)). by econstructor. }
      apply no_undefined_defined. by apply (Hch k).
Qed.

(** X6: [checkFields] accepts a value exactly when [filterObject] returns it
    whole, for a value that holds no [undefined] (a property that is
    [undefined] is dropped without being reported). *)
Theorem checkFields_iff_filterObject_keeps (mask obj : value) :
  no_undefined obj = true ->
  checkFields mask obj = true <-> filterObject mask obj = obj.
Proof.
  intros Hobj. unfold checkFields, getMaskedOutFields, filterObject.
  rewrite (filterDeep_kept obj mask "" Hobj), Nat.eqb_eq, length_zero_iff_nil.
  split.
  - intros Hnil ks Hks.
    assert (Hin : foldl sub_path "" ks ∈ (filterDeep obj mask "").2).
    { apply filterDeep_hooks. eauto. }
    rewrite Hnil in Hin. by apply not_elem_of_nil in Hin.
  - intros Hno. destruct (filterDeep obj mask "").2 as [|q qs] eqn:Hq; [done|].
    assert (Hin : q ∈ (filterDeep obj mask "").2) by (rewrite Hq; left).
    apply filterDeep_hooks in Hin as (ks & Hks & _). by destruct (Hno ks).
Qed.

Lemma checkFields_iff_filterObject_keeps_witness :
  let mask := VObj {[ "a" := VTrue; "b" := VObj {[ wildcard := VTrue; "c" := VFalse ]} ]} in
  (checkFields mask (VObj {[ "a" := VArr [VNum 1; VNull]; "b" := VObj {[ "d" := VStr "x" ]} ]}) = true
   <-> filterObject mask (VObj {[ "a" := VArr [VNum 1; VNull]; "b" := VObj {[ "d" := VStr "x" ]} ]})
       = VObj {[ "a" := VArr [VNum 1; VNull]; "b" := VObj {[ "d" := VStr "x" ]} ]})
  /\ (checkFields mask (VObj {[ "b" := VObj {[ "c" := VNum 2 ]} ]}) = true
      <-> filterObject mask (VObj {[ "b" := VObj {[ "c" := VNum 2 ]} ]})
          = VObj {[ "b" := VObj {[ "c" := VNum 2 ]} ]}).
Proof.
  intros mask. split.
  - apply (checkFields_iff_filterObject_keeps mask). reflexivity.
  - apply (checkFields_iff_filterObject_keeps mask). reflexivity.
Defined.

(** X7: [checkDottedFields] accepts a dotted object exactly when
    [getDottedMaskedOutFields] reports nothing, and exactly when
    [filterDottedObject] returns every entry of it. *)
Theorem checkDottedFields_iff (mask : value) (d : gmap string value) :
  (checkDottedFields mask d = true <-> getDottedMaskedOutFields mask d = [])
  /\ (checkDottedFields mask d = true <-> filterDottedObject mask d = d).
Proof.
  unfold checkDottedFields, getDottedMaskedOutFields, filterDottedObject.
  rewrite keys_all_true. split; split.
  - intros Hall. destruct (filterDottedObject_hook mask d).2 as [|q qs] eqn:Hq; [done|].
    assert (Hin : q ∈ (filterDottedObject_hook mask d).2) by (rewrite Hq; left).
    apply filterDottedObject_hook_spec in Hin as [Hd Hc].
    by rewrite (Hall q Hd) in Hc.
  - intros Hnil k Hk. destruct (checkPath mask k) eqn:Hc; [done|].
    assert (Hin : k ∈ (filterDottedObject_hook mask d).2)
      by (by apply filterDottedObject_hook_spec).
    rewrite Hnil in Hin. by apply not_elem_of_nil in Hin.
  - intros Hall. apply map_eq. intros k.
    rewrite (proj1 (filterDottedObject_hook_spec mask d k)).
    destruct (d !! k) as [x|] eqn:Hx; [|by destruct (checkPath mask k)].
    by rewrite (Hall k) by (by rewrite Hx).
  - intros Heq k [x Hk]. pose proof (proj1 (filterDottedObject_hook_spec mask d k)) as Hl.
    rewrite Heq, Hk in Hl. by destruct (checkPath mask k).
Qed.

(** ** Adding and removing a field *)

Lemma setPath_segs_empty (k : string) (ks : list string) (v : value) :
  setPath_segs (VObj ∅) (k :: ks) v
  = VObj {[ k := match ks with [] => v | _ => setPath_segs (VObj ∅) ks v end ]}.
Proof.
  destruct ks as [|k' ks]; [by rewrite setPath_segs_last, <- insert_empty|].
  rewrite setPath_segs_step. cbn [enum_props]. rewrite get_obj, lookup_empty.
  cbn [default isScalar]. by rewrite insert_empty.
Qed.

(** The object [setPath({}, path, true)] passes [checkFields] exactly when
    the mask allows the path. *)
Lemma single_path_hooks (ks : list string) :
  ks ≠ [] ->
  forall (mask : value) (path : string),
    (filterDeep (setPath_segs (VObj ∅) ks VTrue) mask path).2 = []
    <-> allows mask ks = true.
Proof.
  induction ks as [|k ks IH]; [done|]. intros _ mask path.
  rewrite setPath_segs_empty.
  destruct (is_true mask) eqn:Ht.
  { rewrite filterDeep_true by done. unfold allows.
    destruct mask as [| |[|]| | | | |]; try done. }
  destruct (truthy mask && negb (isScalar mask)) eqn:Hm.
  2:{ rewrite filterDeep_out by auto. rewrite allows_dead by done. done. }
  rewrite filterDeep_obj, allows_mask_at by done. cbn beta.
  rewrite map_fold_singleton. unfold keep_prop. cbn [snd]. rewrite app_nil_r.
  destruct ks as [|k' ks].
  - destruct (is_true (mask_at mask k)) eqn:Hk.
    + rewrite filterDeep_true by done. by unfold allows.
    + rewrite filterDeep_out by auto. unfold allows. cbn [walk]. by rewrite Hk.
  - by apply IH.
Qed.

Lemma checkFields_single_path (mask : value) (p : string) :
  checkFields mask (setPath (VObj ∅) p VTrue) = allows mask (split_dots p).
Proof.
  unfold checkFields, getMaskedOutFields, setPath.
  pose proof (single_path_hooks (split_dots p) (split_dots_nonempty p) mask "") as H.
  rewrite <- length_zero_iff_nil, <- Nat.eqb_eq in H.
  destruct (allows mask (split_dots p)); [by apply H|].
  destruct (Nat.eqb _ 0); [|done]. by destruct (proj1 H eq_refl).
Qed.

Lemma walk_setPath_segs (ks : list string) :
  ks ≠ [] ->
  forall (cur v : value), walk (setPath_segs cur ks v) ks = v.
Proof.
  induction ks as [|k ks IH]; [done|]. intros _ cur v.
  destruct ks as [|k' ks].
  - rewrite setPath_segs_last, walk_obj. by rewrite lookup_insert_eq.
  - rewrite setPath_segs_step, walk_obj. rewrite lookup_insert_eq. by apply IH.
Qed.



(** X9: on a mask whose tree is a primitive other than [true], such as the mask
    [false] that an empty sum or a failed intersection returns, [addField]
    cannot assign the path and the call ends in a [TypeError], whatever the
    path. *)
Theorem addField_on_primitive_mask (mask : value) (path : string) :
  isScalar mask = true ->
  is_true mask = false ->
  (forall t, mask <> VDate t) ->
  addField mask path = Throw TypeError.
Proof.
  intros Hs Ht Hd. unfold addField. rewrite checkFields_single_path.
  rewrite allows_scalar, Ht by done.
  destruct mask; try done. by destruct (Hd t).
Qed.

Lemma addField_on_primitive_mask_witness :
  addField (andMasks [VObj {[ "a" := VTrue ]}; VObj {[ "b" := VTrue ]}]) "a" = Throw TypeError
  /\ addField (addMasks []) "a.b" = Throw TypeError.
Proof.
  split.
  - apply addField_on_primitive_mask; [reflexivity|reflexivity|by intros t].
  - apply addField_on_primitive_mask; [reflexivity|reflexivity|by intros t].
Defined.

(** X10: [removeField] on a path the mask does not allow leaves the tree as it
    is, unless the path is, or ends in, the wildcard. *)
Theorem removeField_not_allowed (mask : value) (path : string) :
  String.eqb path "_" || String.eqb (slice_last2 path) "._" = false ->
  checkPath mask path = false ->
  removeField mask path = Ok mask.
Proof.
  intros Hw Hc. unfold removeField. rewrite Hw, checkFields_single_path.
  unfold allows. by rewrite <- checkPath_walk, Hc.
Qed.

Lemma removeField_not_allowed_witness :
  removeField (VObj {[ "a" := VObj {[ "b" := VTrue ]} ]}) "a.c"
  = Ok (VObj {[ "a" := VObj {[ "b" := VTrue ]} ]}).
Proof. apply removeField_not_allowed; reflexivity. Defined.

Lemma lookup_path_allows (pre rest : list string) (t : value) :
  lookup_path t pre = Some VTrue -> allows t (pre ++ rest) = true.
Proof.
  revert t. induction pre as [|k pre IH]; intros t Ht.
  - injection Ht as ->. by rewrite allows_scalar.
  - destruct t as [| | | | | | |m]; try done. cbn [lookup_path] in Ht.
    destruct (m !! k) as [c|] eqn:Hc; [|done]. cbn [mbind option_bind] in Ht.
    cbn [app]. unfold allows. rewrite walk_obj, Hc. by apply IH.
Qed.

Lemma remove_loop_explicit (pre rest : list string) :
  pre ≠ [] ->
  forall (m : gmap string value) (fuel : nat),
    lookup_path (VObj m) pre = Some VTrue ->
    height (VObj m) < fuel ->
    remove_loop fuel (VObj m) (pre ++ rest)
    = Ok (setPath_segs (VObj m) pre (wildcard_chain rest)).
Proof.
  induction pre as [|k pre IH]; [done|]. intros _ m fuel Hm Hfuel.
  destruct fuel as [|fuel]; [lia|].
  cbn [lookup_path] in Hm. destruct (m !! k) as [c|] eqn:Hc; [|done].
  cbn [mbind option_bind] in Hm.
  cbn [app remove_loop truthy negb head tail from_option id]. rewrite get_obj, Hc.
  cbn [from_option id].
  destruct pre as [|k' pre].
  - injection Hm as ->. cbn [typeof_object truthy negb andb app].
    rewrite andb_false_r. by rewrite setPath_segs_last.
  - destruct c as [| | | | | | |m']; try done.
    cbn [typeof_object]. rewrite (IH ltac:(done) m' fuel Hm).
    + cbn [mbind outcome_bind assign]. rewrite setPath_segs_step, get_obj, Hc. done.
    + pose proof (height_lookup m k _ Hc). lia.
Qed.

Lemma walk_wildcard_chain (rest : list string) :
  walk (wildcard_chain rest) rest = VFalse.
Proof.
  induction rest as [|b rest IH]; [done|].
  cbn [wildcard_chain]. by rewrite walk_obj, lookup_insert_eq.
Qed.

Lemma wildcard_chain_beside (rest qs : list string) :
  concrete_segs rest = true ->
  diverge rest qs = true ->
  walk (wildcard_chain rest) qs = VTrue.
Proof.
  revert qs. induction rest as [|b rest IH]; intros qs Hc Hd; [done|].
  destruct qs as [|a qs]; [done|].
  apply concrete_segs_cons in Hc as [Hb Hc].
  cbn [diverge] in Hd. cbn [wildcard_chain]. rewrite walk_obj.
  destruct (String.eqb b a) eqn:Hba.
  - apply String.eqb_eq in Hba as <-. rewrite lookup_insert_eq. by apply IH.
  - apply String.eqb_neq in Hba.
    rewrite (lookup_insert_ne _ b a), (lookup_insert_ne _ b wildcard) by done.
    rewrite lookup_singleton_eq.
    destruct (decide (a = wildcard)) as [->|Ha].
    + rewrite lookup_singleton_eq. by rewrite walk_scalar.
    + rewrite lookup_singleton_ne by done. by rewrite walk_scalar.
Qed.

Lemma setPath_segs_beside (pre rest : list string) :
  pre ≠ [] ->
  forall (m : gmap string value) (qs : list string),
    lookup_path (VObj m) pre = Some VTrue ->
    concrete_segs (pre ++ rest) = true ->
    diverge (pre ++ rest) qs = true ->
    is_true (walk (setPath_segs (VObj m) pre (wildcard_chain rest)) qs)
    = is_true (walk (VObj m) qs).
Proof.
  induction pre as [|k pre IH]; [done|]. intros _ m qs Hm Hc Hd.
  destruct qs as [|a qs]; [done|].
  cbn [app] in Hc, Hd. apply concrete_segs_cons in Hc as [Hk Hc].
  cbn [lookup_path] in Hm. destruct (m !! k) as [c|] eqn:Hck; [|done].
  cbn [mbind option_bind] in Hm. cbn [diverge] in Hd.
  assert (Hres : exists x, setPath_segs (VObj m) (k :: pre) (wildcard_chain rest)
                           = VObj (<[k := x]> m)
                   /\ (String.eqb k a = true ->
                       is_true (walk x qs) = is_true (walk c qs))).
  { destruct pre as [|k' pre].
    - eexists. split; [apply setPath_segs_last|]. intros Hka. rewrite Hka in Hd.
      injection Hm as ->. rewrite wildcard_chain_beside by done.
      by rewrite walk_scalar.
    - eexists. split; [apply setPath_segs_step|]. intros Hka. rewrite Hka in Hd.
      rewrite get_obj, Hck. cbn [from_option id].
      destruct c as [| | | | | | |m']; try done. cbn [isScalar].
      by apply IH. }
  destruct Hres as (x & -> & Hx). rewrite !walk_obj.
  destruct (String.eqb k a) eqn:Hka.
  - apply String.eqb_eq in Hka as <-. rewrite lookup_insert_eq, Hck. by apply Hx.
  - apply String.eqb_neq in Hka.
    by rewrite (lookup_insert_ne _ k a), (lookup_insert_ne _ k wildcard) by done.
Qed.



(** ** Reading, writing and deleting at a path *)

Lemma array_free_obj (m : gmap string value) :
  array_free (VObj m) = true <-> map_Forall (fun _ x => array_free x = true) m.
Proof. simpl. apply map_fold_andb. Qed.

Lemma array_free_empty : array_free (VObj ∅) = true.
Proof. apply array_free_obj, map_Forall_empty. Qed.

Lemma array_free_skip (v : value) : array_free v = true -> skip_arrays v = v.
Proof. by destruct v. Qed.

Lemma getPath_segs_scalar (skip : bool) (v : value) (ks : list string) :
  isScalar v = true -> ks ≠ [] -> getPath_segs skip v ks = VUndef.
Proof.
  intros Hv Hks. destruct ks as [|k ks]; [done|]. cbn [getPath_segs].
  assert (skip_arrays v = v) as -> by (by destruct v).
  destruct (skip && negb (all_digits k)); by rewrite Hv.
Qed.

Lemma getPath_segs_undefined (skip : bool) (ks : list string) :
  getPath_segs skip VUndef ks = VUndef.
Proof. destruct ks; [done|]. by apply getPath_segs_scalar. Qed.

Lemma getPath_segs_obj (skip : bool) (m : gmap string value) (k : string)
    (ks : list string) :
  getPath_segs skip (VObj m) (k :: ks)
  = getPath_segs skip (default VUndef (m !! k)) ks.
Proof.
  cbn [getPath_segs].
  destruct (skip && negb (all_digits k)); cbn [skip_arrays isScalar]; by rewrite get_obj.
Qed.

Lemma getPath_segs_empty (skip : bool) (ks : list string) :
  ks ≠ [] -> getPath_segs skip (VObj ∅) ks = VUndef.
Proof.
  destruct ks as [|k ks]; [done|]. intros _.
  by rewrite getPath_segs_obj, lookup_empty, getPath_segs_undefined.
Qed.

Lemma diverge_nonempty (ps qs : list string) : diverge ps qs = true -> qs ≠ [].
Proof. destruct ps, qs; done. Qed.

Lemma getPath_setPath_segs (skip : bool) (ks : list string) :
  ks ≠ [] ->
  forall cur v : value, getPath_segs skip (setPath_segs cur ks v) ks = v.
Proof.
  induction ks as [|k ks IH]; [done|]. intros _ cur v.
  destruct ks as [|k' ks].
  - rewrite setPath_segs_last, getPath_segs_obj. by rewrite lookup_insert_eq.
  - rewrite setPath_segs_step, getPath_segs_obj, lookup_insert_eq. by apply IH.
Qed.

Lemma getPath_setPath_beside (skip : bool) (ps : list string) (v : value) :
  ps ≠ [] ->
  forall (m : gmap string value) (qs : list string),
    array_free (VObj m) = true ->
    diverge ps qs = true ->
    getPath_segs skip (setPath_segs (VObj m) ps v) qs = getPath_segs skip (VObj m) qs.
Proof.
  induction ps as [|k ps IH]; [done|]. intros _ m qs Hm Hd.
  destruct qs as [|a qs]; [done|]. cbn [diverge] in Hd.
  assert (Hres : exists x, setPath_segs (VObj m) (k :: ps) v = VObj (<[k := x]> m)
                   /\ (String.eqb k a = true ->
                       getPath_segs skip x qs
                       = getPath_segs skip (default VUndef (m !! k)) qs)).
  { destruct ps as [|k' ps].
    - eexists. split; [apply setPath_segs_last|]. intros Hka. by rewrite Hka in Hd.
    - eexists. split; [apply setPath_segs_step|]. intros Hka. rewrite Hka in Hd.
      rewrite get_obj. destruct (m !! k) as [c|] eqn:Hc; cbn [from_option id].
      + destruct (isScalar c) eqn:Hs.
        * rewrite (getPath_segs_scalar skip c qs Hs (diverge_nonempty _ _ Hd)).
          rewrite (IH ltac:(done) ∅ qs array_free_empty Hd).
          by apply getPath_segs_empty, (diverge_nonempty _ _ Hd).
        * pose proof (proj1 (array_free_obj m) Hm k c Hc) as Hcf.
          destruct c as [| | | | | | |m']; try done. by apply IH.
      + cbn [isScalar]. rewrite (IH ltac:(done) ∅ qs array_free_empty Hd).
        rewrite getPath_segs_undefined.
        by apply getPath_segs_empty, (diverge_nonempty _ _ Hd). }
  destruct Hres as (x & -> & Hx). rewrite !getPath_segs_obj.
  destruct (String.eqb k a) eqn:Hka.
  - apply String.eqb_eq in Hka as <-. rewrite lookup_insert_eq. by apply Hx.
  - apply String.eqb_neq in Hka. by rewrite lookup_insert_ne.
Qed.



Lemma deletePath_segs_step (cur : value) (k k' : string) (ps : list string) :
  deletePath_segs cur (k :: k' :: ps)
  = if nullish cur then Throw TypeError
    else if isScalar (get k cur) then Ok cur
    else child ← deletePath_segs (get k cur) (k' :: ps); Ok (replace_prop cur k child).
Proof. done. Qed.

Lemma deletePath_segs_spec (skip : bool) (ps : list string) :
  ps ≠ [] ->
  forall m : gmap string value,
    array_free (VObj m) = true ->
    exists m',
      deletePath_segs (VObj m) ps = Ok (VObj m')
      /\ array_free (VObj m') = true
      /\ getPath_segs skip (VObj m') ps = VUndef
      /\ forall qs, diverge ps qs = true ->
           getPath_segs skip (VObj m') qs = getPath_segs skip (VObj m) qs.
Proof.
  induction ps as [|k ps IH]; [done|]. intros _ m Hm.
  destruct ps as [|k' ps].
  - exists (delete k m). split; [done|]. split; [|split].
    + apply array_free_obj. intros i x [_ Hi]%lookup_delete_Some.
      by apply (proj1 (array_free_obj m) Hm i).
    + by rewrite getPath_segs_obj, lookup_delete_eq.
    + intros [|a qs] Hd; [done|]. cbn [diverge] in Hd. rewrite !getPath_segs_obj.
      destruct (String.eqb k a) eqn:Hka; [done|].
      apply String.eqb_neq in Hka. by rewrite lookup_delete_ne.
  - rewrite deletePath_segs_step. cbn [nullish]. rewrite get_obj.
    destruct (m !! k) as [c|] eqn:Hc; cbn [from_option id].
    2:{ exists m. split; [done|]. split; [done|]. split; [|done].
        by rewrite getPath_segs_obj, Hc, getPath_segs_undefined. }
    destruct (isScalar c) eqn:Hs.
    { exists m. split; [done|]. split; [done|]. split; [|done].
      rewrite getPath_segs_obj, Hc. by apply getPath_segs_scalar. }
    pose proof (proj1 (array_free_obj m) Hm k c Hc) as Hcf.
    destruct c as [| | | | | | |mc]; try done.
    destruct (IH ltac:(done) mc Hcf) as (mc' & Hdel & Hfree & Hget & Hframe).
    rewrite Hdel. cbn [mbind outcome_bind replace_prop].
    exists (<[k := VObj mc']> m). split; [done|]. split; [|split].
    + apply array_free_obj. intros i x Hi.
      destruct (decide (k = i)) as [<-|Hne].
      * rewrite lookup_insert_eq in Hi. by injection Hi as <-.
      * rewrite lookup_insert_ne in Hi by done. by apply (proj1 (array_free_obj m) Hm i).
    + by rewrite getPath_segs_obj, lookup_insert_eq.
    + intros [|a qs] Hd; [done|]. cbn [diverge] in Hd. rewrite !getPath_segs_obj.
      destruct (String.eqb k a) eqn:Hka.
      * apply String.eqb_eq in Hka as <-. rewrite lookup_insert_eq, Hc. by apply Hframe.
      * apply String.eqb_neq in Hka. by rewrite lookup_insert_ne.
Qed.



(** What [deletePath] cannot delete: the [length] of an array and the
    characters of a string raise a [TypeError], as does any path on [null] or
    [undefined]. *)
Example deletePath_errors :
  deletePath (VObj {[ "a" := VArr [VNum 1] ]}) "a.length" = Throw TypeError
  /\ deletePath (VStr "ab") "0" = Throw TypeError
  /\ deletePath VNull "a.b" = Throw TypeError.
Proof. by vm_compute. Qed.

(** ** The dotted form and [getPath] *)

Lemma indexed_from (l : list value) (n i : nat) :
  (list_to_map (zip (idx <$> seq n (length l)) l) : gmap string value) !! idx (n + i)
  = l !! i.
Proof.
  revert n i. induction l as [|x l IH]; intros n i; [done|].
  cbn [length seq fmap list_fmap zip zip_with list_to_map foldr uncurry].
  destruct i as [|i].
  - rewrite Nat.add_0_r. by rewrite lookup_insert_eq.
  - rewrite lookup_insert_ne by (intros H%idx_inj; lia).
    replace (n + S i) with (S n + i) by lia. apply IH.
Qed.

Lemma indexed_lookup (l : list value) (i : nat) : indexed l !! idx i = l !! i.
Proof. apply (indexed_from l 0 i). Qed.

Lemma get_elem (l : list value) (i : nat) (c : value) :
  l !! i = Some c -> get (idx i) (VArr l) = c.
Proof. intros Hc. unfold get. cbn [enum_props]. by rewrite indexed_lookup, Hc. Qed.

Lemma getPath_segs_arr (l : list value) (i : nat) (c : value) (ks : list string) :
  l !! i = Some c ->
  getPath_segs false (VArr l) (idx i :: ks) = getPath_segs false c ks.
Proof. intros Hc. cbn [getPath_segs andb isScalar]. by rewrite (get_elem l i c). Qed.

Lemma addObj_lookup (v : value) :
  forall (path : string) (acc : gmap string value) (p : string) (x : value),
    addObj false false v path acc !! p = Some x ->
    acc !! p = Some x
    \/ exists ks, leaf_at v ks /\ p = foldl sub_path path ks
                  /\ getPath_segs false v ks = x.
Proof.
  induction v as [v IH] using value_height_ind. intros path acc p x.
  assert (Hscalar : isScalar v = true ->
    <[path := v]> acc !! p = Some x ->
    acc !! p = Some x
    \/ exists ks, leaf_at v ks /\ p = foldl sub_path path ks
                  /\ getPath_segs false v ks = x).
  { intros Hs Hl. destruct (decide (path = p)) as [<-|Hne].
    - rewrite lookup_insert_eq in Hl. injection Hl as <-. right. exists [].
      split; [by constructor|done].
    - rewrite lookup_insert_ne in Hl by done. by left. }
  destruct v as [| | | | | |l|m]; try (by apply Hscalar).
  - cbn [addObj].
    assert (Hgen : forall (l' : list value) (n : nat) (acc' : gmap string value),
      (forall i c, l' !! i = Some c -> l !! (n + i) = Some c) ->
      (foldl (fun (a : nat * gmap string value) child =>
         (S a.1, addObj false false child (sub_path path (idx a.1)) a.2)) (n, acc') l').2
        !! p = Some x ->
      acc' !! p = Some x
      \/ exists i c ks, l !! i = Some c /\ leaf_at c ks
           /\ p = foldl sub_path (sub_path path (idx i)) ks
           /\ getPath_segs false c ks = x).
    { induction l' as [|c l' IHl]; intros n acc' Hsub Hl; [by left|].
      cbn [foldl fst snd] in Hl.
      apply IHl in Hl as [Hl|Hl]; [|by right|].
      - apply IH in Hl as [Hl|(ks & Hleaf & -> & Hget)]; [by left| |].
        + right. exists n, c, ks. split; [|done].
          specialize (Hsub 0 c eq_refl). by rewrite Nat.add_0_r in Hsub.
        + apply height_elem, list_elem_of_lookup. exists n.
          specialize (Hsub 0 c eq_refl). by rewrite Nat.add_0_r in Hsub.
      - intros i c' Hi. specialize (Hsub (S i) c' Hi).
        by replace (S n + i) with (n + S i) by lia. }
    intros Hl. apply (Hgen l 0 acc) in Hl as [Hl|(i & c & ks & Hc & Hleaf & -> & Hget)];
      [by left| |done].
    right. exists (idx i :: ks). split; [by econstructor|]. split; [done|].
    by rewrite (getPath_segs_arr l i c).
  - cbn [addObj]. clear Hscalar.
    assert (Hgen : forall m' : gmap string value, m' ⊆ m ->
      forall p x,
        map_fold (fun key child r =>
          addObj false false child (sub_path path key) r) acc m' !! p = Some x ->
        acc !! p = Some x
        \/ exists k c ks, m !! k = Some c /\ leaf_at c ks
             /\ p = foldl sub_path (sub_path path k) ks
             /\ getPath_segs false c ks = x).
    { intros m'.
      apply (map_fold_weak_ind (fun (r : gmap string value) (m' : gmap string value) =>
        m' ⊆ m -> forall p x, r !! p = Some x ->
          acc !! p = Some x
          \/ exists k c ks, m !! k = Some c /\ leaf_at c ks
               /\ p = foldl sub_path (sub_path path k) ks
               /\ getPath_segs false c ks = x)).
      - intros _ p' x' Hl. by left.
      - intros k c m'' r Hk IHm Hsub p' x' Hl.
        assert (Hc : m !! k = Some c).
        { eapply lookup_weaken; [|exact Hsub]. by rewrite lookup_insert_eq. }
        apply IH in Hl as [Hl|(ks & Hleaf & -> & Hget)]; [|by right; exists k, c, ks|].
        + apply (IHm ltac:(etrans; [by apply insert_subseteq|done]) p' x' Hl).
        + by eapply height_lookup. }
    intros Hl. apply (Hgen m ltac:(done)) in Hl
      as [Hl|(k & c & ks & Hc & Hleaf & -> & Hget)]; [by left|].
    right. exists (k :: ks). split; [by econstructor|]. split; [done|].
    by rewrite getPath_segs_obj, Hc.
Qed.

Lemma foldl_sub_path_cons (path k : string) (ks : list string) :
  foldl sub_path path (k :: ks) = foldl sub_path (sub_path path k) ks.
Proof. done. Qed.

(** X14: for a value whose keys are not empty and hold no dot, the dotted form
    has one entry per scalar leaf: the entry under a dotted path is the
    scalar that [getPath] finds there, and every scalar leaf below the root
    has its entry. *)
Theorem collapseToDotted_getPath (v : value) :
  plain_keys v = true ->
  (forall p x, collapseToDotted v !! p = Some x ->
     getPath v p false = x /\ leaf_at v (split_dots p))
  /\ (forall ks, leaf_at v ks -> ks ≠ [] ->
       collapseToDotted v !! foldl sub_path "" ks = Some (getPath_segs false v ks)).
Proof.
  intros Hv.
  assert (Hfwd : forall p x, collapseToDotted v !! p = Some x ->
     exists ks, leaf_at v ks /\ ks ≠ [] /\ p = foldl sub_path "" ks
                /\ split_dots p = ks /\ getPath_segs false v ks = x).
  { intros p x Hl.
    destruct (collapseToDotted_key v p Hv) as (ks0 & Hleaf0 & Hne0 & Hp0 & Hsplit0);
      [by rewrite Hl|].
    unfold collapseToDotted, collapseToDotted_opts in Hl.
    destruct (isScalar v); [done|].
    apply lookup_delete_Some in Hl as [Hne Hl].
    apply addObj_lookup in Hl as [Hl|(ks & Hleaf & Hp & Hget)]; [done|].
    exists ks. split; [done|]. assert (Hks : ks ≠ []) by (intros ->; done).
    split; [done|]. split; [done|]. split; [|done].
    rewrite Hp. destruct (split_dots_foldl ks "" (leaf_at_plain v ks Hleaf Hv) Hks) as [_ ->].
    done. }
  split.
  - intros p x Hl. destruct (Hfwd p x Hl) as (ks & Hleaf & _ & _ & Hsplit & Hget).
    unfold getPath. by rewrite Hsplit.
  - intros ks Hleaf Hks.
    destruct (split_dots_foldl ks "" (leaf_at_plain v ks Hleaf Hv) Hks) as [Hne Hsplit].
    cbn [String.eqb] in Hsplit.
    assert (Hdom : is_Some (collapseToDotted v !! foldl sub_path "" ks)).
    { unfold collapseToDotted, collapseToDotted_opts.
      destruct (isScalar v) eqn:Hs.
      { apply leaf_at_scalar in Hleaf; done. }
      rewrite lookup_delete_ne by done. apply elem_of_dom, addObj_dom. right. eauto. }
    destruct Hdom as [x Hx]. rewrite Hx. f_equal.
    destruct (Hfwd _ _ Hx) as (ks' & _ & _ & _ & Hsplit' & Hget).
    rewrite Hsplit in Hsplit'. by subst ks'.
Qed.

Lemma collapseToDotted_getPath_witness :
  let v := VObj {[ "a" := VArr [VNum 1; VObj {[ "b" := VStr "x" ]}]; "c" := VObj ∅ ]} in
  (forall p x, collapseToDotted v !! p = Some x ->
     getPath v p false = x /\ leaf_at v (split_dots p))
  /\ (forall ks, leaf_at v ks -> ks ≠ [] ->
       collapseToDotted v !! foldl sub_path "" ks = Some (getPath_segs false v ks)).
Proof. intros v. apply (collapseToDotted_getPath v). reflexivity. Defined.

(** ** Deep equality *)

Lemma scalarEquals_refl (a : value) : isScalar a = true -> scalarEquals a a = true.
Proof.
  destruct a; try done; simpl; intros _.
  - by destruct b.
  - apply Z.eqb_refl.
  - apply String.eqb_refl.
  - apply Z.eqb_refl.
Qed.

Lemma scalarEquals_sym (a b : value) : scalarEquals a b = scalarEquals b a.
Proof.
  destruct a, b; try done; simpl.
  - by destruct b, b0.
  - apply Z.eqb_sym.
  - apply String.eqb_sym.
  - apply Z.eqb_sym.
Qed.

Lemma scalarEquals_eq (a b : value) :
  isScalar a = true -> scalarEquals a b = true -> a = b.
Proof.
  destruct a, b; try done; simpl; intros _ H.
  - f_equal. by destruct b, b0.
  - f_equal. by apply Z.eqb_eq.
  - f_equal. by apply String.eqb_eq.
  - f_equal. by apply Z.eqb_eq.
Qed.

Lemma keys_all_ext (f g : string -> bool) (m : gmap string value) :
  (forall k, is_Some (m !! k) -> f k = g k) -> keys_all f m = keys_all g m.
Proof.
  intros Hfg. apply eq_true_iff_eq. rewrite !keys_all_true.
  split; intros H k Hk; [rewrite <- Hfg by done|rewrite Hfg by done]; by apply H.
Qed.

Lemma forallb_zip_same (F : value -> value -> bool) (l : list value) :
  (forall x, x ∈ l -> F x x = true) ->
  forallb (fun xy : value * value => F xy.1 xy.2) (zip l l) = true.
Proof.
  induction l as [|x l IH]; intros HF; [done|]. cbn.
  rewrite HF by left. apply IH. intros y Hy. apply HF. by right.
Qed.

Lemma forallb_zip_swap (F G : value -> value -> bool) (la lb : list value) :
  (forall x y, F x y = G y x) ->
  forallb (fun xy : value * value => F xy.1 xy.2) (zip la lb)
  = forallb (fun xy : value * value => G xy.1 xy.2) (zip lb la).
Proof.
  intros HFG. revert lb. induction la as [|x la IH]; intros [|y lb]; try done.
  cbn. by rewrite HFG, IH.
Qed.

Lemma deepEquals_f_refl (a : value) :
  forall fuel, height a < fuel -> deepEquals_f fuel a a = true.
Proof.
  induction a as [a IH] using value_height_ind. intros [|fuel] Hfuel; [lia|].
  cbn [deepEquals_f].
  destruct (isScalar a) eqn:Hs; cbn [andb]; [by apply scalarEquals_refl|].
  destruct a as [| | | | | |l|m]; try done; cbn [nullish orb].
  - rewrite Nat.eqb_refl. cbn [andb]. apply forallb_zip_same.
    intros x Hx. apply IH; pose proof (height_elem l x Hx); [done|lia].
  - assert (keys_all (fun key => deepEquals_f fuel (get key (VObj m)) (get key (VObj m)))
              (enum_props (VObj m)) = true) as ->; [|done].
    apply keys_all_true. intros k [x Hk]. cbn [enum_props] in Hk.
    rewrite get_obj, Hk. cbn.
    apply IH; pose proof (height_lookup m k x Hk); [done|lia].
Qed.

Lemma deepEquals_f_sym (fuel : nat) :
  forall a b, deepEquals_f fuel a b = deepEquals_f fuel b a.
Proof.
  induction fuel as [|fuel IH]; intros a b; [done|]. cbn [deepEquals_f].
  rewrite (andb_comm (isScalar a)), (orb_comm (nullish a)), scalarEquals_sym.
  destruct (isScalar b && isScalar a); [done|].
  destruct (nullish b || nullish a); [done|].
  assert (Hk : forall va vb : value,
    keys_all (fun key => deepEquals_f fuel (get key va) (get key vb)) (enum_props va)
    && keys_all (fun key => deepEquals_f fuel (get key va) (get key vb)) (enum_props vb)
    = keys_all (fun key => deepEquals_f fuel (get key vb) (get key va)) (enum_props vb)
      && keys_all (fun key => deepEquals_f fuel (get key vb) (get key va)) (enum_props va)).
  { intros va vb. rewrite andb_comm. f_equal; apply keys_all_ext; intros k _; apply IH. }
  destruct a as [| | | | | |la|ma], b as [| | | | | |lb|mb]; try done; try apply Hk.
  rewrite Nat.eqb_sym. f_equal. by apply forallb_zip_swap.
Qed.

(** X15: [deepEquals] holds between every value and itself, and does not depend
    on the order of its arguments (numbers being integers: no [NaN]). *)
Theorem deepEquals_refl_sym (a b : value) :
  deepEquals a a = true /\ deepEquals a b = deepEquals b a.
Proof.
  unfold deepEquals. split; [apply deepEquals_f_refl; lia|].
  rewrite (Nat.add_comm (height b)). apply deepEquals_f_sym.
Qed.

Lemma solid_obj (m : gmap string value) :
  solid (VObj m) = true
  <-> m ≠ ∅
      /\ map_Forall (fun k x => is_index k = false /\ k ≠ "length" /\ solid x = true) m.
Proof.
  cbn [solid]. rewrite andb_true_iff, negb_true_iff, Nat.eqb_neq, map_size_non_empty_iff.
  apply and_iff_compat_l.
  rewrite (map_fold_andb_key (fun key x =>
    negb (is_index key) && negb (String.eqb key "length") && solid x)).
  split; intros H k x Hk; specialize (H k x Hk); cbn beta in *.
  - rewrite !andb_true_iff, !negb_true_iff, String.eqb_neq in H. tauto.
  - rewrite !andb_true_iff, !negb_true_iff, String.eqb_neq. tauto.
Qed.

Lemma indexed_keys_from (l : list value) (n : nat) (k : string) (x : value) :
  (list_to_map (zip (idx <$> seq n (length l)) l) : gmap string value) !! k = Some x ->
  exists i, k = idx i.
Proof.
  revert n. induction l as [|y l IH]; intros n; [done|].
  cbn [length seq fmap list_fmap zip zip_with list_to_map foldr uncurry].
  destruct (decide (idx n = k)) as [<-|Hne]; [by eexists|].
  rewrite lookup_insert_ne by done. apply IH.
Qed.

Lemma get_not_string_key (v : value) (k : string) :
  isScalar v = true -> is_index k = false -> k ≠ "length" -> get k v = VUndef.
Proof.
  intros Hv Hk Hl. unfold get.
  destruct (enum_props v !! k) as [x|] eqn:Hx.
  - destruct v; try done. apply indexed_keys_from in Hx as [i ->].
    by rewrite is_index_idx in Hk.
  - apply String.eqb_neq in Hl. by rewrite Hl.
Qed.

Lemma deepEquals_f_undefined (fuel : nat) (x : value) :
  solid x = true -> deepEquals_f fuel x VUndef = false.
Proof.
  intros Hx. destruct fuel as [|fuel]; [done|]. cbn [deepEquals_f].
  destruct (isScalar x) eqn:Hs; cbn [isScalar andb nullish orb].
  - by destruct x.
  - by rewrite orb_true_r.
Qed.

Lemma deepEquals_f_solid (fuel : nat) :
  forall a b, solid a = true -> solid b = true ->
    deepEquals_f fuel a b = true -> a = b.
Proof.
  induction fuel as [|fuel IH]; intros a b Ha Hb; [done|]. cbn [deepEquals_f].
  destruct (isScalar a && isScalar b) eqn:Hs.
  { apply andb_true_iff in Hs as [Hs _]. by apply scalarEquals_eq. }
  destruct (nullish a || nullish b) eqn:Hn; [done|].
  assert (Hobj : forall (m : gmap string value) (v : value),
    solid (VObj m) = true -> solid v = true -> isScalar v = true ->
    keys_all (fun key => deepEquals_f fuel (get key (VObj m)) (get key v)) m = true
    -> False).
  { intros m v Hm Hv Hvs Hall. apply solid_obj in Hm as [Hne Hm].
    apply map_choose in Hne as (k & x & Hk).
    destruct (Hm k x Hk) as (Hi & Hl & Hx).
    rewrite keys_all_true in Hall. specialize (Hall k ltac:(by rewrite Hk)).
    rewrite get_obj, Hk, get_not_string_key in Hall by done. cbn in Hall.
    by rewrite deepEquals_f_undefined in Hall. }
  destruct a as [| | | | | |la|ma], b as [| | | | | |lb|mb]; try done;
    cbn [enum_props];
    try (intros [H1 _]%andb_true_iff; exfalso; exact (Hobj ma _ Ha Hb eq_refl H1));
    try (intros [_ H2]%andb_true_iff; exfalso; apply (Hobj mb _ Hb Ha eq_refl);
         rewrite <- H2; apply keys_all_ext; intros k _; apply deepEquals_f_sym).
  - rewrite andb_true_iff, Nat.eqb_eq. intros [Hlen Hall]. f_equal.
    cbn [solid] in Ha, Hb. rewrite forallb_forall in Ha, Hb. clear Hs Hn.
    revert lb Hlen Hall Hb. induction la as [|x la IHl]; intros [|y lb] Hlen Hall Hb;
      try done.
    cbn in Hall. apply andb_true_iff in Hall as [Hxy Hall].
    f_equal.
    + apply IH; [apply Ha; by left|apply Hb; by left|done].
    + apply IHl; [intros z Hz; apply Ha; by right|by injection Hlen|done|
                  intros z Hz; apply Hb; by right].
  - rewrite andb_true_iff, !keys_all_true. intros [H1 H2]. f_equal.
    pose proof (proj1 (solid_obj ma) Ha) as [_ Hma].
    pose proof (proj1 (solid_obj mb) Hb) as [_ Hmb].
    apply map_eq. intros k.
    destruct (ma !! k) as [x|] eqn:Hx, (mb !! k) as [y|] eqn:Hy; try done.
    + f_equal. specialize (H1 k ltac:(by rewrite Hx)).
      rewrite !get_obj, Hx, Hy in H1. cbn in H1.
      apply IH; [by apply (Hma k)|by apply (Hmb k)|done].
    + specialize (H1 k ltac:(by rewrite Hx)).
      rewrite !get_obj, Hx, Hy in H1. cbn in H1.
      rewrite deepEquals_f_undefined in H1; [done|by apply (Hma k)].
    + specialize (H2 k ltac:(by rewrite Hy)).
      rewrite !get_obj, Hx, Hy in H2. cbn in H2.
      rewrite deepEquals_f_sym, deepEquals_f_undefined in H2; [done|by apply (Hmb k)].
Qed.



(** ** Matching *)

Lemma deepEquals_refl (a : value) : deepEquals a a = true.
Proof. unfold deepEquals. apply deepEquals_f_refl. lia. Qed.

(** X17: every document matches itself as a query; and a document that matches a
    query matches every query made of some of its fields, the empty query
    among them. *)
Theorem matchDottedObject_subquery (doc : value) (q q' : gmap string value) :
  isScalar doc = false ->
  q' ⊆ q ->
  matchDottedObject doc (VObj q) = true ->
  matchDottedObject doc (VObj q') = true
  /\ matchDottedObject doc (VObj ∅) = true
  /\ matchDottedObject doc doc = true.
Proof.
  intros Hdoc Hsub. unfold matchDottedObject. cbn [is_true isScalar orb enum_props].
  rewrite Hdoc. rewrite !keys_all_true. intros Hq. split; [|split].
  - intros k [x Hk]. pose proof (lookup_weaken _ _ _ _ Hk Hsub) as Hk'.
    specialize (Hq k ltac:(by rewrite Hk')). by rewrite !get_obj, Hk in *; rewrite Hk' in Hq.
  - intros k [x Hk]. by rewrite lookup_empty in Hk.
  - destruct doc as [| | | | | |l|m]; try done; cbn [is_true orb];
      apply keys_all_true; intros k _; apply deepEquals_refl.
Qed.

Lemma matchDottedObject_subquery_witness :
  let doc := VObj {[ "a.b" := VNum 1; "c" := VStr "x"; "d" := VNull ]} in
  matchDottedObject doc (VObj {[ "c" := VStr "x" ]}) = true
  /\ matchDottedObject doc (VObj ∅) = true
  /\ matchDottedObject doc doc = true.
Proof.
  intros doc.
  apply (matchDottedObject_subquery doc {[ "a.b" := VNum 1; "c" := VStr "x" ]} {[ "c" := VStr "x" ]});
    [reflexivity| |reflexivity].
  apply map_subseteq_spec. intros k x [<- <-]%lookup_singleton_Some. reflexivity.
Defined.

(** ** Duplicates *)

Lemma getDuplicates_inv (arr : list string) :
  (forall y, (foldl getDuplicates_step (∅, []) arr).1 !! y
             = if decide (y ∈ arr) then Some true else None)
  /\ forall y, count_occ String.string_dec (foldl getDuplicates_step (∅, []) arr).2 y
               = pred (count_occ String.string_dec arr y).
Proof.
  induction arr as [|x arr IH] using rev_ind.
  - split; intros y; [by cbn; rewrite lookup_empty|done].
  - rewrite foldl_app. cbn [foldl].
    destruct IH as [IH1 IH2].
    set (r := foldl getDuplicates_step (∅, []) arr) in *.
    unfold getDuplicates_step. rewrite (IH1 x).
    destruct (decide (x ∈ arr)) as [Hx|Hx]; cbn [fst snd].
    + split; intros y.
      * destruct (decide (x = y)) as [<-|Hne].
        -- rewrite lookup_insert_eq. rewrite decide_True; [done|].
           apply elem_of_app. by left.
        -- rewrite !lookup_insert_ne by done. rewrite IH1.
           destruct (decide (y ∈ arr)) as [Hy|Hy].
           ++ rewrite decide_True; [done|]. apply elem_of_app. by left.
           ++ rewrite decide_False; [done|].
              rewrite elem_of_app, list_elem_of_singleton. by intros [?|?].
      * rewrite !count_occ_app, IH2. cbn [count_occ].
        destruct (String.string_dec x y) as [<-|Hne]; [|lia].
        assert (count_occ String.string_dec arr x > 0); [|lia].
        by apply count_occ_In, list_elem_of_In.
    + split; intros y.
      * destruct (decide (x = y)) as [<-|Hne].
        -- rewrite lookup_insert_eq. rewrite decide_True; [done|].
           apply elem_of_app. right. by apply list_elem_of_singleton.
        -- rewrite !lookup_insert_ne by done. rewrite IH1.
           destruct (decide (y ∈ arr)) as [Hy|Hy].
           ++ rewrite decide_True; [done|]. apply elem_of_app. by left.
           ++ rewrite decide_False; [done|].
              rewrite elem_of_app, list_elem_of_singleton. by intros [?|?].
      * rewrite !count_occ_app, IH2. cbn [count_occ].
        destruct (String.string_dec x y) as [<-|Hne]; [|lia].
        assert (count_occ String.string_dec arr x = 0); [|lia].
        apply count_occ_not_In. by rewrite <- list_elem_of_In.
Qed.


(** A value that occurs three times is reported twice. *)
Example getDuplicates_thrice :
  getDuplicates ["a"; "b"; "a"; "c"; "a"] = ["a"; "a"].
Proof. reflexivity. Qed.

(** ** Differences *)

Lemma insert_nonempty (fs : gmap string value) (p : string) (v : value) :
  <[p := v]> fs ≠ ∅.
Proof. apply insert_non_empty. Qed.

Lemma diff_missing_keep (F : string -> bool) (path : string)
    (m fs : gmap string value) :
  fs ≠ ∅ ->
  for_in m (fun key fs => if F key then fs else <[sub_path path key := VTrue]> fs) fs ≠ ∅.
Proof.
  intros Hfs. unfold for_in.
  apply (map_fold_weak_ind (fun (r : gmap string value) (_ : gmap string value) => r ≠ ∅));
    [done|].
  intros k x m' r _ Hr. destruct (F k); [done|apply insert_nonempty].
Qed.

Lemma diff_missing_none (F : string -> bool) (path : string)
    (m fs : gmap string value) :
  (forall k, is_Some (m !! k) -> F k = true) ->
  for_in m (fun key fs => if F key then fs else <[sub_path path key := VTrue]> fs) fs = fs.
Proof.
  unfold for_in.
  apply (map_fold_weak_ind (fun (r : gmap string value) (m' : gmap string value) =>
    (forall k, is_Some (m' !! k) -> F k = true) -> r = fs)); [done|].
  intros k x m' r Hk IH HF. rewrite (HF k) by (by rewrite lookup_insert_eq).
  apply IH. intros k' [y Hk']. apply HF. rewrite lookup_insert_ne; [by eexists|].
  intros ->. by rewrite Hk in Hk'.
Qed.

Lemma diff_missing_some (F : string -> bool) (path : string)
    (m fs : gmap string value) (k : string) :
  is_Some (m !! k) -> F k = false ->
  for_in m (fun key fs => if F key then fs else <[sub_path path key := VTrue]> fs) fs ≠ ∅.
Proof.
  unfold for_in. revert k.
  apply (map_fold_weak_ind (fun (r : gmap string value) (m' : gmap string value) =>
    forall k, is_Some (m' !! k) -> F k = false -> r ≠ ∅)).
  { intros k [x Hk]. by rewrite lookup_empty in Hk. }
  intros i x m' r Hi IH k Hk HF.
  destruct (F i) eqn:HFi; [|apply insert_nonempty].
  apply (IH k); [|done]. rewrite lookup_insert_ne in Hk; [done|]. by intros ->; congruence.
Qed.

Lemma addDottedDiff_obj (fs : gmap string value) (path : string)
    (m mb : gmap string value) :
  addDottedDiffFieldsToSet fs path (VObj m) (VObj mb)
  = for_in mb (fun key fs =>
      if has_key key (VObj m) then fs else <[sub_path path key := VTrue]> fs)
      (map_fold (fun key child fs =>
         if has_key key (VObj mb)
         then addDottedDiffFieldsToSet fs (sub_path path key) child (get key (VObj mb))
         else <[sub_path path key := VTrue]> fs) fs m).
Proof. done. Qed.

Lemma addDottedDiff_keep (a : value) :
  forall (fs : gmap string value) (path : string) (b : value),
    array_free a = true -> fs ≠ ∅ ->
    addDottedDiffFieldsToSet fs path a b ≠ ∅.
Proof.
  induction a as [a IH] using value_height_ind. intros fs path b Ha Hfs.
  destruct a as [| | | | | |l|m]; try done;
    try (cbn [addDottedDiffFieldsToSet]; destruct (scalarEquals _ b);
         [done|apply insert_nonempty]).
  cbn [addDottedDiffFieldsToSet].
  destruct (isScalar b); [apply insert_nonempty|].
  apply diff_missing_keep.
  assert (Hgen : forall m' : gmap string value, m' ⊆ m ->
    map_fold (fun key child fs =>
      if has_key key b
      then addDottedDiffFieldsToSet fs (sub_path path key) child (get key b)
      else <[sub_path path key := VTrue]> fs) fs m' ≠ ∅).
  { intros m'.
    apply (map_fold_weak_ind (fun (r : gmap string value) (m' : gmap string value) =>
      m' ⊆ m -> r ≠ ∅)); [done|].
    intros k c m'' r Hk IHm Hsub.
    assert (Hc : m !! k = Some c).
    { eapply lookup_weaken; [|exact Hsub]. by rewrite lookup_insert_eq. }
    destruct (has_key k b); [|apply insert_nonempty].
    apply IH; [by eapply height_lookup|by apply (proj1 (array_free_obj m) Ha k)|].
    apply IHm. etrans; [by apply insert_subseteq|done]. }
  by apply Hgen.
Qed.

Lemma addDottedDiff_same (a : value) :
  forall (fs : gmap string value) (path : string),
    array_free a = true ->
    addDottedDiffFieldsToSet fs path a a = fs.
Proof.
  induction a as [a IH] using value_height_ind. intros fs path Ha.
  destruct a as [| | | | | |l|m]; try done;
    try (cbn [addDottedDiffFieldsToSet]; by rewrite scalarEquals_refl).
  rewrite addDottedDiff_obj.
  rewrite diff_missing_none.
  2:{ intros k [x Hk]. by rewrite has_key_obj, Hk. }
  assert (Hgen : forall m' : gmap string value, m' ⊆ m ->
    map_fold (fun key child fs =>
      if has_key key (VObj m)
      then addDottedDiffFieldsToSet fs (sub_path path key) child (get key (VObj m))
      else <[sub_path path key := VTrue]> fs) fs m' = fs).
  { intros m'.
    apply (map_fold_weak_ind (fun (r : gmap string value) (m' : gmap string value) =>
      m' ⊆ m -> r = fs)); [done|].
    intros k c m'' r Hk IHm Hsub.
    assert (Hc : m !! k = Some c).
    { eapply lookup_weaken; [|exact Hsub]. by rewrite lookup_insert_eq. }
    rewrite has_key_obj, get_obj, Hc. cbn [from_option id].
    rewrite IHm by (etrans; [by apply insert_subseteq|done]).
    apply IH; [by eapply height_lookup|by apply (proj1 (array_free_obj m) Ha k)]. }
  by apply Hgen.
Qed.

Lemma empty_of_keep (fs r : gmap string value) :
  (fs ≠ ∅ -> r ≠ ∅) -> r = ∅ -> fs = ∅.
Proof.
  intros Hkeep Hr. destruct (map_choose_or_empty fs) as [(i & x & Hi)|Hfs]; [|done].
  destruct Hkeep; [|done]. intros ->. by rewrite lookup_empty in Hi.
Qed.

Lemma addDottedDiff_empty (a : value) :
  forall (fs : gmap string value) (path : string) (b : value),
    array_free a = true -> array_free b = true ->
    addDottedDiffFieldsToSet fs path a b = ∅ -> fs = ∅ /\ a = b.
Proof.
  induction a as [a IH] using value_height_ind. intros fs path b Ha Hb He.
  split; [by eapply empty_of_keep; [apply (addDottedDiff_keep a fs path b Ha)|]|].
  assert (Hscalar : isScalar a = true ->
    (if scalarEquals a b then fs else <[path := VTrue]> fs) = ∅ -> a = b).
  { intros Hs. destruct (scalarEquals a b) eqn:Heq; [by intros _; apply scalarEquals_eq|].
    intros H. by apply insert_nonempty in H. }
  destruct a as [| | | | | |l|m]; try done; try (by apply Hscalar).
  clear Hscalar.
  destruct b as [| | | | | |lb|mb]; try done;
    try (cbn [addDottedDiffFieldsToSet isScalar] in He; by apply insert_nonempty in He).
  rewrite addDottedDiff_obj in He.
  assert (Hfold : map_fold (fun key child fs =>
        if has_key key (VObj mb)
        then addDottedDiffFieldsToSet fs (sub_path path key) child (get key (VObj mb))
        else <[sub_path path key := VTrue]> fs) fs m = ∅).
  { eapply empty_of_keep; [|exact He]. apply diff_missing_keep. }
  assert (Hmb : forall k, is_Some (mb !! k) -> is_Some (m !! k)).
  { intros k Hk. destruct (m !! k) eqn:Hm; [done|]. exfalso.
    assert (Hf : has_key k (VObj m) = false) by (by rewrite has_key_obj, Hm).
    exact (diff_missing_some (fun key => has_key key (VObj m)) path mb _ k Hk Hf He). }
  assert (Hgen : forall m' : gmap string value, m' ⊆ m ->
    map_fold (fun key child fs =>
      if has_key key (VObj mb)
      then addDottedDiffFieldsToSet fs (sub_path path key) child (get key (VObj mb))
      else <[sub_path path key := VTrue]> fs) fs m' = ∅ ->
    forall k c, m' !! k = Some c -> mb !! k = Some c).
  { intros m'.
    apply (map_fold_weak_ind (fun (r : gmap string value) (m' : gmap string value) =>
      m' ⊆ m -> r = ∅ -> forall k c, m' !! k = Some c -> mb !! k = Some c)).
    { intros _ _ k c Hk. by rewrite lookup_empty in Hk. }
    intros i x m'' r Hi IHm Hsub Hr k c Hk.
    assert (Hx : m !! i = Some x).
    { eapply lookup_weaken; [|exact Hsub]. by rewrite lookup_insert_eq. }
    rewrite has_key_obj, get_obj in Hr.
    destruct (mb !! i) as [y|] eqn:Hy; [|by apply insert_nonempty in Hr].
    cbn [from_option id] in Hr.
    apply IH in Hr as [Hr ->];
      [|by eapply height_lookup|by apply (proj1 (array_free_obj m) Ha i)
       |by apply (proj1 (array_free_obj mb) Hb i)].
    destruct (decide (i = k)) as [->|Hne].
    - rewrite lookup_insert_eq in Hk. by injection Hk as <-.
    - rewrite lookup_insert_ne in Hk by done.
      apply (IHm ltac:(etrans; [by apply insert_subseteq|done]) Hr k c Hk). }
  f_equal. apply map_eq. intros k.
  destruct (m !! k) as [c|] eqn:Hc.
  - symmetry. by apply (Hgen m ltac:(done) Hfold k c).
  - destruct (mb !! k) eqn:Hk; [|done].
    destruct (Hmb k ltac:(by rewrite Hk)) as [c Hc']. congruence.
Qed.



(** ** What [filterObject] keeps *)

Lemma leaf_at_obj (m : gmap string value) (ks : list string) :
  leaf_at (VObj m) ks
  <-> exists k c ks', ks = k :: ks' /\ m !! k = Some c /\ leaf_at c ks'.
Proof.
  split.
  - intros H. inversion H; subst; [done|]. eauto 6.
  - intros (k & c & ks' & -> & Hc & Hleaf). by econstructor.
Qed.

Lemma filterDeep_leaves (v : value) :
  forall (mask : value) (p : string) (ks : list string),
    array_free v = true -> no_undefined v = true ->
    ((filterDeep v mask p).1 ≠ VUndef /\ leaf_at (filterDeep v mask p).1 ks)
    <-> leaf_at v ks /\ allows mask ks = true.
Proof.
  induction v as [v IH] using value_height_ind. intros mask p ks Hfree Hdef.
  destruct (is_true mask) eqn:Ht.
  { rewrite filterDeep_true by done. cbn [fst].
    assert (allows mask ks = true) as ->.
    { destruct mask as [| |[|]| | | | |]; try done. by rewrite allows_scalar. }
    split; [by intros [_ ?]|]. intros [H _]. split; [|done]. by destruct v. }
  destruct (truthy mask && negb (isScalar mask)) eqn:Hm.
  2:{ rewrite filterDeep_out by auto. rewrite allows_dead by done. cbn [fst].
      split; [by intros [? _]|by intros [_ ?]]. }
  destruct (isScalar v) eqn:Hs.
  { rewrite filterDeep_out by auto. cbn [fst]. split; [by intros [? _]|].
    intros [Hleaf Ha]. apply leaf_at_scalar in Hleaf; [|done]. subst ks.
    unfold allows in Ha. cbn [walk] in Ha. congruence. }
  destruct v as [| | | | | |l|m]; try done.
  rewrite filterDeep_obj by done. cbn beta. cbn [fst]. rewrite !leaf_at_obj.
  pose proof (proj1 (array_free_obj m) Hfree) as Hcf.
  pose proof (proj1 (no_undefined_obj m) Hdef) as Hcd.
  split.
  - intros [_ (k & c' & ks' & -> & Hk & Hleaf)].
    rewrite (filter_props_lookup (fun key child =>
      filterDeep child (mask_at mask key) (sub_path p key))) in Hk.
    destruct (m !! k) as [c|] eqn:Hc; cbn [mbind option_bind] in Hk; [|done].
    assert (Hc' : (filterDeep c (mask_at mask k) (sub_path p k)).1 = c'
                  /\ c' ≠ VUndef).
    { destruct (filterDeep c _ _).1; cbn in Hk; try done; by injection Hk as <-. }
    destruct Hc' as [<- Hne].
    destruct (proj1 (IH c ltac:(by eapply height_lookup) (mask_at mask k)
                        (sub_path p k) ks' (Hcf k c Hc) (Hcd k c Hc))
                    (conj Hne Hleaf)) as [Hl Ha].
    split; [by exists k, c, ks'|]. by rewrite allows_mask_at.
  - intros [(k & c & ks' & -> & Hc & Hleaf) Ha]. split; [done|].
    rewrite allows_mask_at in Ha by done.
    destruct (proj2 (IH c ltac:(by eapply height_lookup) (mask_at mask k)
                        (sub_path p k) ks' (Hcf k c Hc) (Hcd k c Hc))
                    (conj Hleaf Ha)) as [Hne Hl].
    exists k, (filterDeep c (mask_at mask k) (sub_path p k)).1, ks'.
    split; [done|]. split; [|done].
    rewrite (filter_props_lookup (fun key child =>
      filterDeep child (mask_at mask key) (sub_path p key))), Hc.
    cbn [mbind option_bind]. by destruct (filterDeep c _ _).1.
Qed.

(** X20: on an object without arrays that holds no [undefined], [filterObject]
    keeps exactly the scalar leaves whose path the mask allows: a path leads
    to a leaf of the result if and only if it leads to a leaf of the object
    and [checkPath] accepts it; and the leaf kept is the leaf of the
    object. *)
Theorem filterObject_keeps_allowed_leaves (mask : value) (m : gmap string value)
    (p : string) :
  array_free (VObj m) = true ->
  no_undefined (VObj m) = true ->
  (leaf_at (filterObject mask (VObj m)) (split_dots p)
   <-> leaf_at (VObj m) (split_dots p) /\ checkPath mask p = true)
  /\ (leaf_at (filterObject mask (VObj m)) (split_dots p) ->
      getPath (filterObject mask (VObj m)) p false = getPath (VObj m) p false).
Proof.
  intros Hfree Hdef. unfold filterObject. rewrite checkPath_walk.
  pose proof (filterDeep_leaves (VObj m) mask "" (split_dots p) Hfree Hdef) as H.
  assert (Hiff : leaf_at (filterDeep (VObj m) mask "").1 (split_dots p)
                 <-> leaf_at (VObj m) (split_dots p)
                     /\ is_true (walk mask (split_dots p)) = true).
  { rewrite <- H. split; [|by intros [_ ?]]. intros Hleaf. split; [|done].
    intros Hu. rewrite Hu in Hleaf. apply leaf_at_scalar in Hleaf; [|done].
    by apply split_dots_nonempty in Hleaf. }
  split; [done|]. intros Hleaf. apply Hiff in Hleaf as [Hleaf Ha].
  destruct (is_true mask) eqn:Ht; [by rewrite filterDeep_true|].
  destruct (truthy mask && negb (isScalar mask)) eqn:Hm.
  2:{ pose proof (allows_dead mask (split_dots p) Ht Hm) as Hd.
      unfold allows in Hd. congruence. }
  clear H Hiff. unfold getPath.
  revert m mask Hfree Hdef Hleaf Ha Ht Hm. generalize "" as path.
  induction (split_dots p) as [|k ks IH]; intros path m mask Hfree Hdef Hleaf Ha Ht Hm.
  { by apply leaf_at_obj in Hleaf as (? & ? & ? & ? & _). }
  apply leaf_at_obj in Hleaf as (k' & c & ks' & [= <- <-] & Hc & Hleaf).
  rewrite filterDeep_obj by done. cbn beta. cbn [fst].
  rewrite !getPath_segs_obj, Hc.
  rewrite (filter_props_lookup (fun key child =>
    filterDeep child (mask_at mask key) (sub_path path key))), Hc.
  cbn [mbind option_bind from_option id].
  fold (allows mask (k :: ks)) in Ha. rewrite allows_mask_at in Ha by done.
  pose proof (proj1 (array_free_obj m) Hfree k c Hc) as Hcf.
  pose proof (proj1 (no_undefined_obj m) Hdef k c Hc) as Hcd.
  destruct (is_true (mask_at mask k)) eqn:Htk.
  { rewrite filterDeep_true by done. cbn [fst]. by rewrite no_undefined_defined. }
  destruct (truthy (mask_at mask k) && negb (isScalar (mask_at mask k))) eqn:Hmk.
  2:{ by rewrite (allows_dead _ ks Htk Hmk) in Ha. }
  destruct c as [| | | | | |lc|mc]; try done.
  - apply leaf_at_scalar in Hleaf as ->; [|done]. unfold allows in Ha. cbn in Ha. congruence.
  - apply leaf_at_scalar in Hleaf as ->; [|done]. unfold allows in Ha. cbn in Ha. congruence.
  - apply leaf_at_scalar in Hleaf as ->; [|done]. unfold allows in Ha. cbn in Ha. congruence.
  - apply leaf_at_scalar in Hleaf as ->; [|done]. unfold allows in Ha. cbn in Ha. congruence.
  - apply leaf_at_scalar in Hleaf as ->; [|done]. unfold allows in Ha. cbn in Ha. congruence.
  - specialize (IH (sub_path path k) mc (mask_at mask k) Hcf Hcd Hleaf Ha Htk Hmk).
    rewrite filterDeep_obj in * by done. cbn beta in *. cbn [fst] in *.
    cbn [defined from_option id]. exact IH.
Qed.

Lemma filterObject_keeps_allowed_leaves_witness :
  let mask := VObj {[ "a" := VObj {[ wildcard := VTrue; "x" := VFalse ]}; "b" := VTrue ]} in
  let m : gmap string value :=
    {[ "a" := VObj {[ "x" := VNum 1; "y" := VNum 2 ]}; "b" := VObj {[ "z" := VNull ]}; "c" := VNum 3 ]} in
  (leaf_at (filterObject mask (VObj m)) (split_dots "a.y")
   <-> leaf_at (VObj m) (split_dots "a.y") /\ checkPath mask "a.y" = true)
  /\ (leaf_at (filterObject mask (VObj m)) (split_dots "a.y") ->
      getPath (filterObject mask (VObj m)) "a.y" false = getPath (VObj m) "a.y" false).
Proof.
  intros mask m. apply (filterObject_keeps_allowed_leaves mask m "a.y"); reflexivity.
Defined.

(** ** Subtraction at its base cases *)

Lemma isEqual_f_refl (fuel : nat) (v : value) :
  height v < fuel -> mask_tree v = true -> isEqual_f fuel v v = true.
Proof.
  revert v. induction fuel as [|fuel IH]; intros v Hh Hv; [lia|].
  destruct (mask_tree_cases v Hv) as [[b ->]|[m ->]]; [by destruct b|].
  cbn [isEqual_f]. rewrite Nat.eqb_refl. cbn [andb].
  apply keys_all_true. intros k [x Hx]. rewrite Hx, get_obj, Hx. cbn [default].
  apply IH; [|by eapply mask_tree_lookup].
  pose proof (height_lookup m k x Hx). lia.
Qed.

(** X21: for a mask in strict form, [subtractMasks] gives the mask that allows
    nothing when the mask is subtracted from itself or [true] is subtracted
    from it, gives the mask back when [false] is subtracted, and gives the
    inverse of the mask when the mask is subtracted from [true]. *)
Theorem subtractMasks_identities (m : value) :
  mask_tree m = true ->
  subtractMasks m m = Ok VFalse
  /\ subtractMasks m VTrue = Ok VFalse
  /\ subtractMasks m VFalse = Ok m
  /\ subtractMasks VTrue m = Ok (invert m)
  /\ subtractMasks VFalse m = Ok VFalse.
Proof.
  intros Hm. unfold subtractMasks, subtractMask, subtract.
  rewrite !deepCopy_id, !ObjectMask_id by done.
  destruct (mask_tree_cases m Hm) as [[b ->]|[mm ->]]; [by destruct b|].
  cbn [subtract_f is_true is_false truthy negb isScalar orb].
  unfold isEqual. rewrite isEqual_f_refl by (done || lia). done.
Qed.

Lemma subtractMasks_identities_witness :
  let m := VObj {[ "a" := VTrue; "b" := VObj {[ "c" := VTrue ]} ]} in
  subtractMasks m m = Ok VFalse
  /\ subtractMasks m VTrue = Ok VFalse
  /\ subtractMasks m VFalse = Ok m
  /\ subtractMasks VTrue m = Ok (invert m)
  /\ subtractMasks VFalse m = Ok VFalse.
Proof.
  intros m. apply (subtractMasks_identities m). reflexivity.
Defined.

(** ** What the mask of a field list allows *)

Lemma wild_free_obj (m : gmap string value) :
  wild_free (VObj m) = true
  <-> map_Forall (fun k x => k ≠ wildcard /\ wild_free x = true) m.
Proof.
  cbn [wild_free].
  rewrite (map_fold_andb_key (fun key x => negb (is_wild key) && wild_free x)).
  split; intros Hm k x Hk; specialize (Hm k x Hk); cbn beta in *.
  - apply andb_true_iff in Hm as [Hw ?]. split; [|done].
    by apply negb_true_iff, is_wild_false in Hw.
  - destruct Hm as [Hw ?]. apply andb_true_iff. split; [|done].
    by apply negb_true_iff, is_wild_false.
Qed.

Lemma wild_free_empty : wild_free (VObj ∅) = true.
Proof. apply wild_free_obj, map_Forall_empty. Qed.

(** Without wildcards, a path is allowed only on or below a leaf [true]. *)
Lemma allows_covered (ks : list string) :
  forall t : value,
    mask_tree t = true -> wild_free t = true -> allows t ks = true -> covered t ks.
Proof.
  induction ks as [|k ks IH]; intros t Ht Hw Ha.
  - destruct (mask_tree_cases t Ht) as [[[|] ->]|[m ->]]; try done.
    exists []. by split.
  - destruct (mask_tree_cases t Ht) as [[[|] ->]|[m ->]]; try done.
    { exists []. split; [apply prefix_nil|done]. }
    rewrite allows_obj in Ha. unfold resolve in Ha.
    destruct (m !! k) as [c|] eqn:Hc.
    + destruct (IH c) as (pre & Hp & Hl); [by eapply mask_tree_lookup| |done|].
      { by apply (proj1 (wild_free_obj m) Hw k c). }
      exists (k :: pre). split; [by apply prefix_cons|].
      cbn [lookup_path]. by rewrite Hc.
    + destruct (m !! wildcard) as [w|] eqn:Hwc; [|by rewrite allows_scalar in Ha].
      by destruct (proj1 (wild_free_obj m) Hw wildcard w Hwc).
Qed.

Lemma setPath_segs_wild_free (qs : list string) (m : gmap string value) :
  mask_tree (VObj m) = true -> wild_free (VObj m) = true ->
  Forall (fun q => q ≠ wildcard) qs ->
  wild_free (setPath_segs (VObj m) qs VTrue) = true.
Proof.
  revert m. induction qs as [|q qs IH]; intros m Hm Hw Hqs; [done|].
  apply Forall_cons in Hqs as [Hq Hqs].
  destruct qs as [|q' qs'].
  - rewrite setPath_segs_last.
    apply wild_free_obj, map_Forall_insert_2; [done|by apply wild_free_obj].
  - rewrite setPath_segs_step. cbn [enum_props].
    apply wild_free_obj, map_Forall_insert_2; [|by apply wild_free_obj].
    split; [done|].
    destruct (next_node_cases m q Hm) as [(mc & Hc & Hmc & ->)|[_ ->]].
    + apply IH; [done| |done]. by apply (proj1 (wild_free_obj m) Hw q _ Hc).
    + apply IH; [apply mask_tree_empty|apply wild_free_empty|done].
Qed.

(** Whatever the order of insertion, the leaves [true] of the tree built are
    at listed paths. *)
Lemma build_leaves (L : list string) :
  forall m : gmap string value,
    mask_tree (VObj m) = true -> wild_free (VObj m) = true ->
    Forall (fun f => Forall (fun q => q ≠ wildcard) (split_dots f)) L ->
    let t := foldl (fun ret field => setPath ret field VTrue) (VObj m) L in
    mask_tree t = true /\ wild_free t = true
    /\ forall ks, lookup_path t ks = Some VTrue ->
         lookup_path (VObj m) ks = Some VTrue \/ exists f, f ∈ L /\ ks = split_dots f.
Proof.
  induction L as [|q L IH]; intros m Hm Hw HL; cbn zeta.
  { cbn [foldl]. split; [done|]. split; [done|]. by left. }
  apply Forall_cons in HL as [Hq HL]. cbn [foldl]. unfold setPath at 2 4 6.
  pose proof (split_dots_nonempty q) as Hne.
  destruct (setPath_segs_obj (split_dots q) m Hne) as [m1 Hm1].
  pose proof (setPath_segs_mask_tree (split_dots q) m Hm) as Hmt1.
  pose proof (setPath_segs_wild_free (split_dots q) m Hm Hw Hq) as Hwf1.
  pose proof (fun ks => true_leaf_after_setPath (split_dots q) m ks Hm Hne) as Hleaf.
  rewrite Hm1 in *.
  destruct (IH m1 Hmt1 Hwf1 HL) as (Ht & Hwt & Hl).
  split; [done|]. split; [done|]. intros ks Hks.
  destruct (Hl ks Hks) as [H1|(f & Hf & ->)].
  - destruct (Hleaf ks H1) as [->|H0]; [|by left].
    right. exists q. split; [by left|done].
  - right. exists f. split; [by right|done].
Qed.

(** X22: when no listed field has the wildcard [_] among its segments, the mask
    built by [createMaskFromFieldList] allows a path if and only if a listed
    field is that path or a prefix of it, segment by segment: nothing but the
    listed fields and what lies below them is allowed. *)
Theorem createMaskFromFieldList_allows_exactly (fields : list string) (p : string) :
  Forall (fun f => Forall (fun q => q ≠ wildcard) (split_dots f)) fields ->
  checkPath (createMaskFromFieldList fields) p = true
  <-> exists f, f ∈ fields /\ split_dots f `prefix_of` split_dots p.
Proof.
  intros Hfields. unfold createMaskFromFieldList. rewrite checkPath_walk.
  assert (Hsorted : Forall (fun f => Forall (fun q => q ≠ wildcard) (split_dots f))
                      (sort_longest_first fields)).
  { apply Forall_forall. intros f Hf.
    apply (proj1 (elem_of_sort_longest_first _ _)) in Hf.
    exact (proj1 (Forall_forall _ _) Hfields f Hf). }
  destruct (build_leaves (sort_longest_first fields) ∅ mask_tree_empty wild_free_empty
              Hsorted) as (Ht & Hw & Hleaves).
  cbv zeta in Ht, Hw, Hleaves. rewrite (ObjectMask_id _ Ht).
  fold (allows (foldl (fun ret field => setPath ret field VTrue) (VObj ∅)
                  (sort_longest_first fields)) (split_dots p)).
  split.
  - intros Ha. destruct (allows_covered _ _ Ht Hw Ha) as (pre & Hp & Hl).
    destruct (Hleaves pre Hl) as [H0|(f & Hf & ->)].
    + destruct pre as [|k pre]; [done|]. cbn [lookup_path] in H0.
      by rewrite lookup_empty in H0.
    + exists f. split; [by apply elem_of_sort_longest_first|done].
  - intros (f & Hf & Hp).
    destruct (build_covers (sort_longest_first fields) ∅
                (foldr (fun s acc => Nat.max (String.length s) acc) 0 fields))
      as (_ & _ & Hin).
    + apply sort_longest_first_sorted.
    + intros x Hx. apply length_le_longest. by apply elem_of_sort_longest_first.
    + apply mask_tree_empty.
    + intros [|k ks] Hl; [done|]. cbn [lookup_path] in Hl. by rewrite lookup_empty in Hl.
    + apply covered_allows; [done|]. apply (covered_prefix _ (split_dots f)); [done|].
      apply Hin. by apply elem_of_sort_longest_first.
Qed.

Lemma createMaskFromFieldList_allows_exactly_witness :
  checkPath (createMaskFromFieldList ["foo"; "bar.baz"]) "bar.baz.biz" = true
  <-> exists f, f ∈ ["foo"; "bar.baz"] /\ split_dots f `prefix_of` split_dots "bar.baz.biz".
Proof.
  apply (createMaskFromFieldList_allows_exactly ["foo"; "bar.baz"] "bar.baz.biz").
  repeat constructor; by vm_compute.
Defined.

(** ** Synchronising *)

Lemma sync_keys_lookup (rec : value -> value -> value * option value)
    (mf mt : gmap string value) (k : string) :
  sync_keys rec mf mt !! k
  = match mf !! k with
    | Some f => Some (match mt !! k with
                      | Some t => default (rec t f).1 (rec t f).2
                      | None => f
                      end)
    | None => mt !! k
    end.
Proof.
  unfold sync_keys. revert k.
  apply (map_fold_weak_ind (fun (r : gmap string value) (mf : gmap string value) =>
    forall k, r !! k = match mf !! k with
                       | Some f => Some (match mt !! k with
                                         | Some t => default (rec t f).1 (rec t f).2
                                         | None => f
                                         end)
                       | None => mt !! k
                       end)).
  - intros k. by rewrite lookup_empty.
  - intros i f m r Hi IH k.
    assert (Hri : r !! i = mt !! i) by (by rewrite IH, Hi).
    rewrite Hri. destruct (decide (k = i)) as [->|Hki].
    + rewrite lookup_insert_eq. destruct (mt !! i); by rewrite lookup_insert_eq.
    + rewrite (lookup_insert_ne m) by done.
      destruct (mt !! i); rewrite lookup_insert_ne by done; apply IH.
Qed.

Lemma sync_delete_lookup (mf mt : gmap string value) (k : string) :
  sync_delete mf mt !! k = match mf !! k with Some _ => mt !! k | None => None end.
Proof.
  unfold sync_delete, for_in.
  enough (H : forall m0 : gmap string value,
            map_fold (fun key _ cur => match mf !! key with
                                       | Some _ => cur
                                       | None => delete key cur
                                       end) mt m0 !! k
            = match mf !! k with
              | Some _ => mt !! k
              | None => match m0 !! k with Some _ => None | None => mt !! k end
              end).
  { rewrite H. destruct (mf !! k); [done|]. by destruct (mt !! k). }
  intros m0.
  apply (map_fold_weak_ind (fun (r : gmap string value) (m0 : gmap string value) =>
    r !! k = match mf !! k with
             | Some _ => mt !! k
             | None => match m0 !! k with Some _ => None | None => mt !! k end
             end)).
  - rewrite lookup_empty. by destruct (mf !! k).
  - intros i x m r Hi IH. destruct (decide (k = i)) as [->|Hki].
    + rewrite lookup_insert_eq. rewrite Hi in IH.
      destruct (mf !! i); [done|]. by rewrite lookup_delete_eq.
    + rewrite (lookup_insert_ne m) by done.
      destruct (mf !! i); [done|]. by rewrite lookup_delete_ne.
Qed.

Lemma same_kinds_obj (ma mb : gmap string value) :
  same_kinds (VObj ma) (VObj mb) = true
  <-> forall k x y, ma !! k = Some x -> mb !! k = Some y -> same_kinds x y = true.
Proof.
  cbn [same_kinds].
  rewrite (map_fold_andb_key (fun key x =>
    match mb !! key with Some y => same_kinds x y | None => true end)).
  split.
  - intros H k x y Hx Hy. specialize (H k x Hx). cbn beta in H. by rewrite Hy in H.
  - intros H k x Hx. cbn beta. destruct (mb !! k) as [y|] eqn:Hy; [|done]. by eapply H.
Qed.

Lemma same_kinds_arr (la lb : list value) :
  same_kinds (VArr la) (VArr lb) = true
  <-> forall i x y, la !! i = Some x -> lb !! i = Some y -> same_kinds x y = true.
Proof.
  cbn [same_kinds]. revert lb. induction la as [|a la IH]; intros lb.
  - split; [by intros _ i x y Hx|done].
  - destruct lb as [|b lb]; [split; [by intros _ i x y _ Hy|done]|].
    rewrite andb_true_iff, IH. split.
    + intros [Hab H] [|i] x y Hx Hy; [by simplify_eq/=|]. by eapply H.
    + intros H. split; [by apply (H 0)|]. intros i x y Hx Hy. by apply (H (S i)).
Qed.

(** What a call writes in place of [toVal] is [fromVal]. *)
Lemma syncSubObject_written (fuel : nat) :
  forall toVal fromVal : value,
    height fromVal < fuel ->
    same_kinds toVal fromVal = true ->
    default (syncSubObject fuel toVal fromVal).1 (syncSubObject fuel toVal fromVal).2
    = fromVal.
Proof.
  induction fuel as [|fuel IH]; intros t f Hh Hk; [lia|].
  cbn [syncSubObject].
  destruct (isScalar t && isScalar f) eqn:Hss.
  { apply andb_true_iff in Hss as [Ht Hf]. cbn [fst snd].
    destruct (scalarEquals f t) eqn:He; [|done].
    cbn [default]. symmetry. by apply scalarEquals_eq. }
  destruct (isScalar t || isScalar f) eqn:Hs; [done|].
  apply orb_false_iff in Hs as [Ht Hf].
  destruct t as [| | | | | |lt|mt]; try done; destruct f as [| | | | | |lf|mf]; try done.
  - destruct (Nat.eqb (length lt) (length lf)) eqn:Hlen; [|done].
    apply Nat.eqb_eq in Hlen. cbn [fst snd default]. f_equal.
    pose proof (proj1 (same_kinds_arr lt lf) Hk) as Hel.
    assert (Hhe : forall y, y ∈ lf -> height y < fuel).
    { intros y Hy. pose proof (height_elem lf y Hy). lia. }
    clear Hk Hh Ht Hf Hss. revert lf Hlen Hel Hhe.
    induction lt as [|x lt IHl]; intros [|y lf] Hlen Hel Hhe; try done.
    cbn [zip_with]. f_equal.
    + apply IH; [apply Hhe; by left|by apply (Hel 0)].
    + apply IHl; [by injection Hlen|..].
      * intros i a b Ha Hb. by apply (Hel (S i)).
      * intros b Hb. apply Hhe. by right.
  - cbn [fst snd default enum_props]. f_equal. apply map_eq. intros k.
    rewrite sync_delete_lookup, sync_keys_lookup.
    destruct (mf !! k) as [y|] eqn:Hy; [|done]. f_equal.
    destruct (mt !! k) as [x|] eqn:Hx; [|done].
    apply IH; [|by eapply (proj1 (same_kinds_obj mt mf))].
    pose proof (height_lookup mf k y Hy). lia.
Qed.



(** An array synchronised at the root to a longer one keeps its length, its
    elements being synchronised in place as far as they go. *)
Example syncObject_root_arrays :
  syncObject (VArr [VObj {[ "a" := VNum 1 ]}])
             (VArr [VObj {[ "a" := VNum 2 ]}; VObj {[ "b" := VNum 3 ]}])
  = VArr [VObj {[ "a" := VNum 2 ]}].
Proof. by vm_compute. Qed.

(** ** Merging *)

Lemma array_free_cases (v : value) :
  array_free v = true -> isTerminal v = true \/ exists m, v = VObj m.
Proof. destruct v; try (by left). right. by eexists. Qed.

Lemma array_free_lookup (m : gmap string value) (k : string) :
  array_free (VObj m) = true -> array_free (default VUndef (m !! k)) = true.
Proof.
  intros Hm. destruct (m !! k) as [c|] eqn:Hc; [|done].
  by apply (proj1 (array_free_obj m) Hm k c).
Qed.

Lemma array_free_base (t : value) (k : string) :
  array_free t = true ->
  array_free (default VUndef (match t with VObj m => m | _ => ∅ end !! k)) = true.
Proof.
  intros Ht. destruct t as [| | | | | | |mt]; try (by rewrite lookup_empty).
  by apply array_free_lookup.
Qed.

(** The merge of a plain object into a tree without arrays, key by key. *)
Lemma mergeLight_source_obj (target : value) (ms : gmap string value) :
  array_free target = true ->
  exists m',
    mergeLight_source target (VObj ms) = VObj m'
    /\ forall k,
         m' !! k
         = match ms !! k ≫= defined with
           | Some v =>
               Some (mergeLight_source
                       (default VUndef (match target with VObj m => m | _ => ∅ end !! k)) v)
           | None => match target with VObj m => m | _ => ∅ end !! k
           end.
Proof.
  intros Hfree. cbn [mergeLight_source].
  set (m0 := match target with VObj m => m | _ => ∅ end).
  assert (Ht0 : (if isTerminal target then VObj ∅ else target) = VObj m0).
  { subst m0. destruct (array_free_cases target Hfree) as [Ht|[m ->]]; [|done].
    rewrite Ht. by destruct target. }
  rewrite Ht0. clear Ht0.
  apply (map_fold_weak_ind (fun (r : value) (ms : gmap string value) =>
    exists m', r = VObj m'
      /\ forall k, m' !! k = match ms !! k ≫= defined with
                             | Some v => Some (mergeLight_source (default VUndef (m0 !! k)) v)
                             | None => m0 !! k
                             end)).
  - exists m0. split; [done|]. intros k. by rewrite lookup_empty.
  - intros i x m r Hi (m' & -> & Hm').
    assert (Hget : get i (VObj m') = default VUndef (m0 !! i)).
    { by rewrite get_obj, Hm', Hi. }
    assert (x = VUndef \/ defined x = Some x) as [->|Hx]
      by (destruct x; (by left) || by right).
    { exists m'. split; [done|]. intros k. rewrite Hm'.
      destruct (decide (k = i)) as [->|Hki];
        [by rewrite lookup_insert_eq, Hi|by rewrite lookup_insert_ne]. }
    exists (<[i := mergeLight_source (default VUndef (m0 !! i)) x]> m'). split.
    { rewrite Hget. by destruct x. }
    intros k. destruct (decide (k = i)) as [->|Hki].
    + rewrite !lookup_insert_eq. cbn [mbind option_bind]. by rewrite Hx.
    + rewrite !lookup_insert_ne by done. apply Hm'.
Qed.

Lemma mergeLight_source_terminal (target source : value) :
  isTerminal source = true -> mergeLight_source target source = source.
Proof. by destruct source. Qed.

Lemma mergeLight_source_array_free (source : value) :
  forall target : value,
    array_free target = true -> array_free source = true ->
    array_free (mergeLight_source target source) = true.
Proof.
  induction source as [s IH] using value_height_ind. intros t Ht Hs.
  destruct (array_free_cases s Hs) as [Hterm|[ms ->]].
  { by rewrite mergeLight_source_terminal. }
  destruct (mergeLight_source_obj t ms Ht) as (m' & -> & Hm').
  apply array_free_obj. intros k x Hk. rewrite Hm' in Hk.
  pose proof (array_free_base t k Ht) as H0.
  destruct (ms !! k) as [v|] eqn:Hv; cbn [mbind option_bind] in Hk;
    [|by rewrite Hk in H0].
  destruct (defined v) as [v'|] eqn:Hd; [|by rewrite Hk in H0].
  apply defined_Some in Hd as <-. injection Hk as <-.
  apply IH; [by eapply height_lookup|done|].
  by apply (proj1 (array_free_obj ms) Hs k v).
Qed.

Lemma getPath_segs_terminal (t : value) (k : string) (ks : list string) :
  array_free t = true ->
  getPath_segs false t (k :: ks)
  = getPath_segs false (default VUndef (match t with VObj m => m | _ => ∅ end !! k)) ks.
Proof.
  intros Ht. destruct (array_free_cases t Ht) as [Hterm|[m ->]].
  - rewrite getPath_segs_scalar by (done || by destruct t).
    destruct t; try done; by rewrite lookup_empty, getPath_segs_undefined.
  - apply getPath_segs_obj.
Qed.

Lemma defined_None (v : value) : defined v = None -> v = VUndef.
Proof. by destruct v. Qed.

(** Where the source has a defined leaf, the merge has that leaf. *)
Lemma mergeLight_source_leaf (ks : list string) :
  forall target source : value,
    array_free target = true -> array_free source = true ->
    leaf_at source ks -> getPath_segs false source ks ≠ VUndef ->
    getPath_segs false (mergeLight_source target source) ks
    = getPath_segs false source ks.
Proof.
  induction ks as [|k ks IH]; intros t s Ht Hs Hleaf Hdef.
  { inversion Hleaf; subst. rewrite mergeLight_source_terminal; [done|by destruct s]. }
  inversion Hleaf as [|ms k' c ks' Hc Hleafc|]; subst; [|done].
  destruct (mergeLight_source_obj t ms Ht) as (m' & -> & Hm').
  rewrite !getPath_segs_obj, Hm', Hc in *. cbn [default mbind option_bind] in *.
  pose proof (proj1 (array_free_obj ms) Hs k c Hc) as Hcf.
  pose proof (array_free_base t k Ht) as Htk.
  destruct (defined c) as [c'|] eqn:Hd.
  - apply defined_Some in Hd as <-. cbn [default]. by apply IH.
  - apply defined_None in Hd as ->. by rewrite getPath_segs_undefined in Hdef.
Qed.

(** Where the path leaves the source at a key it lacks, the merge has what
    the target had. *)
Lemma mergeLight_source_beside (pre : list string) :
  forall (target source : value) (m : gmap string value) (k : string) (rest : list string),
    array_free target = true -> array_free source = true ->
    getPath_segs false source pre = VObj m ->
    default VUndef (m !! k) = VUndef ->
    getPath_segs false (mergeLight_source target source) (pre ++ k :: rest)
    = getPath_segs false target (pre ++ k :: rest).
Proof.
  induction pre as [|p pre IH]; intros t s m k rest Ht Hs Hpre Hk.
  - cbn [getPath_segs] in Hpre. subst s. cbn [app].
    destruct (mergeLight_source_obj t m Ht) as (m' & -> & Hm').
    rewrite getPath_segs_obj, getPath_segs_terminal, Hm' by done.
    destruct (m !! k) as [v|] eqn:Hv; [|done]. change (v = VUndef) in Hk. by rewrite Hk.
  - destruct (array_free_cases s Hs) as [Hterm|[ms ->]].
    { rewrite getPath_segs_scalar in Hpre; [done|by destruct s|done]. }
    rewrite getPath_segs_obj in Hpre.
    destruct (mergeLight_source_obj t ms Ht) as (m' & -> & Hm').
    change ((p :: pre) ++ k :: rest) with (p :: (pre ++ k :: rest)).
    rewrite getPath_segs_obj, getPath_segs_terminal, Hm' by done.
    destruct (ms !! p) as [c|] eqn:Hc; cbn [default] in Hpre;
      [|by rewrite getPath_segs_undefined in Hpre].
    pose proof (proj1 (array_free_obj ms) Hs p c Hc) as Hcf.
    pose proof (array_free_base t p Ht) as Htk.
    cbn [mbind option_bind]. destruct (defined c) as [c'|] eqn:Hd.
    + apply defined_Some in Hd as <-. cbn [default]. by eapply IH.
    + apply defined_None in Hd as ->. by rewrite getPath_segs_undefined in Hpre.
Qed.



(** X25: in trees without arrays, merging the same source a second time changes
    nothing; and merging a source that holds no [undefined] into a terminal
    value or into the empty object gives the source. *)
Theorem mergeLight_again_and_copy (target source : value) :
  array_free target = true ->
  array_free source = true ->
  mergeLight target [source; source] = mergeLight target [source]
  /\ (no_undefined source = true ->
      isTerminal target = true \/ target = VObj ∅ ->
      mergeLight target [source] = source).
Proof.
  intros Ht Hs. unfold mergeLight. cbn [foldl]. split.
  - revert target Ht Hs. induction source as [s IH] using value_height_ind.
    intros t Ht Hs. destruct (array_free_cases s Hs) as [Hterm|[ms ->]].
    { by rewrite !mergeLight_source_terminal. }
    pose proof (mergeLight_source_array_free (VObj ms) t Ht Hs) as Hr.
    destruct (mergeLight_source_obj t ms Ht) as (m' & Hm & Hm').
    rewrite Hm in *.
    destruct (mergeLight_source_obj (VObj m') ms Hr) as (m'' & -> & Hm'').
    f_equal. apply map_eq. intros k. rewrite Hm'', Hm'.
    pose proof (array_free_base t k Ht) as Htk.
    destruct (ms !! k) as [v|] eqn:Hv; [|done].
    pose proof (proj1 (array_free_obj ms) Hs k v Hv) as Hvf.
    pose proof (height_lookup ms k v Hv) as Hh.
    cbn [mbind option_bind]. destruct (defined v) as [v'|] eqn:Hd; [|done].
    apply defined_Some in Hd as <-. cbn [default]. f_equal. by apply IH.
  - intros Hdef Hcase.
    assert (Hbase : match target with VObj m => m | _ => ∅ end = ∅).
    { destruct Hcase as [Hterm| ->]; [by destruct target|done]. }
    clear Hcase. revert target Ht Hbase Hs Hdef.
    induction source as [s IH] using value_height_ind. intros t Ht Hbase Hs Hdef.
    destruct (array_free_cases s Hs) as [Hterm|[ms ->]].
    { by rewrite mergeLight_source_terminal. }
    destruct (mergeLight_source_obj t ms Ht) as (m' & -> & Hm').
    f_equal. apply map_eq. intros k. rewrite Hm', Hbase, lookup_empty.
    destruct (ms !! k) as [v|] eqn:Hv; [|done].
    pose proof (proj1 (array_free_obj ms) Hs k v Hv) as Hvf.
    pose proof (proj1 (no_undefined_obj ms) Hdef k v Hv) as Hvd.
    pose proof (height_lookup ms k v Hv) as Hh.
    cbn [mbind option_bind]. rewrite (no_undefined_defined v Hvd). f_equal.
    apply IH; done.
Qed.

Lemma mergeLight_again_and_copy_witness :
  let target := VObj {[ "a" := VObj {[ "x" := VNum 1; "y" := VNum 2 ]}; "b" := VNum 3 ]} in
  let source := VObj {[ "a" := VObj {[ "x" := VNum 7 ]}; "b" := VObj {[ "z" := VNull ]} ]} in
  mergeLight target [source; source] = mergeLight target [source]
  /\ mergeLight VNull [source] = source.
Proof.
  intros target source. split.
  - by apply (mergeLight_again_and_copy target source).
  - apply (mergeLight_again_and_copy VNull source); [done|done|done|by left].
Defined.

(** ** Subtraction under a key the minuend lacks *)

Lemma wild_free_no_wildcard (m : gmap string value) :
  wild_free (VObj m) = true -> m !! wildcard = None.
Proof.
  intros Hm. destruct (m !! wildcard) as [w|] eqn:Hw; [|done].
  by destruct (proj1 (wild_free_obj m) Hm wildcard w Hw).
Qed.

Lemma wild_free_default (m : gmap string value) (k : string) :
  wild_free (VObj m) = true -> wild_free (default VUndef (m !! k)) = true.
Proof.
  intros Hm. destruct (m !! k) as [x|] eqn:Hx; [|done].
  by destruct (proj1 (wild_free_obj m) Hm k x Hx).
Qed.

(** The loop of [subtract] over the keys of [b], taken when one of the two
    nodes has no wildcard: every key of [b] gets the result of one call. *)
Lemma subtract_plain_loop (rec : value -> value -> outcome value)
    (ma mb : gmap string value) :
  (forall key y, mb !! key = Some y ->
     exists v, rec (default VUndef (ma !! key)) y = Ok v) ->
  exists r,
    for_in mb (fun key acc =>
      cur ← acc;
      v ← rec (default VUndef (cur !! key)) (get key (VObj mb));
      Ok (<[key := v]> cur)) (Ok ma) = Ok r
    /\ forall key,
         match mb !! key with
         | Some y => exists v, rec (default VUndef (ma !! key)) y = Ok v
                               /\ r !! key = Some v
         | None => r !! key = ma !! key
         end.
Proof.
  intros Hrec. unfold for_in.
  assert (Hgen : forall m' : gmap string value, m' ⊆ mb ->
    exists r,
      map_fold (fun key (_ : value) acc =>
        cur ← acc;
        v ← rec (default VUndef (cur !! key)) (get key (VObj mb));
        Ok (<[key := v]> cur)) (Ok ma) m' = Ok r
      /\ forall key,
           match m' !! key with
           | Some y => exists v, rec (default VUndef (ma !! key)) y = Ok v
                                 /\ r !! key = Some v
           | None => r !! key = ma !! key
           end).
  { intros m'.
    apply (map_fold_weak_ind (fun (o : outcome (gmap string value))
                                  (m' : gmap string value) =>
      m' ⊆ mb ->
      exists r, o = Ok r
        /\ forall key,
             match m' !! key with
             | Some y => exists v, rec (default VUndef (ma !! key)) y = Ok v
                                   /\ r !! key = Some v
             | None => r !! key = ma !! key
             end)).
    - intros _. exists ma. split; [done|]. intros key. by rewrite lookup_empty.
    - intros i x m o Hi IHm Hsub.
      assert (Hx : mb !! i = Some x).
      { eapply lookup_weaken; [|exact Hsub]. by rewrite lookup_insert_eq. }
      destruct IHm as (r & -> & Hr); [etrans; [by apply insert_subseteq|done]|].
      pose proof (Hr i) as Hri. rewrite Hi in Hri.
      destruct (Hrec i x Hx) as [v Hv].
      exists (<[i := v]> r). split.
      { cbn [mbind outcome_bind]. rewrite Hri, get_obj, Hx. cbn [default from_option id].
        by rewrite Hv. }
      intros key. destruct (decide (key = i)) as [->|Hne].
      + rewrite !lookup_insert_eq. by exists v.
      + rewrite !lookup_insert_ne by done. apply Hr. }
  by apply Hgen.
Qed.

Lemma subtract_node_plain (rec : value -> value -> outcome value)
    (ma mb : gmap string value) :
  mb !! wildcard = None ->
  subtract_node rec (VObj ma) (VObj mb)
  = for_in mb (fun key acc =>
      cur ← acc;
      v ← rec (default VUndef (cur !! key)) (get key (VObj mb));
      Ok (<[key := v]> cur)) (Ok ma).
Proof.
  intros Hw. unfold subtract_node. rewrite has_key_obj, Hw.
  cbn [enum_props mbind outcome_bind]. by rewrite andb_false_r.
Qed.

(** On masks without wildcards [subtract] returns. *)
Lemma subtract_f_returns (fuel : nat) :
  forall a b : value,
    loose_tree a = true -> wild_free a = true ->
    mask_tree b = true -> wild_free b = true ->
    exists v, subtract_f fuel a b = Ok v.
Proof.
  induction fuel as [|fuel IH]; intros a b Ha Hwa Hb Hwb; [by eexists|].
  cbn [subtract_f].
  destruct (loose_tree_cases a Ha) as [->|[[[|] ->]|[ma ->]]];
    cbn [is_true is_false truthy negb]; try by eexists.
  destruct (mask_tree_cases b Hb) as [[[|] ->]|[mb ->]];
    cbn [is_true is_false truthy negb orb isScalar]; try by eexists.
  destruct (isEqual (VObj ma) (VObj mb)); [by eexists|].
  rewrite subtract_node_plain by by apply wild_free_no_wildcard.
  destruct (subtract_plain_loop (subtract_f fuel) ma mb) as (r & -> & _); [|by eexists].
  intros key y Hy. apply IH.
  - by apply loose_default, loose_tree_obj.
  - by apply wild_free_default.
  - by eapply mask_tree_lookup.
  - by destruct (proj1 (wild_free_obj mb) Hwb key y Hy).
Qed.

Lemma isEqual_missing_key (ma mb : gmap string value) (k : string) (bk : value) :
  ma !! k = None -> mb !! k = Some bk -> isEqual (VObj ma) (VObj mb) = false.
Proof.
  intros Ha Hb. unfold isEqual. cbn [isEqual_f].
  apply andb_false_iff. destruct (Nat.eqb (size ma) (size mb)) eqn:Hsize; [right|by left].
  apply Nat.eqb_eq in Hsize. apply not_true_is_false. intros Hall.
  pose proof (proj1 (keys_all_true _ ma) Hall) as Hkeys.
  assert (Hsub : dom ma ⊆ dom mb).
  { intros key [x Hx]%elem_of_dom. specialize (Hkeys key ltac:(by eexists)).
    cbn beta in Hkeys. apply elem_of_dom. by destruct (mb !! key). }
  assert (Heq : dom ma = dom mb).
  { apply set_subseteq_size_eq; [done|]. rewrite !size_dom. lia. }
  assert (Hk : k ∈ dom ma) by (rewrite Heq; apply elem_of_dom; by eexists).
  apply elem_of_dom in Hk as [x Hx]. congruence.
Qed.



(** Subtracting [{k: false}] from [{x: true}] gives a mask that allows [k]. *)
Example subtractMasks_grants_key :
  subtractMasks (VObj {[ "x" := VTrue ]}) (VObj {[ "k" := VFalse ]})
  = Ok (VObj {[ "x" := VTrue; "k" := VTrue ]}).
Proof. by vm_compute. Qed.
